(** * The metrics reporter of the compliance operator

    A shallow embedding of [pkg/controller/metrics] (metrics.go and its
    [impl] seam) together with the small part of the client libraries the
    package drives: the Prometheus collector registry and metric vectors,
    the process-wide HTTP mux, the TLS configuration record and the
    structured logger.  Go code that mutates process state is written in
    a state-and-panic monad over one [World] record.  Two callers and
    neighbours of the package follow: [AddToManager] of package
    [controller], and the deep copies of the machine-config API types. *)

From stdpp Require Import gmap strings list fin_maps.
From Stdlib Require Import ZArith Permutation.

Local Open Scope string_scope.

(** ** Values shared by the packages *)

(** A [prometheus.Collector] held by this program is a pointer to one of
    the two vector kinds; pointers are indices into the stores of
    [World]. *)
Inductive Collector :=
| CounterVecPtr (p : nat)
| GaugeVecPtr (p : nat).

#[global] Instance Collector_eq_dec : EqDecision Collector.
Proof. solve_decision. Defined.

(** [prometheus.Desc]: these programs never use constant labels, so a
    descriptor is its fully-qualified name, help string and the names of
    its variable labels. *)
Record Desc := mkDesc {
  fqName : string;
  help : string;
  variableLabels : list string
}.

#[global] Instance Desc_eq_dec : EqDecision Desc.
Proof. solve_decision. Defined.

(** Go [error] values that can flow through the package. *)
Inductive error :=
| AlreadyRegisteredError (ExistingCollector NewCollector : Collector)
| duplicateDescErr (d : Desc)
| inconsistentDescErr (d : Desc)
| errorString (s : string)
| withMessage (cause : error) (msg : string)
| withStack (e : error).

#[global] Instance error_eq_dec : EqDecision error.
Proof. solve_decision. Defined.

(** Arguments of a format call, kept next to the format string: the
    rendering of [%s] over a collector or an error is the runtime's. *)
Inductive Arg :=
| AString (s : string)
| ACollector (c : Collector)
| AError (e : option error).

Inductive Msg :=
| Lit (s : string)
| Sprintf (format : string) (args : list Arg).

(** One line written to a log sink: logr's [Info] and [Error] through a
    named logger, or the standard library's [log.Printf]. *)
Inductive LogEntry :=
| LogInfo (logger : string) (msg : Msg)
| LogError (logger : string) (err : error) (msg : Msg)
| LogPrintf (format : string) (args : list Arg).

(** [github.com/pkg/errors.Wrapf]: nil stays nil, otherwise the message is
    put in front of the cause and a stack is attached. *)
Definition Wrapf (err : option error) (msg : string) : option error :=
  match err with
  | None => None
  | Some e => Some (withStack (withMessage e msg))
  end.

(** ** Prometheus client: vectors and the registry

    The client library is not part of the repository.  The definitions
    below follow its documented behaviour for the collectors this program
    builds: vectors create a child per tuple of label values on first use,
    [Register] refuses a collector whose descriptor is already known, and
    a scrape carries one line per child. *)

Module prometheus.

Record Opts := mkOpts {
  Namespace : string;
  Subsystem : string;
  Name : string;
  Help : string
}.

Definition BuildFQName (namespace subsystem name : string) : string :=
  if decide (name = "") then ""
  else if decide (namespace ≠ "" ∧ subsystem ≠ "") then
    namespace +:+ "_" +:+ subsystem +:+ "_" +:+ name
  else if decide (namespace ≠ "") then namespace +:+ "_" +:+ name
  else if decide (subsystem ≠ "") then subsystem +:+ "_" +:+ name
  else name.

Definition NewDesc (o : Opts) (labelNames : list string) : Desc :=
  {| fqName := BuildFQName (Namespace o) (Subsystem o) (Name o);
     help := Help o;
     variableLabels := labelNames |}.

(** A vector owns one child per tuple of label values.  A counter child
    is the number of [Inc] calls it received; a gauge child holds the
    value last set. *)
Record CounterVec := mkCounterVec {
  cv_desc : Desc;
  cv_children : gmap (list string) N
}.

Record GaugeVec := mkGaugeVec {
  gv_desc : Desc;
  gv_children : gmap (list string) Z
}.

Definition NewCounterVec (o : Opts) (labelNames : list string) : CounterVec :=
  {| cv_desc := NewDesc o labelNames; cv_children := ∅ |}.

Definition NewGaugeVec (o : Opts) (labelNames : list string) : GaugeVec :=
  {| gv_desc := NewDesc o labelNames; gv_children := ∅ |}.

(** [prometheus.Labels] is a [map[string]string]. *)
Abbreviation Labels := (gmap string string).

(** The label values of [labels] in the order of the descriptor; [None]
    where [GetMetricWith] reports an error (wrong number of labels, or a
    label name of the descriptor missing). *)
Definition valuesOfLabels (d : Desc) (labels : Labels) : option (list string) :=
  if decide (size labels = length (variableLabels d))
  then mapM (λ n, labels !! n) (variableLabels d)
  else None.

(** Same for [GetMetricWithLabelValues]: the number of values must be the
    number of variable labels. *)
Definition checkLabelValues (d : Desc) (lvs : list string) : option (list string) :=
  if decide (length lvs = length (variableLabels d)) then Some lvs else None.

(** [getOrCreateMetric]: a child that does not exist yet starts at zero. *)
Definition getOrCreate {V} (zero : V) (key : list string)
    (children : gmap (list string) V) : gmap (list string) V :=
  match children !! key with
  | Some _ => children
  | None => <[key := zero]> children
  end.

(** The registry behind [prometheus.Register].  Descriptor ids are hashes
    of the fully-qualified name and the constant label values; without
    constant labels the name stands for the id, and a collector with one
    descriptor has that id as its collector id. *)
Record Registry := mkRegistry {
  descIDs : gset string;
  dimHashesByName : gmap string (string * list string);
  collectorsByID : gmap string Collector
}.

Definition descID (d : Desc) : string := fqName d.
Definition dimHash (d : Desc) : string * list string := (help d, variableLabels d).

(** [Registry.Register] for a collector that describes itself by the
    single descriptor [d]. *)
Definition registerDesc (c : Collector) (d : Desc) (r : Registry)
    : option error * Registry :=
  let duplicateDesc := bool_decide (descID d ∈ descIDs r) in
  let inconsistent :=
    match dimHashesByName r !! fqName d with
    | Some h => bool_decide (h ≠ dimHash d)
    | None => false
    end in
  if inconsistent then (Some (inconsistentDescErr d), r)
  else match collectorsByID r !! descID d with
       | Some existing => (Some (AlreadyRegisteredError existing c), r)
       | None =>
           if duplicateDesc then (Some (duplicateDescErr d), r)
           else (None,
                 {| descIDs := {[descID d]} ∪ descIDs r;
                    dimHashesByName := <[fqName d := dimHash d]> (dimHashesByName r);
                    collectorsByID := <[descID d := c]> (collectorsByID r) |})
       end.

(** One line of a scrape: metric name, label pairs, value. *)
Record Sample := mkSample {
  s_name : string;
  s_labels : list (string * string);
  s_value : Z
}.

Definition samplesOf {V} (toZ : V → Z) (d : Desc)
    (children : gmap (list string) V) : list Sample :=
  (λ kv, {| s_name := fqName d;
            s_labels := zip (variableLabels d) kv.1;
            s_value := toZ kv.2 |}) <$> map_to_list children.

End prometheus.

Import prometheus.

(** ** net/http and crypto/tls *)

Module http.

(** The only handler this program installs is [promhttp.Handler()]. *)
Inductive Handler := promhttpHandler.

Record tlsConfig := mkTlsConfig {
  MinVersion : Z;
  NextProtos : list string;
  PreferServerCipherSuites : bool;
  CipherSuites : list Z
}.

Definition VersionTLS12 : Z := 0x0303%Z.

Record Server := mkServer {
  Addr : string;
  TLSConfig : tlsConfig
}.

End http.

Import http.

(** ** The process state *)

Record World := mkWorld {
  counterVecs : list CounterVec;          (* heap of *prometheus.CounterVec *)
  gaugeVecs : list GaugeVec;              (* heap of *prometheus.GaugeVec *)
  DefaultRegisterer : Registry;           (* prometheus.DefaultRegisterer *)
  DefaultServeMux : gmap string Handler;  (* http.DefaultServeMux *)
  logs : list LogEntry                    (* oldest line first *)
}.

Definition set_counterVecs (f : list CounterVec → list CounterVec) (w : World) : World :=
  {| counterVecs := f (counterVecs w); gaugeVecs := gaugeVecs w;
     DefaultRegisterer := DefaultRegisterer w;
     DefaultServeMux := DefaultServeMux w; logs := logs w |}.

Definition set_gaugeVecs (f : list GaugeVec → list GaugeVec) (w : World) : World :=
  {| counterVecs := counterVecs w; gaugeVecs := f (gaugeVecs w);
     DefaultRegisterer := DefaultRegisterer w;
     DefaultServeMux := DefaultServeMux w; logs := logs w |}.

Definition set_DefaultRegisterer (r : Registry) (w : World) : World :=
  {| counterVecs := counterVecs w; gaugeVecs := gaugeVecs w;
     DefaultRegisterer := r;
     DefaultServeMux := DefaultServeMux w; logs := logs w |}.

Definition set_DefaultServeMux (f : gmap string Handler → gmap string Handler)
    (w : World) : World :=
  {| counterVecs := counterVecs w; gaugeVecs := gaugeVecs w;
     DefaultRegisterer := DefaultRegisterer w;
     DefaultServeMux := f (DefaultServeMux w); logs := logs w |}.

Definition add_log (l : LogEntry) (w : World) : World :=
  {| counterVecs := counterVecs w; gaugeVecs := gaugeVecs w;
     DefaultRegisterer := DefaultRegisterer w;
     DefaultServeMux := DefaultServeMux w; logs := (logs w ++ [l])%list |}.

(** ** Go computations: a result and the new state, or a panic *)

Inductive outcome (A : Type) :=
| Ret (a : A) (w : World)
| Panic (msg : string) (w : World).
Arguments Ret {A} a w.
Arguments Panic {A} msg w.

Definition Go (A : Type) : Type := World → outcome A.

Definition ret {A} (a : A) : Go A := λ w, Ret a w.

Definition bind {A B} (c : Go A) (k : A → Go B) : Go B :=
  λ w, match c w with
       | Ret a w' => k a w'
       | Panic msg w' => Panic msg w'
       end.

Definition panic {A} (msg : string) : Go A := λ w, Panic msg w.

Definition modify (f : World → World) : Go unit := λ w, Ret tt (f w).

Declare Scope go_scope.
Delimit Scope go_scope with go.
Notation "'let*' x := c 'in' k" := (bind c (λ x, k))
  (at level 10, x pattern, c at level 100, k at level 200) : go_scope.
Notation "c ;;; k" := (bind c (λ _, k))
  (at level 100, k at level 200, right associativity) : go_scope.
Local Open Scope go_scope.

Definition nilDeref : string := "invalid memory address or nil pointer dereference".

(** ** Library calls that touch the process state *)

Definition logInfo (logger : string) (msg : Msg) : Go unit :=
  modify (add_log (LogInfo logger msg)).

Definition logError (logger : string) (err : error) (msg : Msg) : Go unit :=
  modify (add_log (LogError logger err msg)).

Definition logPrintf (format : string) (args : list Arg) : Go unit :=
  modify (add_log (LogPrintf format args)).

(** Allocation of the two vector kinds. *)
Definition allocCounterVec (v : CounterVec) : Go nat :=
  λ w, Ret (length (counterVecs w)) (set_counterVecs (λ h, (h ++ [v])%list) w).

Definition allocGaugeVec (v : GaugeVec) : Go nat :=
  λ w, Ret (length (gaugeVecs w)) (set_gaugeVecs (λ h, (h ++ [v])%list) w).

(** A child handed out by [With] / [WithLabelValues]: the vector it lives
    in and its tuple of label values. *)
Record Counter := mkCounter { c_vec : nat; c_key : list string }.
Record Gauge := mkGauge { g_vec : nat; g_key : list string }.

(** [CounterVec.With]: panics where [GetMetricWith] returns an error. *)
Definition CounterVec_With (p : nat) (labels : Labels) : Go Counter :=
  λ w, match counterVecs w !! p with
       | None => Panic nilDeref w
       | Some v =>
           match valuesOfLabels (cv_desc v) labels with
           | None => Panic "inconsistent label cardinality" w
           | Some key =>
               Ret (mkCounter p key)
                   (set_counterVecs
                      <[p := mkCounterVec (cv_desc v) (getOrCreate 0%N key (cv_children v))]> w)
           end
       end.

(** [Counter.Inc]. *)
Definition Counter_Inc (c : Counter) : Go unit :=
  modify (set_counterVecs
            (alter (λ v, mkCounterVec (cv_desc v) (alter N.succ (c_key c) (cv_children v)))
                   (c_vec c))).

(** [GaugeVec.WithLabelValues]: panics where
    [GetMetricWithLabelValues] returns an error. *)
Definition GaugeVec_WithLabelValues (p : nat) (lvs : list string) : Go Gauge :=
  λ w, match gaugeVecs w !! p with
       | None => Panic nilDeref w
       | Some v =>
           match checkLabelValues (gv_desc v) lvs with
           | None => Panic "inconsistent label cardinality" w
           | Some key =>
               Ret (mkGauge p key)
                   (set_gaugeVecs
                      <[p := mkGaugeVec (gv_desc v) (getOrCreate 0%Z key (gv_children v))]> w)
           end
       end.

(** [Gauge.Set]. *)
Definition Gauge_Set (g : Gauge) (val : Z) : Go unit :=
  modify (set_gaugeVecs
            (alter (λ v, mkGaugeVec (gv_desc v) (alter (λ _, val) (g_key g) (gv_children v)))
                   (g_vec g))).

(** [Collector.Describe] through the pointer. *)
Definition Describe (c : Collector) (w : World) : option Desc :=
  match c with
  | CounterVecPtr p => cv_desc <$> counterVecs w !! p
  | GaugeVecPtr p => gv_desc <$> gaugeVecs w !! p
  end.

(** [prometheus.Register] on the default registerer. *)
Definition prometheus_Register (c : Collector) : Go (option error) :=
  λ w, match Describe c w with
       | None => Panic nilDeref w
       | Some d =>
           let '(err, r) := registerDesc c d (DefaultRegisterer w) in
           Ret err (set_DefaultRegisterer r w)
       end.

(** What a collector sends on [Collect]: one sample per child. *)
Definition Collect (c : Collector) (w : World) : list Sample :=
  match c with
  | CounterVecPtr p =>
      match counterVecs w !! p with
      | Some v => samplesOf Z.of_N (cv_desc v) (cv_children v)
      | None => []
      end
  | GaugeVecPtr p =>
      match gaugeVecs w !! p with
      | Some v => samplesOf id (gv_desc v) (gv_children v)
      | None => []
      end
  end.

(** [Gather] on the default registry, the content of one scrape served by
    [promhttp.Handler()]. *)
Definition Gather (w : World) : list Sample :=
  mbind (λ ic : string * Collector, Collect ic.2 w)
        (map_to_list (collectorsByID (DefaultRegisterer w))).

Definition scrapeNames (w : World) : list string := s_name <$> Gather w.

(** [http.Handle] on the default mux: if a handler already exists for the
    pattern, [Handle] panics. *)
Definition http_Handle (pattern : string) (handler : Handler) : Go unit :=
  λ w, if decide (pattern = "") then Panic "http: invalid pattern" w
       else match DefaultServeMux w !! pattern with
            | Some _ => Panic ("http: multiple registrations for " +:+ pattern) w
            | None => Ret tt (set_DefaultServeMux <[pattern := handler]> w)
            end.

(** ** Package v1alpha1: the status fields the reporter reads *)

Record ComplianceScanStatus := mkScanStatus {
  Phase : string;
  Result : string;
  ErrorMessage : string
}.

Record ComplianceRemediationStatus := mkRemediationStatus {
  ApplicationState : string
}.

(** ** Package metrics *)

Definition metricNamespace := "compliance_operator".

Definition metricNameComplianceScanStatus := "compliance_scan_status_total".
Definition metricNameComplianceScanError := "compliance_scan_error_total".
Definition metricNameComplianceRemediationStatus := "compliance_remediation_status_total".
Definition metricNameComplianceStateGauge := "compliance_state".

Definition metricLabelScanResult := "result".
Definition metricLabelScanName := "name".
Definition metricLabelSuiteName := "name".
Definition metricLabelScanPhase := "phase".
Definition metricLabelScanError := "error".
Definition metricLabelRemediationName := "name".
Definition metricLabelRemediationState := "state".

Definition HandlerPath := "/metrics-co".
Definition ControllerMetricsServiceName := "metrics-co".
Definition ControllerMetricsPort : Z := 8585.
Definition MetricsAddrListen := ":8585".

Definition METRIC_STATE_COMPLIANT : Z := 0.
Definition METRIC_STATE_NON_COMPLIANT : Z := 1.
Definition METRIC_STATE_INCONSISTENT : Z := 2.
Definition METRIC_STATE_ERROR : Z := 3.

(** The [impl] interface: the seam in front of the registry and the plain
    HTTP server.  [ListenAndServe] blocks; the error the library call came
    back with is an input of the model. *)
Record impl := mkImpl {
  impl_Register : Collector → Go (option error);
  impl_ListenAndServe : string → Handler → option error → Go (option error)
}.

Record ControllerMetrics := mkControllerMetrics {
  metricComplianceScanError : nat;
  metricComplianceScanStatus : nat;
  metricComplianceRemediationStatus : nat;
  metricComplianceStateGauge : nat
}.

Record Metrics := mkMetrics {
  m_impl : impl;
  m_log : string;
  m_metrics : ControllerMetrics
}.

(** [defaultImpl]. *)
Definition defaultImpl_Register (c : Collector) : Go (option error) :=
  logPrintf "Attempting to register metric: %s" [ACollector c];;;
  let* err := prometheus_Register c in
  match err with
  | Some _ =>
      logPrintf "Failed to register metric: %s, error: %v" [ACollector c; AError err]
  | None =>
      logPrintf "Successfully registered metric: %s" [ACollector c]
  end;;;
  ret err.

Definition defaultImpl_ListenAndServe (addr : string) (handler : Handler)
    (served : option error) : Go (option error) :=
  logPrintf "Starting HTTP server on %s" [AString addr];;;
  let err := served in
  match err with
  | Some _ =>
      logPrintf "Failed to start HTTP server on %s, error: %v" [AString addr; AError err]
  | None =>
      logPrintf "HTTP server started successfully on %s" [AString addr]
  end;;;
  ret err.

Definition defaultImpl : impl :=
  {| impl_Register := defaultImpl_Register;
     impl_ListenAndServe := defaultImpl_ListenAndServe |}.

Definition scanErrorOpts : Opts :=
  {| Name := metricNameComplianceScanError;
     Namespace := metricNamespace;
     Subsystem := "";
     Help := "A counter for the total number of errors for a particular scan" |}.

Definition scanStatusOpts : Opts :=
  {| Name := metricNameComplianceScanStatus;
     Namespace := metricNamespace;
     Subsystem := "";
     Help := "A counter for the total number of updates to the status of a ComplianceScan" |}.

Definition remediationStatusOpts : Opts :=
  {| Name := metricNameComplianceRemediationStatus;
     Namespace := metricNamespace;
     Subsystem := "";
     Help := "A counter for the total number of updates to the status of a ComplianceRemediation" |}.

Definition stateGaugeOpts : Opts :=
  {| Name := metricNameComplianceStateGauge;
     Namespace := metricNamespace;
     Subsystem := "";
     Help := "A gauge for the compliance state of a ComplianceSuite. Set to 0 when COMPLIANT, 1 when NON-COMPLIANT, 2 when INCONSISTENT, and 3 when ERROR" |}.

Definition scanErrorLabels : list string := [metricLabelScanName].
Definition scanStatusLabels : list string :=
  [metricLabelScanName; metricLabelScanPhase; metricLabelScanResult].
Definition remediationStatusLabels : list string :=
  [metricLabelRemediationName; metricLabelRemediationState].
Definition stateGaugeLabels : list string := [metricLabelSuiteName].

Definition DefaultControllerMetrics : Go ControllerMetrics :=
  let log := "DefaultControllerMetrics" in
  logInfo log (Lit "Initializing default controller metrics");;;
  logInfo log (Lit "Creating metricComplianceScanError");;;
  let* metricComplianceScanError :=
    allocCounterVec (NewCounterVec scanErrorOpts scanErrorLabels) in
  logInfo log (Lit "Creating metricComplianceScanStatus");;;
  let* metricComplianceScanStatus :=
    allocCounterVec (NewCounterVec scanStatusOpts scanStatusLabels) in
  logInfo log (Lit "Creating metricComplianceRemediationStatus");;;
  let* metricComplianceRemediationStatus :=
    allocCounterVec (NewCounterVec remediationStatusOpts remediationStatusLabels) in
  logInfo log (Lit "Creating metricComplianceStateGauge");;;
  let* metricComplianceStateGauge :=
    allocGaugeVec (NewGaugeVec stateGaugeOpts stateGaugeLabels) in
  logInfo log (Lit "Default controller metrics initialization complete");;;
  ret {| metricComplianceScanError := metricComplianceScanError;
         metricComplianceScanStatus := metricComplianceScanStatus;
         metricComplianceRemediationStatus := metricComplianceRemediationStatus;
         metricComplianceStateGauge := metricComplianceStateGauge |}.

Definition NewMetrics (imp : impl) : Go Metrics :=
  let* metrics := DefaultControllerMetrics in
  ret {| m_impl := imp; m_log := "metrics"; m_metrics := metrics |}.

Definition New : Go Metrics := NewMetrics defaultImpl.

(** The map literal [Register] ranges over, in the order it is written.
    Go leaves the iteration order of a map open: [Register] below takes
    the order of one run, a permutation of this list. *)
Definition collectors (m : Metrics) : list (string * Collector) :=
  [ (metricNameComplianceScanError,
     CounterVecPtr (metricComplianceScanError (m_metrics m)));
    (metricNameComplianceScanStatus,
     CounterVecPtr (metricComplianceScanStatus (m_metrics m)));
    (metricNameComplianceRemediationStatus,
     CounterVecPtr (metricComplianceRemediationStatus (m_metrics m)));
    (metricNameComplianceStateGauge,
     GaugeVecPtr (metricComplianceStateGauge (m_metrics m))) ].

Definition registerWrapMsg (name : string) : string :=
  "register collector for " +:+ name +:+ " metric".

(** The body of the [for ... range] loop of [Register], over the entries
    still to visit. *)
Fixpoint Register_range (m : Metrics) (entries : list (string * Collector))
    : Go (option error) :=
  match entries with
  | [] => ret None
  | (name, collector) :: rest =>
      logInfo (m_log m) (Sprintf "Attempting to register metric name: %s" [AString name]);;;
      logInfo (m_log m)
        (Sprintf "Attempting to register metric collector: %s" [ACollector collector]);;;
      let* err := impl_Register (m_impl m) collector in
      match err with
      | Some e =>
          logError (m_log m) e (Sprintf "Failed to register metric: %s" [AString name]);;;
          ret (Wrapf err (registerWrapMsg name))
      | None =>
          logInfo (m_log m) (Sprintf "Successfully registered metric: %s" [AString name]);;;
          Register_range m rest
      end
  end.

(** [Register] iterates over all available metrics and registers them;
    [order] is the order in which this run of the loop sees the map. *)
Definition Register (m : Metrics) (order : list (string * Collector)) : Go (option error) :=
  Register_range m order.

Definition range_order (m : Metrics) (order : list (string * Collector)) : Prop :=
  order ≡ₚ collectors m.

(** [IncComplianceScanStatus] also increments error if necessary. *)
Definition IncComplianceScanStatus (m : Metrics) (name : string)
    (status : ComplianceScanStatus) : Go unit :=
  let* c := CounterVec_With (metricComplianceScanStatus (m_metrics m))
              (<[metricLabelScanName := name]>
               (<[metricLabelScanPhase := Phase status]>
                (<[metricLabelScanResult := Result status]> ∅))) in
  Counter_Inc c;;;
  if decide (0 < String.length (ErrorMessage status)) then
    let* c := CounterVec_With (metricComplianceScanError (m_metrics m))
                (<[metricLabelScanName := name]> ∅) in
    Counter_Inc c
  else ret tt.

(** [IncComplianceRemediationStatus] increments the ComplianceRemediation
    status counter. *)
Definition IncComplianceRemediationStatus (m : Metrics) (name : string)
    (status : ComplianceRemediationStatus) : Go unit :=
  let* c := CounterVec_With (metricComplianceRemediationStatus (m_metrics m))
              (<[metricLabelRemediationName := name]>
               (<[metricLabelRemediationState := ApplicationState status]> ∅)) in
  Counter_Inc c.

(** [SetComplianceStateError] sets the compliance_state gauge to 3. *)
Definition SetComplianceStateError (m : Metrics) (name : string) : Go unit :=
  let* g := GaugeVec_WithLabelValues (metricComplianceStateGauge (m_metrics m)) [name] in
  Gauge_Set g METRIC_STATE_ERROR.

(** [SetComplianceStateInconsistent] sets the compliance_state gauge to 2. *)
Definition SetComplianceStateInconsistent (m : Metrics) (name : string) : Go unit :=
  let* g := GaugeVec_WithLabelValues (metricComplianceStateGauge (m_metrics m)) [name] in
  Gauge_Set g METRIC_STATE_INCONSISTENT.

(** [SetComplianceStateOutOfCompliance] sets the compliance_state gauge to 1. *)
Definition SetComplianceStateOutOfCompliance (m : Metrics) (name : string) : Go unit :=
  let* g := GaugeVec_WithLabelValues (metricComplianceStateGauge (m_metrics m)) [name] in
  Gauge_Set g METRIC_STATE_NON_COMPLIANT.

(** [SetComplianceStateInCompliance] sets the compliance_state gauge to 0. *)
Definition SetComplianceStateInCompliance (m : Metrics) (name : string) : Go unit :=
  let* g := GaugeVec_WithLabelValues (metricComplianceStateGauge (m_metrics m)) [name] in
  Gauge_Set g METRIC_STATE_COMPLIANT.

(** ** Serving *)

(** A [context.Context], by identity. *)
Definition Context := nat.

(** The blocking call [server.ListenAndServeTLS(certFile, keyFile)]. *)
Record ServeCall := mkServeCall {
  sc_server : Server;
  sc_certFile : string;
  sc_keyFile : string
}.

(** What the environment can do to a blocked [Start]: cancel a context, or
    let [ListenAndServeTLS] come back (the certificate or key could not be
    read, the address could not be bound, the listener broke). *)
Inductive Event :=
| ContextCancelled (ctx : Context)
| ListenAndServeTLSReturned (err : option error).

(** Where a call of [Start] is: blocked in [ListenAndServeTLS] with the
    listener up, or over (returned or panicked). *)
Inductive StartState :=
| Serving (call : ServeCall) (w : World)
| Finished (o : outcome (option error)).

Section Serving.

(** The tables of library-go's [crypto] package. *)
Variable DefaultTLSVersion : Z.
Variable DefaultCiphers : list Z.

(** [libgocrypto.SecureTLSConfig] enforces the default minimum security
    settings for the cluster. *)
Definition SecureTLSConfig (config : tlsConfig) : tlsConfig :=
  {| MinVersion :=
       if decide (MinVersion config = 0%Z) then DefaultTLSVersion else MinVersion config;
     NextProtos := NextProtos config;
     PreferServerCipherSuites := true;
     CipherSuites :=
       if decide (length (CipherSuites config) = 0%nat) then DefaultCiphers
       else CipherSuites config |}.

(** [Start] down to the call of [server.ListenAndServeTLS].
    [promhttp.Handler()] stands for the handler value it returns; the
    request instrumentation the client library sets up for that handler
    is the library's own and no theorem below speaks of it. *)
Definition Start_listen (m : Metrics) (ctx : Context) : Go ServeCall :=
  logInfo (m_log m) (Lit "Starting to serve controller metrics");;;
  http_Handle HandlerPath promhttpHandler;;;
  let tlsConfig :=
    {| MinVersion := VersionTLS12;
       NextProtos := ["http/1.1"];
       PreferServerCipherSuites := false;
       CipherSuites := [] |} in
  let tlsConfig := SecureTLSConfig tlsConfig in
  let server := {| Addr := MetricsAddrListen; TLSConfig := tlsConfig |} in
  ret (mkServeCall server
         "/var/run/secrets/serving-cert/tls.crt"
         "/var/run/secrets/serving-cert/tls.key").

(** [Start] from the return of [server.ListenAndServeTLS] with [err]. *)
Definition Start_served (m : Metrics) (err : option error) : Go (option error) :=
  match err with
  | Some e =>
      (* unhandled on purpose, we don't want to exit the operator. *)
      logError (m_log m) e (Lit "Metrics service failed")
  | None => ret tt
  end;;;
  ret None.

Definition Start_begin (m : Metrics) (ctx : Context) (w : World) : StartState :=
  match Start_listen m ctx w with
  | Ret call w' => Serving call w'
  | Panic msg w' => Finished (Panic msg w')
  end.

Definition Start_step (m : Metrics) (ctx : Context) (st : StartState) (ev : Event)
    : StartState :=
  match st, ev with
  | Serving call w, ListenAndServeTLSReturned err => Finished (Start_served m err w)
  | Serving call w, ContextCancelled _ => Serving call w
  | Finished o, _ => Finished o
  end.

(** [Start(ctx)] in state [w], observed after the events [evs]. *)
Definition Start (m : Metrics) (ctx : Context) (evs : list Event) (w : World)
    : StartState :=
  fold_left (Start_step m ctx) evs (Start_begin m ctx w).

End Serving.

(** ** Observations and call sequences *)

(** The value a counter child exposes; a tuple never observed counts 0. *)
Definition counterValue (w : World) (p : nat) (key : list string) : N :=
  match counterVecs w !! p with
  | Some v => default 0%N (cv_children v !! key)
  | None => 0%N
  end.

(** The value of a gauge child, if the tuple has one. *)
Definition gaugeValue (w : World) (p : nat) (key : list string) : option Z :=
  match gaugeVecs w !! p with
  | Some v => gv_children v !! key
  | None => None
  end.

Definition scanStatusCounter (m : Metrics) (w : World) (name phase result : string) : N :=
  counterValue w (metricComplianceScanStatus (m_metrics m)) [name; phase; result].

Definition scanErrorCounter (m : Metrics) (w : World) (name : string) : N :=
  counterValue w (metricComplianceScanError (m_metrics m)) [name].

Definition remediationStatusCounter (m : Metrics) (w : World) (name state : string) : N :=
  counterValue w (metricComplianceRemediationStatus (m_metrics m)) [name; state].

Definition complianceStateGauge (m : Metrics) (w : World) (name : string) : option Z :=
  gaugeValue w (metricComplianceStateGauge (m_metrics m)) [name].

(** The four compliance-state setters. *)
Inductive Setter :=
| StateError
| StateInconsistent
| StateOutOfCompliance
| StateInCompliance.

Definition setComplianceState (s : Setter) : Metrics → string → Go unit :=
  match s with
  | StateError => SetComplianceStateError
  | StateInconsistent => SetComplianceStateInconsistent
  | StateOutOfCompliance => SetComplianceStateOutOfCompliance
  | StateInCompliance => SetComplianceStateInCompliance
  end.

Definition ordinal (s : Setter) : Z :=
  match s with
  | StateInCompliance => 0
  | StateOutOfCompliance => 1
  | StateInconsistent => 2
  | StateError => 3
  end.

(** One call of a domain controller into the reporter. *)
Inductive Call :=
| IncScan (name : string) (status : ComplianceScanStatus)
| IncRemediation (name : string) (status : ComplianceRemediationStatus)
| SetState (s : Setter) (name : string).

Definition call (m : Metrics) (c : Call) : Go unit :=
  match c with
  | IncScan name status => IncComplianceScanStatus m name status
  | IncRemediation name status => IncComplianceRemediationStatus m name status
  | SetState s name => setComplianceState s m name
  end.

Fixpoint calls (m : Metrics) (cs : list Call) : Go unit :=
  match cs with
  | [] => ret tt
  | c :: rest => call m c;;; calls m rest
  end.

(** The pointers of a reporter lead to the vectors its constructor made. *)
Record valid (m : Metrics) (w : World) : Prop := mkValid {
  valid_scanError :
    cv_desc <$> counterVecs w !! metricComplianceScanError (m_metrics m)
    = Some (NewDesc scanErrorOpts scanErrorLabels);
  valid_scanStatus :
    cv_desc <$> counterVecs w !! metricComplianceScanStatus (m_metrics m)
    = Some (NewDesc scanStatusOpts scanStatusLabels);
  valid_remediationStatus :
    cv_desc <$> counterVecs w !! metricComplianceRemediationStatus (m_metrics m)
    = Some (NewDesc remediationStatusOpts remediationStatusLabels);
  valid_stateGauge :
    gv_desc <$> gaugeVecs w !! metricComplianceStateGauge (m_metrics m)
    = Some (NewDesc stateGaugeOpts stateGaugeLabels)
}.

Definition emptyRegistry : Registry :=
  {| descIDs := ∅; dimHashesByName := ∅; collectorsByID := ∅ |}.

(** A process that has not touched the package yet. *)
Definition emptyWorld : World :=
  {| counterVecs := []; gaugeVecs := []; DefaultRegisterer := emptyRegistry;
     DefaultServeMux := ∅; logs := [] |}.

(** The state changes of the vector operations, as functions on one
    vector. *)
Definition incChild (key : list string) (v : CounterVec) : CounterVec :=
  mkCounterVec (cv_desc v)
    (<[key := N.succ (default 0%N (cv_children v !! key))]> (cv_children v)).

Definition setChild (key : list string) (val : Z) (v : GaugeVec) : GaugeVec :=
  mkGaugeVec (gv_desc v) (<[key := val]> (gv_children v)).

(** How many calls of a sequence are [IncComplianceScanStatus] calls for
    the tuple (name, phase, result). *)
Definition isIncScan (name phase result : string) (c : Call) : bool :=
  match c with
  | IncScan n status =>
      bool_decide (n = name ∧ Phase status = phase ∧ Result status = result)
  | _ => false
  end.

Fixpoint countIncScan (name phase result : string) (cs : list Call) : nat :=
  match cs with
  | [] => 0
  | c :: rest =>
      (if isIncScan name phase result c then 1 else 0) + countIncScan name phase result rest
  end.

(** The setter of the last [SetState] call for [name] in a sequence. *)
Fixpoint lastSetter (name : string) (cs : list Call) : option Setter :=
  match cs with
  | [] => None
  | c :: rest =>
      match lastSetter name rest with
      | Some s => Some s
      | None =>
          match c with
          | SetState s n => if decide (n = name) then Some s else None
          | _ => None
          end
      end
  end.

(** The same on the process state. *)
Definition bump (p : nat) (key : list string) (w : World) : World :=
  set_counterVecs (alter (incChild key) p) w.

Definition setGauge (p : nat) (key : list string) (val : Z) (w : World) : World :=
  set_gaugeVecs (alter (setChild key val) p) w.

(** The state after one call of a domain controller, when the reporter's
    pointers are valid. *)
Definition effect (m : Metrics) (c : Call) (w : World) : World :=
  match c with
  | IncScan name status =>
      let w1 := bump (metricComplianceScanStatus (m_metrics m))
                  [name; Phase status; Result status] w in
      if decide (0 < String.length (ErrorMessage status))
      then bump (metricComplianceScanError (m_metrics m)) [name] w1
      else w1
  | IncRemediation name status =>
      bump (metricComplianceRemediationStatus (m_metrics m))
        [name; ApplicationState status] w
  | SetState s name =>
      setGauge (metricComplianceStateGauge (m_metrics m)) [name] (ordinal s) w
  end.

(** The reporter [New] builds, written out. *)
Definition newMetricsAt (w0 : World) : Metrics :=
  {| m_impl := defaultImpl; m_log := "metrics";
     m_metrics :=
       {| metricComplianceScanError := length (counterVecs w0);
          metricComplianceScanStatus := S (length (counterVecs w0));
          metricComplianceRemediationStatus := S (S (length (counterVecs w0)));
          metricComplianceStateGauge := length (gaugeVecs w0) |} |}.

(** The state in which a computation ended, and the state a call of
    [Start] is in. *)
Definition outcome_world {A} (o : outcome A) : World :=
  match o with
  | Ret _ w => w
  | Panic _ w => w
  end.

Definition state_world (st : StartState) : World :=
  match st with
  | Serving _ w => w
  | Finished o => outcome_world o
  end.

(** A process whose only action so far was one [New()]. *)
Definition freshMetrics : Metrics := newMetricsAt emptyWorld.
Definition freshWorld : World := outcome_world (New emptyWorld).

(** The events of a run without the context cancellations. *)
Fixpoint dropCancels (evs : list Event) : list Event :=
  match evs with
  | [] => []
  | ContextCancelled _ :: rest => dropCancels rest
  | ev :: rest => ev :: dropCancels rest
  end.

(** The state right after the first log line of [Start]. *)
Definition startLogged (m : Metrics) (w : World) : World :=
  add_log (LogInfo (m_log m) (Lit "Starting to serve controller metrics")) w.

(** What the steps of [Start] written out above keep: the vectors, the
    registry as far as [Start] itself goes, and earlier bindings. *)
Definition Start_frame (w w' : World) : Prop :=
  counterVecs w' = counterVecs w
  ∧ gaugeVecs w' = gaugeVecs w
  ∧ DefaultRegisterer w' = DefaultRegisterer w
  ∧ (is_Some (DefaultServeMux w !! HandlerPath) →
     is_Some (DefaultServeMux w' !! HandlerPath)).

(** The states around one adapter call in the loop of [Register]: where
    the adapter is called, where the loop goes on after a success, and
    where it returns after a failure. *)
Definition attemptLogged (m : Metrics) (name : string) (c : Collector) (w : World)
    : World :=
  add_log (LogInfo (m_log m)
             (Sprintf "Attempting to register metric collector: %s" [ACollector c]))
    (add_log (LogInfo (m_log m)
                (Sprintf "Attempting to register metric name: %s" [AString name])) w).

Definition successLogged (m : Metrics) (name : string) (w : World) : World :=
  add_log (LogInfo (m_log m)
             (Sprintf "Successfully registered metric: %s" [AString name])) w.

Definition failureLogged (m : Metrics) (name : string) (e : error) (w : World) : World :=
  add_log (LogError (m_log m) e
             (Sprintf "Failed to register metric: %s" [AString name])) w.

(** [registeredAll m entries w w']: starting in [w], the adapter was
    called for every entry in turn, every call returned nil, and the loop
    is in [w'] after the last one. *)
Inductive registeredAll (m : Metrics) : list (string * Collector) → World → World → Prop :=
| registeredAll_nil w : registeredAll m [] w w
| registeredAll_cons name c rest w w1 w2 :
    impl_Register (m_impl m) c (attemptLogged m name c w) = Ret None w1 →
    registeredAll m rest (successLogged m name w1) w2 →
    registeredAll m ((name, c) :: rest) w w2.

(** A collector the default registry holds. *)
Definition registered (c : Collector) (w : World) : Prop :=
  ∃ id, collectorsByID (DefaultRegisterer w) !! id = Some c.

(** The default registry knows nothing under the name of [d]. *)
Definition unknownDesc (d : Desc) (r : Registry) : Prop :=
  (descID d ∉ descIDs r)
  ∧ dimHashesByName r !! fqName d = None
  ∧ collectorsByID r !! descID d = None.

(** The four descriptors of a reporter. *)
Definition reporterDescs : list Desc :=
  [ NewDesc scanErrorOpts scanErrorLabels;
    NewDesc scanStatusOpts scanStatusLabels;
    NewDesc remediationStatusOpts remediationStatusLabels;
    NewDesc stateGaugeOpts stateGaugeLabels ].

(** The vector behind a collector has at least one child. *)
Definition observed (c : Collector) (w : World) : Prop :=
  match c with
  | CounterVecPtr p => ∃ v key, counterVecs w !! p = Some v ∧ is_Some (cv_children v !! key)
  | GaugeVecPtr p => ∃ v key, gaugeVecs w !! p = Some v ∧ is_Some (gv_children v !! key)
  end.

(** The state [defaultImpl.Register] leaves when the registry answered
    [err] and is now [r]. *)
Definition defaultRegistered (c : Collector) (err : option error) (r : Registry)
    (w : World) : World :=
  add_log
    (match err with
     | Some _ => LogPrintf "Failed to register metric: %s, error: %v" [ACollector c; AError err]
     | None => LogPrintf "Successfully registered metric: %s" [ACollector c]
     end)
    (set_DefaultRegisterer r
       (add_log (LogPrintf "Attempting to register metric: %s" [ACollector c]) w)).

(** The registry holds [c] under the descriptor [d]. *)
Definition registeredAs (c : Collector) (d : Desc) (r : Registry) : Prop :=
  collectorsByID r !! descID d = Some c
  ∧ dimHashesByName r !! fqName d = Some (dimHash d).

(** Nothing the registry [r] holds is missing from [r']. *)
Definition registry_le (r r' : Registry) : Prop :=
  (∀ id c, collectorsByID r !! id = Some c → collectorsByID r' !! id = Some c)
  ∧ (∀ n h, dimHashesByName r !! n = Some h → dimHashesByName r' !! n = Some h)
  ∧ descIDs r ⊆ descIDs r'.

(** Two states with the same vectors. *)
Definition sameVecs (w w' : World) : Prop :=
  counterVecs w' = counterVecs w ∧ gaugeVecs w' = gaugeVecs w.

(** The descriptor behind each name of the map of [Register]. *)
Definition namedDescs : list (string * Desc) :=
  [ (metricNameComplianceScanError, NewDesc scanErrorOpts scanErrorLabels);
    (metricNameComplianceScanStatus, NewDesc scanStatusOpts scanStatusLabels);
    (metricNameComplianceRemediationStatus,
     NewDesc remediationStatusOpts remediationStatusLabels);
    (metricNameComplianceStateGauge, NewDesc stateGaugeOpts stateGaugeLabels) ].

(** The registry of [w] holds the four collectors of [m]. *)
Definition reporterRegistered (m : Metrics) (w : World) : Prop :=
  ∀ name c, (name, c) ∈ collectors m →
    ∃ d, (name, d) ∈ namedDescs ∧ Describe c w = Some d
         ∧ registeredAs c d (DefaultRegisterer w).

(** The registry of [w] knows none of the four descriptors of a reporter. *)
Definition registryKnowsNone (w : World) : Prop :=
  Forall (λ d, unknownDesc d (DefaultRegisterer w)) reporterDescs.

(** A process with one reporter in which somebody else has registered a
    descriptor under the scan-status name. *)
Definition conflictWorld : World :=
  set_DefaultRegisterer
    {| descIDs := {["compliance_operator_compliance_scan_status_total"]};
       dimHashesByName := ∅;
       collectorsByID := ∅ |}
    freshWorld.

(** A process in which [New()] ran twice. *)
Definition secondMetrics : Metrics := newMetricsAt freshWorld.
Definition twoReporters : World := outcome_world (New freshWorld).

(** How many calls of a sequence satisfy [f]. *)
Fixpoint countCalls (f : Call → bool) (cs : list Call) : nat :=
  match cs with
  | [] => 0
  | c :: rest => (if f c then 1 else 0) + countCalls f rest
  end.

(** An [IncComplianceRemediationStatus] call for (name, state). *)
Definition isIncRemediation (name state : string) (c : Call) : bool :=
  match c with
  | IncRemediation n status => bool_decide (n = name ∧ ApplicationState status = state)
  | _ => false
  end.

(** An [IncComplianceScanStatus] call for [name] that carries an error
    message. *)
Definition isScanError (name : string) (c : Call) : bool :=
  match c with
  | IncScan n status => bool_decide (n = name ∧ ErrorMessage status ≠ "")
  | _ => false
  end.

(** The counter vectors a reporter points to. *)
Definition ownsCounter (m : Metrics) (q : nat) : Prop :=
  q = metricComplianceScanError (m_metrics m)
  ∨ q = metricComplianceScanStatus (m_metrics m)
  ∨ q = metricComplianceRemediationStatus (m_metrics m).

(** ** Package controller *)

Section Controller.

(** The collaborators' types: [manager.Manager],
    [utils.CtlplaneSchedulingInfo] and [*kubernetes.Clientset]. *)
Variables Manager CtlplaneSchedulingInfo Clientset : Type.

(** An element of [AddToManagerFuncs]: it may change the manager and the
    process state, and returns an error or nil. *)
Definition AddFunc : Type :=
  Manager → Metrics → CtlplaneSchedulingInfo → Clientset → Go (option error * Manager).

(** A line written through [setupLog], the logger named [controller] and
    then [AddToManager]; the only values in key/value pairs are
    functions. *)
Inductive SetupLogLine :=
| SetupInfo (names : list string) (msg : string) (keysAndValues : list (string * AddFunc))
| SetupError (names : list string) (err : error) (msg : string)
    (keysAndValues : list (string * AddFunc)).

(** [m.Add(met)] of the manager. *)
Variable Manager_Add : Manager → Metrics → Go (option error * Manager).

(** How the logging backend writes such a line into the process log. *)
Variable sink : SetupLogLine → list LogEntry.

Definition setupLogNames : list string := ["controller"; "AddToManager"].

Definition setupLogged (l : SetupLogLine) (w : World) : World :=
  fold_left (λ w' e, add_log e w') (sink l) w.

Definition setupLog (l : SetupLogLine) : Go unit := modify (setupLogged l).

(** The loop of [AddToManager] over the functions still to call. *)
Fixpoint AddToManager_range (fs : list AddFunc) (m : Manager) (met : Metrics)
    (si : CtlplaneSchedulingInfo) (kubeClient : Clientset)
    : Go (option error * Manager) :=
  match fs with
  | [] => ret (None, m)
  | f :: rest =>
      setupLog (SetupInfo setupLogNames "Invoking AddToManager function" [("function", f)]);;;
      let* r := f m met si kubeClient in
      match r with
      | (Some err, m') =>
          setupLog (SetupError setupLogNames err "Failed to add controller to manager"
                      [("function", f)]);;;
          ret (Some err, m')
      | (None, m') =>
          setupLog (SetupInfo setupLogNames "Controller added to manager successfully"
                      [("function", f)]);;;
          AddToManager_range rest m' met si kubeClient
      end
  end.

(** [AddToManager] adds all Controllers to the Manager;
    [AddToManagerFuncs] is the value of the package variable at the call. *)
Definition AddToManager (AddToManagerFuncs : list AddFunc) (m : Manager) (met : Metrics)
    (si : CtlplaneSchedulingInfo) (kubeClient : Clientset)
    : Go (option error * Manager) :=
  setupLog (SetupInfo setupLogNames "Adding metrics to manager" []);;;
  let* r := Manager_Add m met in
  match r with
  | (Some err, m') =>
      setupLog (SetupError setupLogNames err "Failed to add metrics to manager" []);;;
      ret (Some err, m')
  | (None, m') =>
      setupLog (SetupInfo setupLogNames "Metrics added to manager successfully" []);;;
      setupLog (SetupInfo setupLogNames "Adding controllers to manager" []);;;
      AddToManager_range AddToManagerFuncs m' met si kubeClient
  end.

(** The states around one call in the loop. *)
Definition invokeLogged (f : AddFunc) (w : World) : World :=
  setupLogged (SetupInfo setupLogNames "Invoking AddToManager function" [("function", f)]) w.

Definition addedLogged (f : AddFunc) (w : World) : World :=
  setupLogged (SetupInfo setupLogNames "Controller added to manager successfully"
                 [("function", f)]) w.

Definition addFailedLogged (f : AddFunc) (err : error) (w : World) : World :=
  setupLogged (SetupError setupLogNames err "Failed to add controller to manager"
                 [("function", f)]) w.

(** [addedAll fs m w m' w']: from manager [m] and state [w], every
    function of [fs] was called in turn on the manager the previous one
    left, every call returned nil, and the loop is at [m'], [w']. *)
Inductive addedAll (met : Metrics) (si : CtlplaneSchedulingInfo) (kubeClient : Clientset)
    : list AddFunc → Manager → World → Manager → World → Prop :=
| addedAll_nil m w : addedAll met si kubeClient [] m w m w
| addedAll_cons f rest m w m1 w1 m2 w2 :
    f m met si kubeClient (invokeLogged f w) = Ret (None, m1) w1 →
    addedAll met si kubeClient rest m1 (addedLogged f w1) m2 w2 →
    addedAll met si kubeClient (f :: rest) m w m2 w2.

End Controller.

Arguments SetupInfo {Manager CtlplaneSchedulingInfo Clientset} names msg keysAndValues.
Arguments SetupError {Manager CtlplaneSchedulingInfo Clientset} names err msg keysAndValues.
Arguments setupLogged {Manager CtlplaneSchedulingInfo Clientset} sink l w.
Arguments AddToManager_range {Manager CtlplaneSchedulingInfo Clientset} sink fs m met si
  kubeClient.
Arguments AddToManager {Manager CtlplaneSchedulingInfo Clientset} Manager_Add sink
  AddToManagerFuncs m met si kubeClient.
Arguments invokeLogged {Manager CtlplaneSchedulingInfo Clientset} sink f w.
Arguments addedLogged {Manager CtlplaneSchedulingInfo Clientset} sink f w.
Arguments addFailedLogged {Manager CtlplaneSchedulingInfo Clientset} sink f err w.
Arguments addedAll {Manager CtlplaneSchedulingInfo Clientset} sink met si kubeClient.

(** ** Package v1 of the machine-config API: deep copies *)

(** What the package takes from its collaborators: the metadata types of
    the API machinery with their deep copies (the second argument is the
    destination as it was, the result the destination as it is after the
    call), the fields of the Ignition configuration other than
    [Ignition.Version], the fields of [MachineConfigSpec] other than
    [Config], the zero values of these types, and [ign.Append]. *)
Record V1Env := mkV1Env {
  TypeMeta : Type;
  ObjectMeta : Type;
  ListMeta : Type;
  IgnitionRest : Type;
  SpecRest : Type;
  zeroTypeMeta : TypeMeta;
  zeroObjectMeta : ObjectMeta;
  zeroListMeta : ListMeta;
  zeroIgnitionRest : IgnitionRest;
  zeroSpecRest : SpecRest;
  ObjectMeta_DeepCopyInto : ObjectMeta → ObjectMeta → ObjectMeta;
  ListMeta_DeepCopyInto : ListMeta → ListMeta → ListMeta;
  ign_Append : string * IgnitionRest → string * IgnitionRest → string * IgnitionRest
}.

Section MachineConfigV1.

Variable E : V1Env.

(** [igntypes.Config]: its [Ignition.Version] and everything else. *)
Definition IgnConfig : Type := string * IgnitionRest E.
Definition Ignition_Version (c : IgnConfig) : string := c.1.

Record MachineConfigSpec := mkMachineConfigSpec {
  Config : IgnConfig;
  spec_rest : SpecRest E
}.

Record MachineConfig := mkMachineConfig {
  mc_TypeMeta : TypeMeta E;
  mc_ObjectMeta : ObjectMeta E;
  Spec : MachineConfigSpec
}.

(** A nil slice is [None]. *)
Record MachineConfigList := mkMachineConfigList {
  mcl_TypeMeta : TypeMeta E;
  mcl_ListMeta : ListMeta E;
  Items : option (list MachineConfig)
}.

(** A [runtime.Object]: the nil interface, or an interface that holds a
    pointer of one of the two types, which may itself be nil. *)
Inductive Object :=
| nilObject
| MachineConfigObject (p : option MachineConfig)
| MachineConfigListObject (p : option MachineConfigList).

Definition zeroIgnConfig : IgnConfig := ("", zeroIgnitionRest E).

Definition zeroMachineConfigSpec : MachineConfigSpec :=
  {| Config := zeroIgnConfig; spec_rest := zeroSpecRest E |}.

Definition zeroMachineConfig : MachineConfig :=
  {| mc_TypeMeta := zeroTypeMeta E; mc_ObjectMeta := zeroObjectMeta E;
     Spec := zeroMachineConfigSpec |}.

Definition zeroMachineConfigList : MachineConfigList :=
  {| mcl_TypeMeta := zeroTypeMeta E; mcl_ListMeta := zeroListMeta E; Items := None |}.

Definition deepCopyIgnConfig (in_ : IgnConfig) : IgnConfig :=
  let out := zeroIgnConfig in
  let out := (Ignition_Version in_, out.2) in
  ign_Append E out in_.

(** [DeepCopyInto] copying the receiver, writing into out. *)
Definition MachineConfigSpec_DeepCopyInto (in_ out : MachineConfigSpec)
    : MachineConfigSpec :=
  let out := in_ in
  {| Config := deepCopyIgnConfig (Config in_); spec_rest := spec_rest out |}.

(** [DeepCopy] copying the receiver, creating a new MachineConfigSpec. *)
Definition MachineConfigSpec_DeepCopy (in_ : option MachineConfigSpec)
    : option MachineConfigSpec :=
  match in_ with
  | None => None
  | Some x => Some (MachineConfigSpec_DeepCopyInto x zeroMachineConfigSpec)
  end.

(** [DeepCopyInto] copying the receiver, writing into out. *)
Definition MachineConfig_DeepCopyInto (in_ out : MachineConfig) : MachineConfig :=
  let out := in_ in
  let out := {| mc_TypeMeta := mc_TypeMeta in_; mc_ObjectMeta := mc_ObjectMeta out;
                Spec := Spec out |} in
  let out := {| mc_TypeMeta := mc_TypeMeta out;
                mc_ObjectMeta := ObjectMeta_DeepCopyInto E (mc_ObjectMeta in_)
                                   (mc_ObjectMeta out);
                Spec := Spec out |} in
  {| mc_TypeMeta := mc_TypeMeta out; mc_ObjectMeta := mc_ObjectMeta out;
     Spec := MachineConfigSpec_DeepCopyInto (Spec in_) (Spec out) |}.

(** [DeepCopy] copying the receiver, creating a new MachineConfig. *)
Definition MachineConfig_DeepCopy (in_ : option MachineConfig) : option MachineConfig :=
  match in_ with
  | None => None
  | Some x => Some (MachineConfig_DeepCopyInto x zeroMachineConfig)
  end.

(** [DeepCopyObject] copying the receiver, creating a new runtime.Object:
    the pointer [DeepCopy] returned is put into the interface as it is. *)
Definition MachineConfig_DeepCopyObject (in_ : option MachineConfig) : Object :=
  MachineConfigObject (MachineConfig_DeepCopy in_).

(** One round of the loop over the items: item [i] of in is deep-copied
    into item [i] of out. *)
Definition copyItem (items : list MachineConfig) (out : list MachineConfig) (i : nat)
    : list MachineConfig :=
  match items !! i, out !! i with
  | Some x, Some y => <[i := MachineConfig_DeepCopyInto x y]> out
  | _, _ => out
  end.

Definition MachineConfigList_DeepCopyInto (in_ out : MachineConfigList)
    : MachineConfigList :=
  let out := in_ in
  let out := {| mcl_TypeMeta := mcl_TypeMeta in_; mcl_ListMeta := mcl_ListMeta out;
                Items := Items out |} in
  let out := {| mcl_TypeMeta := mcl_TypeMeta out;
                mcl_ListMeta := ListMeta_DeepCopyInto E (mcl_ListMeta in_)
                                  (mcl_ListMeta out);
                Items := Items out |} in
  match Items in_ with
  | Some items =>
      let made := replicate (length items) zeroMachineConfig in
      {| mcl_TypeMeta := mcl_TypeMeta out; mcl_ListMeta := mcl_ListMeta out;
         Items := Some (fold_left (copyItem items) (seq 0 (length items)) made) |}
  | None => out
  end.

Definition MachineConfigList_DeepCopy (in_ : option MachineConfigList)
    : option MachineConfigList :=
  match in_ with
  | None => None
  | Some x => Some (MachineConfigList_DeepCopyInto x zeroMachineConfigList)
  end.

Definition MachineConfigList_DeepCopyObject (in_ : option MachineConfigList) : Object :=
  match MachineConfigList_DeepCopy in_ with
  | Some c => MachineConfigListObject (Some c)
  | None => nilObject
  end.

End MachineConfigV1.

Arguments Config {E} m.
Arguments spec_rest {E} m.
Arguments mc_TypeMeta {E} m.
Arguments mc_ObjectMeta {E} m.
Arguments Spec {E} m.
Arguments mcl_TypeMeta {E} m.
Arguments mcl_ListMeta {E} m.
Arguments Items {E} m.
Arguments nilObject {E}.
Arguments MachineConfigObject {E} p.
Arguments MachineConfigListObject {E} p.

(** Collaborators over trivial metadata, with lists of numbers for the
    rest of an Ignition configuration and an [Append] that keeps the old
    version and appends the rest. *)
Definition listEnv : V1Env :=
  {| TypeMeta := unit; ObjectMeta := unit; ListMeta := unit;
     IgnitionRest := list nat; SpecRest := unit;
     zeroTypeMeta := tt; zeroObjectMeta := tt; zeroListMeta := tt;
     zeroIgnitionRest := []; zeroSpecRest := tt;
     ObjectMeta_DeepCopyInto := λ x _, x;
     ListMeta_DeepCopyInto := λ x _, x;
     ign_Append := λ old new, (old.1, (old.2 ++ new.2)%list) |}.

(** A process with two reporters in which the adapter has registered the
    scan-status vector of the second one. *)
Definition takenWorld : World :=
  outcome_world
    (impl_Register defaultImpl
       (CounterVecPtr (metricComplianceScanStatus (m_metrics secondMetrics)))
       twoReporters).

(** * Properties *)

(** ** The monad and the stores *)

Lemma bind_Ret {A B} (c : Go A) (k : A → Go B) w a w' :
  c w = Ret a w' → bind c k w = k a w'.
Proof. intros H. unfold bind. by rewrite H. Qed.

Lemma getOrCreate_alter_succ (key : list string) (ch : gmap (list string) N) :
  alter N.succ key (getOrCreate 0%N key ch)
  = <[key := N.succ (default 0%N (ch !! key))]> ch.
Proof.
  unfold getOrCreate. destruct (ch !! key) as [n|] eqn:E; simpl.
  - apply map_eq. intros k. destruct (decide (key = k)) as [->|Hne].
    + by rewrite lookup_alter_eq, lookup_insert_eq, E.
    + by rewrite lookup_alter_ne, lookup_insert_ne.
  - by rewrite alter_insert_eq.
Qed.

Lemma getOrCreate_alter_set (key : list string) (val : Z) (ch : gmap (list string) Z) :
  alter (λ _, val) key (getOrCreate 0%Z key ch) = <[key := val]> ch.
Proof.
  unfold getOrCreate. destruct (ch !! key) as [n|] eqn:E; simpl.
  - apply map_eq. intros k. destruct (decide (key = k)) as [->|Hne].
    + by rewrite lookup_alter_eq, lookup_insert_eq, E.
    + by rewrite lookup_alter_ne, lookup_insert_ne.
  - by rewrite alter_insert_eq.
Qed.

Lemma list_alter_insert_same {A} (f g : A → A) (l : list A) p x :
  l !! p = Some x → g x = f (x) → alter g p l = <[p := f x]> l.
Proof.
  intros Hp Hg. apply list_eq. intros i.
  rewrite list_lookup_alter. destruct (decide (p = i)) as [->|Hne].
  - rewrite Hp. simpl. rewrite list_lookup_insert_eq; [by rewrite Hg|].
    by eapply lookup_lt_Some.
  - by rewrite list_lookup_insert_ne.
Qed.

Lemma list_alter_after_insert {A} (f : A → A) (l : list A) p x y :
  l !! p = Some y → alter f p (<[p := x]> l) = <[p := f x]> l.
Proof.
  intros Hp. apply list_eq. intros i.
  rewrite list_lookup_alter. destruct (decide (p = i)) as [->|Hne].
  - rewrite !list_lookup_insert_eq; [done| |]; by eapply lookup_lt_Some.
  - by rewrite !list_lookup_insert_ne.
Qed.

(** [With(...).Inc()] bumps one child of one vector. *)
Lemma With_Inc (p : nat) (labels : Labels) (key : list string) (v : CounterVec) (w : World) :
  counterVecs w !! p = Some v →
  valuesOfLabels (cv_desc v) labels = Some key →
  bind (CounterVec_With p labels) Counter_Inc w
  = Ret tt (set_counterVecs (alter (incChild key) p) w).
Proof.
  intros Hp Hk. unfold bind, CounterVec_With. rewrite Hp, Hk.
  unfold Counter_Inc, modify, set_counterVecs. simpl. do 2 f_equal.
  erewrite list_alter_after_insert by done. simpl.
  rewrite getOrCreate_alter_succ.
  symmetry. by apply (list_alter_insert_same (incChild key)).
Qed.

Lemma With_Inc_bump (p : nat) (labels : Labels) (key : list string) (d : Desc) (w : World) :
  cv_desc <$> counterVecs w !! p = Some d →
  valuesOfLabels d labels = Some key →
  bind (CounterVec_With p labels) Counter_Inc w = Ret tt (bump p key w).
Proof.
  intros Hp Hk. destruct (counterVecs w !! p) as [v|] eqn:E; [|done].
  simpl in Hp. injection Hp as <-. by eapply With_Inc.
Qed.

(** [WithLabelValues(...).Set(val)] overwrites one child of one vector. *)
Lemma WithLabelValues_Set (p : nat) (lvs : list string) (val : Z) (v : GaugeVec) (w : World) :
  gaugeVecs w !! p = Some v →
  length lvs = length (variableLabels (gv_desc v)) →
  bind (GaugeVec_WithLabelValues p lvs) (λ g, Gauge_Set g val) w
  = Ret tt (set_gaugeVecs (alter (setChild lvs val) p) w).
Proof.
  intros Hp Hk. unfold bind, GaugeVec_WithLabelValues, checkLabelValues.
  rewrite Hp. rewrite decide_True by done.
  unfold Gauge_Set, modify, set_gaugeVecs. simpl. do 2 f_equal.
  erewrite list_alter_after_insert by done. simpl.
  rewrite getOrCreate_alter_set.
  symmetry. by apply (list_alter_insert_same (setChild lvs val)).
Qed.

Lemma WithLabelValues_Set_setGauge (p : nat) (lvs : list string) (val : Z) (d : Desc)
    (w : World) :
  gv_desc <$> gaugeVecs w !! p = Some d →
  length lvs = length (variableLabels d) →
  bind (GaugeVec_WithLabelValues p lvs) (λ g, Gauge_Set g val) w
  = Ret tt (setGauge p lvs val w).
Proof.
  intros Hp Hk. destruct (gaugeVecs w !! p) as [v|] eqn:E; [|done].
  simpl in Hp. injection Hp as <-. by eapply WithLabelValues_Set.
Qed.

(** ** Reading the stores after an update *)

Lemma counterValue_bump (p : nat) (key : list string) (w : World) (q : nat)
    (k : list string) :
  is_Some (counterVecs w !! p) →
  counterValue (bump p key w) q k
  = if decide (p = q ∧ key = k) then N.succ (counterValue w q k) else counterValue w q k.
Proof.
  intros [v Hv]. unfold counterValue, bump, set_counterVecs. simpl.
  rewrite list_lookup_alter. destruct (decide (p = q)) as [->|Hpq].
  - rewrite Hv. simpl. destruct (decide (key = k)) as [->|Hk].
    + rewrite decide_True by done. by rewrite lookup_insert_eq.
    + rewrite decide_False by (intros [? ?]; done). by rewrite lookup_insert_ne.
  - by rewrite decide_False by (intros [? ?]; done).
Qed.

Lemma counterValue_bump_le (p : nat) (key : list string) (w : World) (q : nat)
    (k : list string) :
  (counterValue w q k ≤ counterValue (bump p key w) q k)%N.
Proof.
  destruct (counterVecs w !! p) as [v|] eqn:Hv.
  - rewrite counterValue_bump by eauto. case_decide; lia.
  - unfold counterValue, bump, set_counterVecs. simpl.
    rewrite list_lookup_alter. case_decide; [subst; by rewrite Hv | done].
Qed.

Lemma gaugeValue_bump (p : nat) (key : list string) (w : World) (q : nat)
    (k : list string) :
  gaugeValue (bump p key w) q k = gaugeValue w q k.
Proof. done. Qed.

Lemma counterValue_setGauge (p : nat) (key : list string) (val : Z) (w : World)
    (q : nat) (k : list string) :
  counterValue (setGauge p key val w) q k = counterValue w q k.
Proof. done. Qed.

Lemma gaugeValue_setGauge (p : nat) (key : list string) (val : Z) (w : World)
    (q : nat) (k : list string) :
  is_Some (gaugeVecs w !! p) →
  gaugeValue (setGauge p key val w) q k
  = if decide (p = q ∧ key = k) then Some val else gaugeValue w q k.
Proof.
  intros [v Hv]. unfold gaugeValue, setGauge, set_gaugeVecs. simpl.
  rewrite list_lookup_alter. destruct (decide (p = q)) as [->|Hpq].
  - rewrite Hv. simpl. destruct (decide (key = k)) as [->|Hk].
    + rewrite decide_True by done. by rewrite lookup_insert_eq.
    + rewrite decide_False by (intros [? ?]; done). by rewrite lookup_insert_ne.
  - by rewrite decide_False by (intros [? ?]; done).
Qed.

Lemma desc_bump (p : nat) (key : list string) (w : World) (q : nat) :
  cv_desc <$> counterVecs (bump p key w) !! q = cv_desc <$> counterVecs w !! q.
Proof.
  unfold bump, set_counterVecs. simpl. rewrite list_lookup_alter.
  case_decide; [subst|done]. by destruct (counterVecs w !! q).
Qed.

Lemma desc_setGauge (p : nat) (key : list string) (val : Z) (w : World) (q : nat) :
  gv_desc <$> gaugeVecs (setGauge p key val w) !! q = gv_desc <$> gaugeVecs w !! q.
Proof.
  unfold setGauge, set_gaugeVecs. simpl. rewrite list_lookup_alter.
  case_decide; [subst|done]. by destruct (gaugeVecs w !! q).
Qed.

Lemma valid_bump (m : Metrics) (p : nat) (key : list string) (w : World) :
  valid m w → valid m (bump p key w).
Proof.
  intros [H1 H2 H3 H4]. split; rewrite ?desc_bump; done.
Qed.

Lemma valid_setGauge (m : Metrics) (p : nat) (key : list string) (val : Z) (w : World) :
  valid m w → valid m (setGauge p key val w).
Proof.
  intros [H1 H2 H3 H4]. split; rewrite ?desc_setGauge; done.
Qed.

Lemma valid_is_Some_counter (d : Desc) (w : World) (p : nat) :
  cv_desc <$> counterVecs w !! p = Some d → is_Some (counterVecs w !! p).
Proof. destruct (counterVecs w !! p); [eauto | done]. Qed.

Lemma valid_is_Some_gauge (d : Desc) (w : World) (p : nat) :
  gv_desc <$> gaugeVecs w !! p = Some d → is_Some (gaugeVecs w !! p).
Proof. destruct (gaugeVecs w !! p); [eauto | done]. Qed.

(** The three counters of a valid reporter are three different vectors:
    their descriptors differ. *)
Lemma valid_distinct (m : Metrics) (w : World) :
  valid m w →
  metricComplianceScanStatus (m_metrics m) ≠ metricComplianceScanError (m_metrics m)
  ∧ metricComplianceRemediationStatus (m_metrics m) ≠ metricComplianceScanError (m_metrics m)
  ∧ metricComplianceRemediationStatus (m_metrics m) ≠ metricComplianceScanStatus (m_metrics m).
Proof.
  intros [H1 H2 H3 H4].
  repeat split; intros E; rewrite E in *;
    match goal with
    | Ha : ?x = Some ?d1, Hb : ?x = Some ?d2 |- _ =>
        rewrite Ha in Hb; vm_compute in Hb; discriminate Hb
    end.
Qed.

(** ** Each mutation runs to completion on a valid reporter *)

Lemma call_effect (m : Metrics) (c : Call) (w : World) :
  valid m w → call m c w = Ret tt (effect m c w).
Proof.
  intros Hv. pose proof Hv as [H1 H2 H3 H4]. destruct c as [name st|name st|s name]; simpl.
  - unfold IncComplianceScanStatus.
    change (bind ?c (λ x, bind (Counter_Inc x) ?k))
      with (bind c (λ x, bind (Counter_Inc x) k)).
    unfold bind at 1.
    pose proof (With_Inc_bump _
      (<[metricLabelScanName := name]>
        (<[metricLabelScanPhase := Phase st]>
          (<[metricLabelScanResult := Result st]> ∅)))
      [name; Phase st; Result st] _ w H2 eq_refl) as Hb.
    unfold bind in Hb.
    destruct (CounterVec_With _ _ w) as [c1 w1|]; [|done].
    unfold bind at 1. rewrite Hb.
    case_decide; [|done].
    eapply With_Inc_bump; [by rewrite desc_bump | reflexivity].
  - unfold IncComplianceRemediationStatus.
    eapply With_Inc_bump; [done | reflexivity].
  - destruct s; simpl;
      (eapply WithLabelValues_Set_setGauge; [done | reflexivity]).
Qed.

Lemma valid_effect (m : Metrics) (c : Call) (w : World) :
  valid m w → valid m (effect m c w).
Proof.
  intros Hv. destruct c; simpl; [case_decide|..];
    eauto using valid_bump, valid_setGauge.
Qed.

Lemma calls_cons (m : Metrics) (c : Call) (cs : list Call) (w : World) :
  valid m w → calls m (c :: cs) w = calls m cs (effect m c w).
Proof. intros Hv. simpl. by erewrite bind_Ret by by apply call_effect. Qed.

(** ** Construction *)

Lemma New_returns (w0 : World) :
  ∃ w, New w0 = Ret (newMetricsAt w0) w
       ∧ counterVecs w
         = (counterVecs w0 ++
            [NewCounterVec scanErrorOpts scanErrorLabels;
             NewCounterVec scanStatusOpts scanStatusLabels;
             NewCounterVec remediationStatusOpts remediationStatusLabels])%list
       ∧ gaugeVecs w = (gaugeVecs w0 ++ [NewGaugeVec stateGaugeOpts stateGaugeLabels])%list
       ∧ DefaultRegisterer w = DefaultRegisterer w0
       ∧ DefaultServeMux w = DefaultServeMux w0.
Proof.
  eexists. split.
  - unfold New, NewMetrics, DefaultControllerMetrics, bind, ret, logInfo, modify,
      allocCounterVec, allocGaugeVec, newMetricsAt. simpl.
    rewrite !length_app. simpl. rewrite !Nat.add_1_r. reflexivity.
  - simpl. rewrite <- !app_assoc. simpl. done.
Qed.

Lemma New_valid (w0 : World) (m : Metrics) (w : World) :
  New w0 = Ret m w →
  valid m w
  ∧ m_impl m = defaultImpl
  ∧ (∀ q k, q < length (counterVecs w0) → counterValue w q k = counterValue w0 q k)
  ∧ (∀ k, counterValue w (metricComplianceScanError (m_metrics m)) k = 0%N)
  ∧ (∀ k, counterValue w (metricComplianceScanStatus (m_metrics m)) k = 0%N)
  ∧ (∀ k, counterValue w (metricComplianceRemediationStatus (m_metrics m)) k = 0%N)
  ∧ (∀ k, gaugeValue w (metricComplianceStateGauge (m_metrics m)) k = None).
Proof.
  intros HN. destruct (New_returns w0) as (w1 & HN1 & Hc & Hg & _ & _).
  rewrite HN1 in HN. injection HN as <- <-.
  assert (E0 : counterVecs w1 !! length (counterVecs w0)
               = Some (NewCounterVec scanErrorOpts scanErrorLabels)).
  { rewrite Hc. by rewrite lookup_app_r, Nat.sub_diag. }
  assert (E1 : counterVecs w1 !! S (length (counterVecs w0))
               = Some (NewCounterVec scanStatusOpts scanStatusLabels)).
  { rewrite Hc. rewrite lookup_app_r by lia.
    by replace (S (length (counterVecs w0)) - length (counterVecs w0)) with 1 by lia. }
  assert (E2 : counterVecs w1 !! S (S (length (counterVecs w0)))
               = Some (NewCounterVec remediationStatusOpts remediationStatusLabels)).
  { rewrite Hc. rewrite lookup_app_r by lia.
    by replace (S (S (length (counterVecs w0))) - length (counterVecs w0)) with 2 by lia. }
  assert (E3 : gaugeVecs w1 !! length (gaugeVecs w0)
               = Some (NewGaugeVec stateGaugeOpts stateGaugeLabels)).
  { rewrite Hg. by rewrite lookup_app_r, Nat.sub_diag. }
  repeat split; simpl.
  - by rewrite E0.
  - by rewrite E1.
  - by rewrite E2.
  - by rewrite E3.
  - intros q k Hq. unfold counterValue. rewrite Hc. by rewrite lookup_app_l.
  - intros k. unfold counterValue. by rewrite E0.
  - intros k. unfold counterValue. by rewrite E1.
  - intros k. unfold counterValue. by rewrite E2.
  - intros k. unfold gaugeValue. by rewrite E3.
Qed.

(** ** Sequences of calls *)

Lemma effect_scanStatus (m : Metrics) (c : Call) (w : World) (n p r : string) :
  valid m w →
  scanStatusCounter m (effect m c w) n p r
  = (scanStatusCounter m w n p r + N.of_nat (if isIncScan n p r c then 1 else 0))%N.
Proof.
  intros Hv. pose proof Hv as [H1 H2 H3 H4].
  destruct (valid_distinct m w Hv) as (D1 & D2 & D3).
  unfold scanStatusCounter. destruct c as [name st|name st|s name]; simpl.
  - assert (E : counterValue
                  (bump (metricComplianceScanStatus (m_metrics m))
                     [name; Phase st; Result st] w)
                  (metricComplianceScanStatus (m_metrics m)) [n; p; r]
                = (counterValue w (metricComplianceScanStatus (m_metrics m)) [n; p; r]
                   + N.of_nat (if bool_decide (name = n ∧ Phase st = p ∧ Result st = r)
                               then 1 else 0))%N).
    { rewrite counterValue_bump by by eapply valid_is_Some_counter.
      case_decide as Hd; case_bool_decide as Hb; simpl; try lia.
      - destruct Hd as [_ Hd]. injection Hd as ? ? ?. by destruct Hb.
      - destruct Hb as (? & ? & ?). subst. by destruct Hd. }
    destruct (decide (0 < String.length (ErrorMessage st))); [|exact E].
    rewrite counterValue_bump.
    + rewrite decide_False; [exact E|]. intros [? ?]. done.
    + unfold bump, set_counterVecs; simpl. rewrite list_lookup_alter_ne by done.
      by eapply valid_is_Some_counter.
  - rewrite counterValue_bump by by eapply valid_is_Some_counter.
    rewrite decide_False; [simpl; lia|]. intros [? ?]. done.
  - rewrite counterValue_setGauge. simpl. lia.
Qed.

Lemma effect_gauge (m : Metrics) (c : Call) (w : World) (name : string) :
  valid m w →
  complianceStateGauge m (effect m c w) name
  = match c with
    | SetState s n => if decide (n = name) then Some (ordinal s)
                      else complianceStateGauge m w name
    | _ => complianceStateGauge m w name
    end.
Proof.
  intros Hv. pose proof Hv as [H1 H2 H3 H4].
  unfold complianceStateGauge. destruct c as [n st|n st|s n]; simpl.
  - by case_decide.
  - done.
  - rewrite gaugeValue_setGauge by by eapply valid_is_Some_gauge.
    destruct (decide (n = name)) as [->|Hn].
    + by rewrite decide_True.
    + rewrite decide_False; [done|]. intros [_ E]. by injection E.
Qed.

Lemma effect_counter_le (m : Metrics) (c : Call) (w : World) (q : nat) (k : list string) :
  (counterValue w q k ≤ counterValue (effect m c w) q k)%N.
Proof.
  destruct c as [n st|n st|s n]; simpl.
  - case_decide.
    + etrans; [|apply counterValue_bump_le]. apply counterValue_bump_le.
    + apply counterValue_bump_le.
  - apply counterValue_bump_le.
  - by rewrite counterValue_setGauge.
Qed.

(** Any sequence of calls on a valid reporter runs to completion; the
    scan-status counters count the matching calls, the gauge follows the
    last setter, and no counter of the process decreases. *)
Lemma calls_spec (m : Metrics) (cs : list Call) :
  ∀ w, valid m w →
  ∃ w', calls m cs w = Ret tt w'
        ∧ valid m w'
        ∧ (∀ n p r, scanStatusCounter m w' n p r
                    = (scanStatusCounter m w n p r + N.of_nat (countIncScan n p r cs))%N)
        ∧ (∀ name, complianceStateGauge m w' name
                   = match lastSetter name cs with
                     | Some s => Some (ordinal s)
                     | None => complianceStateGauge m w name
                     end)
        ∧ (∀ q k, (counterValue w q k ≤ counterValue w' q k)%N).
Proof.
  induction cs as [|c cs IH]; intros w Hv.
  - exists w. simpl. split_and!; try done.
    all: intros; simpl; lia.
  - destruct (IH (effect m c w) (valid_effect m c w Hv)) as (w' & Hr & Hv' & Hc & Hg & Hm).
    exists w'. rewrite calls_cons by done. split_and!; try done.
    + intros n p r. rewrite Hc, effect_scanStatus by done. simpl.
      destruct (isIncScan n p r c); lia.
    + intros name. rewrite Hg, effect_gauge by done. simpl.
      destruct (lastSetter name cs); [done|].
      destruct c as [| |s n]; try done. by case_decide.
    + intros q k. etrans; [apply (effect_counter_le m c)|]. apply Hm.
Qed.

Lemma calls_app (m : Metrics) (cs1 cs2 : list Call) (w : World) :
  calls m (cs1 ++ cs2) w = bind (calls m cs1) (λ _, calls m cs2) w.
Proof.
  revert w. induction cs1 as [|c cs1 IH]; intros w; simpl; [reflexivity|].
  unfold bind. destruct (call m c w); [|reflexivity]. apply IH.
Qed.

Lemma length_pos_nonempty (s : string) : 0 < String.length s ↔ s ≠ "".
Proof. destruct s; simpl; split; try done; lia. Qed.

(** ** Claims about the counters and the gauge *)

(** C2: on a reporter whose pointers lead to the vectors its constructor
    made (every reporter from [New], see [New_valid] and [valid_effect]),
    one call of [IncComplianceScanStatus] returns normally, adds
    exactly 1 to the scan-status counter of (name, phase, result), and
    adds exactly 1 to the scan-error counter of (name) if and only if the
    error message is non-empty; that counter is unchanged if and only if
    the message is empty.  Every other scan-status tuple and scan-error
    name keeps its value. *)
Theorem IncComplianceScanStatus_increments (m : Metrics) (w : World) (name : string)
    (status : ComplianceScanStatus) :
  valid m w →
  ∃ w', IncComplianceScanStatus m name status w = Ret tt w'
    ∧ scanStatusCounter m w' name (Phase status) (Result status)
      = (scanStatusCounter m w name (Phase status) (Result status) + 1)%N
    ∧ (scanErrorCounter m w' name = (scanErrorCounter m w name + 1)%N
       ↔ ErrorMessage status ≠ "")
    ∧ (scanErrorCounter m w' name = scanErrorCounter m w name
       ↔ ErrorMessage status = "")
    ∧ (∀ n p r, (n, p, r) ≠ (name, Phase status, Result status) →
         scanStatusCounter m w' n p r = scanStatusCounter m w n p r)
    ∧ (∀ n, n ≠ name → scanErrorCounter m w' n = scanErrorCounter m w n).
Proof.
  intros Hv. exists (effect m (IncScan name status) w).
  split; [exact (call_effect m (IncScan name status) w Hv)|].
  pose proof Hv as [H1 H2 H3 H4].
  destruct (valid_distinct m w Hv) as (D1 & D2 & D3).
  assert (HS : ∀ n p r,
    scanStatusCounter m (effect m (IncScan name status) w) n p r
    = (scanStatusCounter m w n p r
       + N.of_nat (if isIncScan n p r (IncScan name status) then 1 else 0))%N)
    by (intros; by apply effect_scanStatus).
  assert (HE : ∀ n,
    scanErrorCounter m (effect m (IncScan name status) w) n
    = (scanErrorCounter m w n
       + (if decide (name = n ∧ ErrorMessage status ≠ "") then 1 else 0))%N).
  { intros n. unfold scanErrorCounter. simpl.
    destruct (decide (0 < String.length (ErrorMessage status))) as [Hl|Hl].
    - rewrite counterValue_bump.
      2:{ unfold bump, set_counterVecs; simpl. rewrite list_lookup_alter_ne by done.
          by eapply valid_is_Some_counter. }
      rewrite counterValue_bump by by eapply valid_is_Some_counter.
      rewrite (decide_False (P := _ ∧ [name; _; _] = [n])) by (intros [? ?]; done).
      apply length_pos_nonempty in Hl.
      destruct (decide (name = n)) as [->|Hn].
      + rewrite !decide_True by done. lia.
      + rewrite (decide_False (P := name = n ∧ _)) by (intros [? ?]; done).
        rewrite decide_False; [lia|]. intros [_ E]. by injection E.
    - rewrite counterValue_bump by by eapply valid_is_Some_counter.
      rewrite decide_False by (intros [? ?]; done).
      rewrite decide_False; [lia|]. intros [_ E]. by apply length_pos_nonempty in E. }
  split_and!.
  - rewrite HS. simpl. rewrite bool_decide_eq_true_2 by done. simpl. lia.
  - rewrite HE. destruct (decide (ErrorMessage status = "")) as [E|E].
    + rewrite decide_False by (intros [? ?]; done). split; [lia | done].
    + rewrite decide_True by done. split; [done | lia].
  - rewrite HE. destruct (decide (ErrorMessage status = "")) as [E|E].
    + rewrite decide_False by (intros [? ?]; done). split; [done | lia].
    + rewrite decide_True by done. split; [lia | done].
  - intros n p r Hne. rewrite HS. simpl.
    rewrite bool_decide_eq_false_2; [simpl; lia|].
    intros (? & ? & ?). subst. done.
  - intros n Hne. rewrite HE. rewrite decide_False; [lia|]. intros [? ?]. done.
Qed.

Lemma IncComplianceScanStatus_increments_witness :
  valid freshMetrics freshWorld
  ∧ ∃ w', IncComplianceScanStatus freshMetrics "scan-a"
            (mkScanStatus "DONE" "ERROR" "timed out") freshWorld = Ret tt w'
          ∧ scanStatusCounter freshMetrics w' "scan-a" "DONE" "ERROR" = 1%N
          ∧ scanErrorCounter freshMetrics w' "scan-a" = 1%N.
Proof.
  assert (Hv : valid freshMetrics freshWorld) by (split; reflexivity).
  split; [exact Hv|].
  destruct (IncComplianceScanStatus_increments freshMetrics freshWorld "scan-a"
              (mkScanStatus "DONE" "ERROR" "timed out") Hv)
    as (w' & Hr & Hs & He & _).
  exists w'. split; [exact Hr|]. split; [exact Hs|].
  apply He. discriminate.
Defined.

Lemma setComplianceState_twice (m : Metrics) (w : World) (s : Setter) (name : string) :
  valid m w →
  bind (setComplianceState s m name) (λ _, setComplianceState s m name) w
  = setComplianceState s m name w.
Proof.
  intros Hv.
  pose proof (call_effect m (SetState s name) w Hv) as H1. simpl in H1.
  pose proof (call_effect m (SetState s name) _ (valid_effect m (SetState s name) w Hv))
    as H2. simpl in H2.
  erewrite bind_Ret by exact H1. rewrite H1, H2. f_equal.
  unfold setGauge, set_gaugeVecs. simpl. f_equal.
  apply list_eq. intros i.
  destruct (decide (metricComplianceStateGauge (m_metrics m) = i)) as [<-|Hne].
  - rewrite !list_lookup_alter_eq.
    destruct (gaugeVecs w !! _) as [v|]; [|done].
    simpl. f_equal. unfold setChild. simpl. f_equal. apply insert_insert_eq.
  - by rewrite !list_lookup_alter_ne.
Qed.

Lemma lastSetter_snoc (name : string) (cs : list Call) (s : Setter) :
  lastSetter name (cs ++ [SetState s name]) = Some s.
Proof.
  induction cs as [|c cs IH]; simpl.
  - by rewrite decide_True.
  - by rewrite IH.
Qed.

(** C4: on a reporter made by [New], after any finite sequence of calls
    the compliance-state gauge of a suite reads the ordinal of the setter
    called last for that suite (in-compliance 0, out-of-compliance 1,
    inconsistent 2, error 3), whatever was called before and however
    often; a value it shows is one of these four; and calling a setter
    twice in a row leaves the state the first call left. *)
Theorem complianceState_last_setter_wins (w0 : World) (m : Metrics) (w : World)
    (cs : list Call) (name : string) :
  New w0 = Ret m w →
  ∃ w', calls m cs w = Ret tt w'
    ∧ complianceStateGauge m w' name = ordinal <$> lastSetter name cs
    ∧ (∀ v, complianceStateGauge m w' name = Some v → v = 0 ∨ v = 1 ∨ v = 2 ∨ v = 3)%Z
    ∧ (∃ w1, SetComplianceStateInCompliance m name w' = Ret tt w1
             ∧ complianceStateGauge m w1 name = Some 0%Z)
    ∧ (∃ w1, SetComplianceStateOutOfCompliance m name w' = Ret tt w1
             ∧ complianceStateGauge m w1 name = Some 1%Z)
    ∧ (∃ w1, SetComplianceStateInconsistent m name w' = Ret tt w1
             ∧ complianceStateGauge m w1 name = Some 2%Z)
    ∧ (∃ w1, SetComplianceStateError m name w' = Ret tt w1
             ∧ complianceStateGauge m w1 name = Some 3%Z)
    ∧ (∀ s, bind (setComplianceState s m name) (λ _, setComplianceState s m name) w'
            = setComplianceState s m name w').
Proof.
  intros HN. destruct (New_valid w0 m w HN) as (Hv & _ & _ & _ & _ & _ & Hg0).
  destruct (calls_spec m cs w Hv) as (w' & Hr & Hv' & _ & Hg & _).
  exists w'. split; [exact Hr|].
  assert (HG : complianceStateGauge m w' name = ordinal <$> lastSetter name cs).
  { rewrite Hg. unfold complianceStateGauge at 1. rewrite Hg0.
    by destruct (lastSetter name cs). }
  assert (HS : ∀ s, ∃ w1, setComplianceState s m name w' = Ret tt w1
                          ∧ complianceStateGauge m w1 name = Some (ordinal s)).
  { intros s. exists (effect m (SetState s name) w'). split.
    - exact (call_effect m (SetState s name) w' Hv').
    - rewrite effect_gauge by done. by rewrite decide_True. }
  split_and!.
  - exact HG.
  - intros v. rewrite HG. destruct (lastSetter name cs) as [[]|]; simpl; intros E;
      [injection E as <-; lia ..| done].
  - apply (HS StateInCompliance).
  - apply (HS StateOutOfCompliance).
  - apply (HS StateInconsistent).
  - apply (HS StateError).
  - intros s. by apply setComplianceState_twice.
Qed.

Lemma complianceState_last_setter_wins_witness :
  New emptyWorld = Ret freshMetrics freshWorld
  ∧ ∃ w', calls freshMetrics
            [SetState StateError "suite-a"; SetState StateInCompliance "suite-b";
             SetState StateError "suite-a"; SetState StateOutOfCompliance "suite-a";
             IncScan "scan-a" (mkScanStatus "DONE" "COMPLIANT" "")]
            freshWorld = Ret tt w'
          ∧ complianceStateGauge freshMetrics w' "suite-a" = Some 1%Z.
Proof.
  split; [reflexivity|].
  destruct (complianceState_last_setter_wins emptyWorld freshMetrics freshWorld
              [SetState StateError "suite-a"; SetState StateInCompliance "suite-b";
               SetState StateError "suite-a"; SetState StateOutOfCompliance "suite-a";
               IncScan "scan-a" (mkScanStatus "DONE" "COMPLIANT" "")]
              "suite-a" eq_refl)
    as (w' & Hr & Hg & _).
  exists w'. split; [exact Hr | exact Hg].
Defined.

(** ** Serving *)

Section ServingFacts.

Variable DefaultTLSVersion : Z.
Variable DefaultCiphers : list Z.
Variable m : Metrics.

Lemma Start_listen_free (ctx : Context) (w : World) :
  DefaultServeMux w !! HandlerPath = None →
  ∃ call,
    Start_listen DefaultTLSVersion DefaultCiphers m ctx w
    = Ret call (set_DefaultServeMux <[HandlerPath := promhttpHandler]> (startLogged m w))
    ∧ Addr (sc_server call) = ":8585"
    ∧ MinVersion (TLSConfig (sc_server call)) = VersionTLS12
    ∧ NextProtos (TLSConfig (sc_server call)) = ["http/1.1"]
    ∧ sc_certFile call = "/var/run/secrets/serving-cert/tls.crt"
    ∧ sc_keyFile call = "/var/run/secrets/serving-cert/tls.key".
Proof.
  intros Hfree. eexists. split.
  - unfold Start_listen, bind, logInfo, modify, http_Handle, ret. simpl.
    unfold HandlerPath in *. rewrite Hfree. reflexivity.
  - simpl. done.
Qed.

Lemma Start_listen_bound (ctx : Context) (w : World) (h : Handler) :
  DefaultServeMux w !! HandlerPath = Some h →
  Start_listen DefaultTLSVersion DefaultCiphers m ctx w
  = Panic "http: multiple registrations for /metrics-co" (startLogged m w).
Proof.
  intros Hb.
  unfold Start_listen, bind, logInfo, modify, http_Handle, ret. simpl.
  unfold HandlerPath in *. by rewrite Hb.
Qed.

Lemma Start_step_cancel (ctx : Context) (st : StartState) (c : Context) :
  Start_step m ctx st (ContextCancelled c) = st.
Proof. by destruct st. Qed.

Lemma fold_Start_step_dropCancels (ctx ctx' : Context) (evs : list Event)
    (st : StartState) :
  fold_left (Start_step m ctx) evs st
  = fold_left (Start_step m ctx') (dropCancels evs) st.
Proof.
  revert st. induction evs as [|[c|err] evs IH]; intros st; simpl.
  - done.
  - rewrite Start_step_cancel. apply IH.
  - apply IH.
Qed.

Lemma fold_Start_step_Finished (ctx : Context) (evs : list Event)
    (o : outcome (option error)) :
  fold_left (Start_step m ctx) evs (Finished o) = Finished o.
Proof. induction evs as [|ev evs IH]; [done|]. simpl. apply IH. Qed.

Lemma dropCancels_cancelled (cs : list Context) (evs : list Event) :
  dropCancels ((ContextCancelled <$> cs) ++ evs) = dropCancels evs.
Proof. induction cs as [|c cs IH]; [done|]. simpl. apply IH. Qed.

Lemma Start_served_eq (err : option error) (w : World) :
  Start_served m err w
  = Ret None (match err with
              | Some e => add_log (LogError (m_log m) e (Lit "Metrics service failed")) w
              | None => w
              end).
Proof. by destruct err. Qed.

Lemma Start_step_frame (ctx : Context) (st : StartState) (ev : Event) :
  Start_frame (state_world st) (state_world (Start_step m ctx st ev)).
Proof.
  destruct st as [call w|o]; destruct ev as [c|err]; simpl; try done.
  rewrite Start_served_eq. simpl. by destruct err.
Qed.

Lemma Start_frame_trans (w1 w2 w3 : World) :
  Start_frame w1 w2 → Start_frame w2 w3 → Start_frame w1 w3.
Proof.
  intros (A1 & A2 & A3 & A4) (B1 & B2 & B3 & B4).
  split_and!; [congruence..|auto].
Qed.

Lemma fold_Start_step_frame (ctx : Context) (evs : list Event) (st : StartState) :
  Start_frame (state_world st) (state_world (fold_left (Start_step m ctx) evs st)).
Proof.
  revert st. induction evs as [|ev evs IH]; intros st; simpl; [done|].
  eapply Start_frame_trans; [apply (Start_step_frame ctx st ev) | apply IH].
Qed.

Lemma Start_begin_binds (ctx : Context) (w : World) :
  counterVecs (state_world (Start_begin DefaultTLSVersion DefaultCiphers m ctx w))
  = counterVecs w
  ∧ gaugeVecs (state_world (Start_begin DefaultTLSVersion DefaultCiphers m ctx w))
    = gaugeVecs w
  ∧ DefaultRegisterer (state_world (Start_begin DefaultTLSVersion DefaultCiphers m ctx w))
    = DefaultRegisterer w
  ∧ is_Some (DefaultServeMux
               (state_world (Start_begin DefaultTLSVersion DefaultCiphers m ctx w))
             !! HandlerPath).
Proof.
  unfold Start_begin.
  destruct (DefaultServeMux w !! HandlerPath) as [h|] eqn:E.
  - rewrite (Start_listen_bound ctx w h E). simpl. rewrite E. eauto.
  - destruct (Start_listen_free ctx w E) as (call & -> & _). simpl.
    rewrite lookup_insert_eq. eauto.
Qed.

(** After a call of [Start], however far it got, the pattern is bound on
    the default mux; [Start] itself touches neither the vectors nor the
    registry. *)
Lemma Start_binds (ctx : Context) (evs : list Event) (w : World) :
  counterVecs (state_world (Start DefaultTLSVersion DefaultCiphers m ctx evs w))
  = counterVecs w
  ∧ gaugeVecs (state_world (Start DefaultTLSVersion DefaultCiphers m ctx evs w))
    = gaugeVecs w
  ∧ DefaultRegisterer (state_world (Start DefaultTLSVersion DefaultCiphers m ctx evs w))
    = DefaultRegisterer w
  ∧ is_Some (DefaultServeMux
               (state_world (Start DefaultTLSVersion DefaultCiphers m ctx evs w))
             !! HandlerPath).
Proof.
  unfold Start.
  destruct (Start_begin_binds ctx w) as (B1 & B2 & B3 & B4).
  destruct (fold_Start_step_frame ctx evs
              (Start_begin DefaultTLSVersion DefaultCiphers m ctx w))
    as (F1 & F2 & F3 & F4).
  split_and!; [congruence..|auto].
Qed.

End ServingFacts.

(** C7: a call of [Start] that gets to serve has bound the scrape handler
    at [/metrics-co] and is blocked in [ListenAndServeTLS] on a server with
    address [:8585] whose TLS configuration has minimum version TLS 1.2
    and [http/1.1] as its only application protocol, with the certificate
    and key paths under [/var/run/secrets/serving-cert]; and it gets to
    serve whenever the pattern was free. *)
Theorem Start_serves_fixed_endpoint (DefaultTLSVersion : Z) (DefaultCiphers : list Z)
    (m : Metrics) (ctx : Context) (w : World) :
  (∀ call w',
     Start DefaultTLSVersion DefaultCiphers m ctx [] w = Serving call w' →
     HandlerPath = "/metrics-co"
     ∧ DefaultServeMux w' !! "/metrics-co" = Some promhttpHandler
     ∧ Addr (sc_server call) = ":8585"
     ∧ MinVersion (TLSConfig (sc_server call)) = 0x0303%Z
     ∧ NextProtos (TLSConfig (sc_server call)) = ["http/1.1"]
     ∧ sc_certFile call = "/var/run/secrets/serving-cert/tls.crt"
     ∧ sc_keyFile call = "/var/run/secrets/serving-cert/tls.key")
  ∧ (DefaultServeMux w !! "/metrics-co" = None →
     ∃ call w', Start DefaultTLSVersion DefaultCiphers m ctx [] w = Serving call w').
Proof.
  unfold Start, Start_begin. simpl.
  destruct (DefaultServeMux w !! HandlerPath) as [h|] eqn:E.
  - rewrite (Start_listen_bound _ _ m ctx w h E). split; [discriminate|].
    unfold HandlerPath in E. congruence.
  - destruct (Start_listen_free DefaultTLSVersion DefaultCiphers m ctx w E)
      as (call & -> & H1 & H2 & H3 & H4 & H5).
    split; [|eauto].
    intros call' w' [= <- <-]. split_and!; try done.
    simpl. apply lookup_insert_eq.
Qed.

Lemma Start_serves_fixed_endpoint_witness :
  DefaultServeMux freshWorld !! "/metrics-co" = None
  ∧ ∃ call w', Start 0x0303 [] freshMetrics 0 [] freshWorld = Serving call w'
               ∧ Addr (sc_server call) = ":8585"
               ∧ NextProtos (TLSConfig (sc_server call)) = ["http/1.1"].
Proof.
  split; [reflexivity|].
  destruct (Start_serves_fixed_endpoint 0x0303 [] freshMetrics 0 freshWorld) as [H1 H2].
  destruct (H2 eq_refl) as (call & w' & Hs).
  exists call, w'. split; [exact Hs|].
  destruct (H1 call w' Hs) as (_ & _ & Ha & _ & Hn & _). split; [exact Ha | exact Hn].
Defined.

(** C10: a second call of [Start] in the same process panics.  Whatever
    the first call did and however far it got, it left [/metrics-co] bound
    on the process-wide mux, and [http.Handle] panics on a pattern that is
    already bound: the second call ends in a panic, not in a returned
    error, before it serves anything. *)
Theorem Start_twice_panics (DefaultTLSVersion : Z) (DefaultCiphers : list Z)
    (m1 m2 : Metrics) (ctx1 ctx2 : Context) (evs1 evs2 : list Event) (w : World) :
  Start DefaultTLSVersion DefaultCiphers m2 ctx2 evs2
    (state_world (Start DefaultTLSVersion DefaultCiphers m1 ctx1 evs1 w))
  = Finished
      (Panic "http: multiple registrations for /metrics-co"
         (startLogged m2
            (state_world (Start DefaultTLSVersion DefaultCiphers m1 ctx1 evs1 w)))).
Proof.
  destruct (Start_binds DefaultTLSVersion DefaultCiphers m1 ctx1 evs1 w)
    as (_ & _ & _ & [h Hb]).
  unfold Start at 1, Start_begin.
  rewrite (Start_listen_bound _ _ m2 ctx2 _ h Hb).
  apply fold_Start_step_Finished.
Qed.

Lemma Start_unfold_free (DefaultTLSVersion : Z) (DefaultCiphers : list Z) (m : Metrics)
    (ctx : Context) (evs : list Event) (w : World) :
  DefaultServeMux w !! HandlerPath = None →
  ∃ call,
    Start DefaultTLSVersion DefaultCiphers m ctx evs w
    = fold_left (Start_step m ctx) (dropCancels evs)
        (Serving call
           (set_DefaultServeMux <[HandlerPath := promhttpHandler]> (startLogged m w))).
Proof.
  intros Hfree.
  destruct (Start_listen_free DefaultTLSVersion DefaultCiphers m ctx w Hfree)
    as (call & Hl & _).
  exists call. unfold Start, Start_begin. rewrite Hl.
  apply fold_Start_step_dropCancels.
Qed.

Lemma Start_never_returns_error (DefaultTLSVersion : Z) (DefaultCiphers : list Z)
    (m : Metrics) (ctx : Context) (evs : list Event) (w : World) (e : error) (w' : World) :
  Start DefaultTLSVersion DefaultCiphers m ctx evs w ≠ Finished (Ret (Some e) w').
Proof.
  destruct (DefaultServeMux w !! HandlerPath) as [h|] eqn:E.
  - unfold Start, Start_begin.
    rewrite (Start_listen_bound _ _ m ctx w h E), fold_Start_step_Finished. discriminate.
  - destruct (Start_unfold_free DefaultTLSVersion DefaultCiphers m ctx evs w E)
      as (call & ->).
    destruct (dropCancels evs) as [|[c|err] evs'] eqn:Ed; simpl.
    + discriminate.
    + exfalso. clear -Ed. induction evs as [|[c'|err'] evs IH]; simpl in Ed; auto; discriminate.
    + rewrite fold_Start_step_Finished, Start_served_eq. intros [= ?].
Qed.

Lemma Start_returns_after_listener (DefaultTLSVersion : Z) (DefaultCiphers : list Z)
    (m : Metrics) (ctx : Context) (w : World) (cancelled : list Context)
    (err : option error) (rest : list Event) :
  DefaultServeMux w !! HandlerPath = None →
  ∃ w', Start DefaultTLSVersion DefaultCiphers m ctx
          ((ContextCancelled <$> cancelled) ++ ListenAndServeTLSReturned err :: rest) w
        = Finished (Ret None w')
        ∧ (∀ e, err = Some e →
             LogError (m_log m) e (Lit "Metrics service failed") ∈ logs w').
Proof.
  intros Hfree.
  destruct (Start_unfold_free DefaultTLSVersion DefaultCiphers m ctx
              ((ContextCancelled <$> cancelled) ++ ListenAndServeTLSReturned err :: rest)
              w Hfree) as (call & ->).
  rewrite dropCancels_cancelled. simpl.
  rewrite fold_Start_step_Finished, Start_served_eq.
  eexists. split; [reflexivity|].
  intros e ->. simpl. set_solver.
Qed.

(** C1, as the code has it: no call of [Start] ever returns an error
    value.  When the pattern [/metrics-co] is not bound yet (the first
    [Start] of the process) and [ListenAndServeTLS] comes back, with or
    without an error and after any number of context cancellations,
    [Start] returns nil; an error the listener came back with (unreadable
    certificate or key, failed bind, broken listener) is written to the
    reporter's log as "Metrics service failed" and goes no further. *)
Theorem Start_swallows_listener_error (DefaultTLSVersion : Z) (DefaultCiphers : list Z)
    (m : Metrics) (ctx : Context) (w : World) :
  (∀ evs e w',
     Start DefaultTLSVersion DefaultCiphers m ctx evs w ≠ Finished (Ret (Some e) w'))
  ∧ (DefaultServeMux w !! HandlerPath = None →
     ∀ cancelled err rest,
       ∃ w', Start DefaultTLSVersion DefaultCiphers m ctx
               ((ContextCancelled <$> cancelled)
                ++ ListenAndServeTLSReturned err :: rest) w
             = Finished (Ret None w')
             ∧ (∀ e, err = Some e →
                  LogError (m_log m) e (Lit "Metrics service failed") ∈ logs w')).
Proof.
  split; [intros evs e w'; apply Start_never_returns_error|].
  intros Hfree cancelled err rest. by apply Start_returns_after_listener.
Qed.

Lemma Start_swallows_listener_error_witness :
  DefaultServeMux freshWorld !! HandlerPath = None
  ∧ ∃ w', Start 0x0303 [] freshMetrics 0
            [ContextCancelled 0;
             ListenAndServeTLSReturned
               (Some (errorString "open /var/run/secrets/serving-cert/tls.crt: no such file or directory"))]
            freshWorld
          = Finished (Ret None w')
          ∧ LogError "metrics"
              (errorString "open /var/run/secrets/serving-cert/tls.crt: no such file or directory")
              (Lit "Metrics service failed") ∈ logs w'.
Proof.
  split; [reflexivity|].
  destruct (Start_swallows_listener_error 0x0303 [] freshMetrics 0 freshWorld) as [_ H].
  destruct (H eq_refl [0]
              (Some (errorString "open /var/run/secrets/serving-cert/tls.crt: no such file or directory"))
              []) as (w' & Hs & Hl).
  exists w'. split; [exact Hs|]. apply Hl. reflexivity.
Defined.

(** C1 as stated fails: in a process where [Start] ran before, a call of
    [Start] whose listener could not read the certificate does not return
    at all, it panics in [http.Handle]. *)
Lemma Start_returns_nil_counterexample :
  let w1 := state_world (Start 0x0303 [] freshMetrics 0
                           [ListenAndServeTLSReturned (Some (errorString "listener closed"))]
                           freshWorld) in
  let err := Some (errorString "open /var/run/secrets/serving-cert/tls.crt: no such file or directory") in
  Start 0x0303 [] freshMetrics 1 [ListenAndServeTLSReturned err] w1
  = Finished (Panic "http: multiple registrations for /metrics-co" (startLogged freshMetrics w1))
  ∧ ¬ ∃ w', Start 0x0303 [] freshMetrics 1 [ListenAndServeTLSReturned err] w1
            = Finished (Ret None w').
Proof.
  intros w1 err.
  assert (H : Start 0x0303 [] freshMetrics 1 [ListenAndServeTLSReturned err] w1
              = Finished (Panic "http: multiple registrations for /metrics-co"
                            (startLogged freshMetrics w1))) by (vm_compute; reflexivity).
  split; [exact H|]. intros [w' Hw]. rewrite H in Hw. discriminate.
Qed.

(** C8, as the code has it: [Start] never reads its context.  A
    cancellation leaves a serving [Start] exactly where it was, with the
    listener up: the run is the same with all cancellations removed and
    with any other context.  [Start] stays blocked until
    [ListenAndServeTLS] itself comes back, and then returns nil without
    the error. *)
Theorem Start_ignores_context (DefaultTLSVersion : Z) (DefaultCiphers : list Z)
    (m : Metrics) (ctx : Context) (w : World) :
  (∀ st c, Start_step m ctx st (ContextCancelled c) = st)
  ∧ (∀ ctx' evs,
       Start DefaultTLSVersion DefaultCiphers m ctx evs w
       = Start DefaultTLSVersion DefaultCiphers m ctx' (dropCancels evs) w)
  ∧ (DefaultServeMux w !! HandlerPath = None →
     ∀ cancelled,
       (∃ call w', Start DefaultTLSVersion DefaultCiphers m ctx
                     (ContextCancelled <$> cancelled) w = Serving call w')
       ∧ ∀ err rest,
           ∃ w', Start DefaultTLSVersion DefaultCiphers m ctx
                   ((ContextCancelled <$> cancelled)
                    ++ ListenAndServeTLSReturned err :: rest) w
                 = Finished (Ret None w')).
Proof.
  split_and!.
  - intros st c. apply Start_step_cancel.
  - intros ctx' evs. unfold Start. rewrite (fold_Start_step_dropCancels m ctx ctx'). done.
  - intros Hfree cancelled. split.
    + destruct (Start_unfold_free DefaultTLSVersion DefaultCiphers m ctx
                  (ContextCancelled <$> cancelled) w Hfree) as (call & ->).
      rewrite <- (app_nil_r (ContextCancelled <$> cancelled)).
      rewrite dropCancels_cancelled. simpl. eauto.
    + intros err rest.
      destruct (Start_returns_after_listener DefaultTLSVersion DefaultCiphers m ctx w
                  cancelled err rest Hfree) as (w' & Hs & _).
      eauto.
Qed.

Lemma Start_ignores_context_witness :
  DefaultServeMux freshWorld !! HandlerPath = None
  ∧ (∃ call w', Start 0x0303 [] freshMetrics 7 (ContextCancelled <$> [7; 7]) freshWorld
                = Serving call w')
  ∧ ∃ w', Start 0x0303 [] freshMetrics 7
            ((ContextCancelled <$> [7; 7])
             ++ [ListenAndServeTLSReturned (Some (errorString "accept: use of closed network connection"))])
            freshWorld
          = Finished (Ret None w').
Proof.
  split; [reflexivity|].
  destruct (Start_ignores_context 0x0303 [] freshMetrics 7 freshWorld) as (_ & _ & H).
  destruct (H eq_refl [7; 7]) as [H1 H2].
  split; [exact H1|].
  exact (H2 (Some (errorString "accept: use of closed network connection")) []).
Defined.

(** C8 as stated fails: after the context passed to [Start] is cancelled,
    [Start] is still blocked in [ListenAndServeTLS] with the listener up;
    it has not returned. *)
Lemma Start_cancel_counterexample :
  (∃ call w', Start 0x0303 [] freshMetrics 7 [ContextCancelled 7] freshWorld
              = Serving call w')
  ∧ ¬ ∃ o, Start 0x0303 [] freshMetrics 7 [ContextCancelled 7] freshWorld = Finished o.
Proof.
  assert (H : ∃ call w', Start 0x0303 [] freshMetrics 7 [ContextCancelled 7] freshWorld
                         = Serving call w') by (vm_compute; eauto).
  split; [exact H|]. destruct H as (call & w' & ->). intros [o Ho]. discriminate.
Qed.

(** ** Registration *)

Lemma Register_range_cons (m : Metrics) (name : string) (c : Collector)
    (rest : list (string * Collector)) (w : World) :
  Register_range m ((name, c) :: rest) w
  = match impl_Register (m_impl m) c (attemptLogged m name c w) with
    | Ret None w1 => Register_range m rest (successLogged m name w1)
    | Ret (Some e) w1 =>
        Ret (Some (withStack (withMessage e (registerWrapMsg name))))
            (failureLogged m name e w1)
    | Panic msg w1 => Panic msg w1
    end.
Proof.
  simpl. unfold bind, logInfo, modify. simpl. fold (attemptLogged m name c w).
  destruct (impl_Register (m_impl m) c (attemptLogged m name c w)) as [[e|] w1|]; done.
Qed.

Lemma Register_range_None (m : Metrics) (entries : list (string * Collector)) :
  ∀ w w', Register_range m entries w = Ret None w' ↔ registeredAll m entries w w'.
Proof.
  induction entries as [|[name c] rest IH]; intros w w'.
  - simpl. unfold ret. split.
    + intros [= <-]. constructor.
    + inversion 1. done.
  - rewrite Register_range_cons. split.
    + destruct (impl_Register _ _ _) as [[e|] w1|] eqn:E; try discriminate.
      intros H. econstructor; [exact E|]. by apply IH.
    + inversion 1 as [|? ? ? ? w1 ? E Hr]; subst. rewrite E. by apply IH.
Qed.

Lemma Register_range_Some (m : Metrics) (entries : list (string * Collector)) :
  ∀ w e w',
    Register_range m entries w = Ret (Some e) w'
    ↔ ∃ pre name c post w1 e0 w2,
        entries = (pre ++ (name, c) :: post)%list
        ∧ registeredAll m pre w w1
        ∧ impl_Register (m_impl m) c (attemptLogged m name c w1) = Ret (Some e0) w2
        ∧ e = withStack (withMessage e0 (registerWrapMsg name))
        ∧ w' = failureLogged m name e0 w2.
Proof.
  induction entries as [|[name c] rest IH]; intros w e w'.
  - simpl. unfold ret. split; [discriminate|].
    intros (pre & ? & ? & ? & ? & ? & ? & E & _). by destruct pre.
  - rewrite Register_range_cons. split.
    + destruct (impl_Register _ _ _) as [[e0|] w1|] eqn:E; try discriminate.
      * intros [= <- <-]. exists [], name, c, rest, w, e0, w1.
        split_and!; try done. constructor.
      * intros H. apply IH in H as (pre & n & c' & post & w2 & e0 & w3 & -> & Hp & Hf & -> & ->).
        exists ((name, c) :: pre), n, c', post, w2, e0, w3.
        split_and!; try done. econstructor; [exact E | exact Hp].
    + intros (pre & n & c' & post & w1 & e0 & w2 & Heq & Hp & Hf & -> & ->).
      destruct pre as [|[n0 c0] pre]; simpl in Heq.
      * injection Heq as <- <- <-. inversion Hp; subst. by rewrite Hf.
      * injection Heq as <- <- ->. inversion Hp as [|? ? ? ? w3 ? E Hr]; subst.
        rewrite E. apply IH. exists pre, n, c', post, w1, e0, w2. done.
Qed.

(** C3: [Register] visits the four instruments of the map (in the order
    of this run), calls the adapter's [Register] for each in turn and
    stops at the first call that fails: it returns nil exactly when all
    four calls returned nil, and it returns an error exactly when some
    call failed after all calls before it succeeded; the error is then
    that call's error wrapped with "register collector for NAME metric"
    for the name of the instrument that failed, and the state is the one
    that call left plus the error log line, so no instrument after it was
    visited. *)
Theorem Register_stops_at_first_failure (m : Metrics) (order : list (string * Collector))
    (w : World) :
  range_order m order →
  length order = 4
  ∧ (∀ name c, (name, c) ∈ order ↔ (name, c) ∈ collectors m)
  ∧ (∀ w', Register m order w = Ret None w' ↔ registeredAll m order w w')
  ∧ (∀ e w',
       Register m order w = Ret (Some e) w'
       ↔ ∃ pre name c post w1 e0 w2,
           order = (pre ++ (name, c) :: post)%list
           ∧ registeredAll m pre w w1
           ∧ impl_Register (m_impl m) c (attemptLogged m name c w1) = Ret (Some e0) w2
           ∧ e = withStack (withMessage e0 ("register collector for " +:+ name +:+ " metric"))
           ∧ w' = failureLogged m name e0 w2).
Proof.
  intros Hp. split_and!.
  - by rewrite Hp.
  - intros name c. by rewrite Hp.
  - intros w'. apply Register_range_None.
  - intros e w'. apply Register_range_Some.
Qed.

Lemma Register_stops_at_first_failure_witness :
  range_order freshMetrics (collectors freshMetrics)
  ∧ ∃ w', Register freshMetrics (collectors freshMetrics) freshWorld = Ret None w'
          ∧ registeredAll freshMetrics (collectors freshMetrics) freshWorld w'.
Proof.
  assert (Hp : range_order freshMetrics (collectors freshMetrics))
    by (unfold range_order; reflexivity).
  split; [exact Hp|].
  destruct (Register_stops_at_first_failure freshMetrics (collectors freshMetrics)
              freshWorld Hp) as (_ & _ & H & _).
  eexists. split; [vm_compute; reflexivity|].
  apply H. vm_compute. reflexivity.
Defined.

(** *** The registry *)

Lemma registry_le_refl (r : Registry) : registry_le r r.
Proof. by split_and!. Qed.

Lemma registry_le_trans (r1 r2 r3 : Registry) :
  registry_le r1 r2 → registry_le r2 r3 → registry_le r1 r3.
Proof.
  intros (A1 & A2 & A3) (B1 & B2 & B3). split_and!; [naive_solver..|set_solver].
Qed.

Lemma registerDesc_cases (c : Collector) (d : Desc) (r : Registry) :
  ((registerDesc c d r).1 = None
   ∧ collectorsByID r !! descID d = None
   ∧ (registerDesc c d r).2
     = {| descIDs := {[descID d]} ∪ descIDs r;
          dimHashesByName := <[fqName d := dimHash d]> (dimHashesByName r);
          collectorsByID := <[descID d := c]> (collectorsByID r) |}
   ∧ (∀ h, dimHashesByName r !! fqName d = Some h → h = dimHash d))
  ∨ (is_Some (registerDesc c d r).1 ∧ (registerDesc c d r).2 = r).
Proof.
  unfold registerDesc.
  destruct (dimHashesByName r !! fqName d) as [h|] eqn:Eh.
  - case_bool_decide as Hh; simpl; [right; eauto|].
    destruct (collectorsByID r !! descID d) eqn:Ec; simpl; [right; eauto|].
    case_bool_decide; simpl; [right; eauto|]. left. split_and!; try done.
    intros h' [= Hh']. subst h'.
    destruct (decide (h = dimHash d)) as [|N]; [done | by destruct Hh].
  - simpl. destruct (collectorsByID r !! descID d) eqn:Ec; simpl; [right; eauto|].
    case_bool_decide; simpl; [right; eauto|]. left. by split_and!.
Qed.

Lemma registerDesc_le (c : Collector) (d : Desc) (r : Registry) :
  registry_le r (registerDesc c d r).2.
Proof.
  destruct (registerDesc_cases c d r) as [(_ & Hn & -> & Hh)|[_ ->]];
    [|apply registry_le_refl].
  split_and!; simpl.
  - intros id c0 H0. rewrite lookup_insert_ne; [done|]. intros <-. congruence.
  - intros n h H0. destruct (decide (fqName d = n)) as [<-|Hne].
    + rewrite lookup_insert_eq. f_equal. symmetry. by apply Hh.
    + by rewrite lookup_insert_ne.
  - set_solver.
Qed.

Lemma registerDesc_success (c : Collector) (d : Desc) (r : Registry) :
  (registerDesc c d r).1 = None → registeredAs c d (registerDesc c d r).2.
Proof.
  intros Hs. destruct (registerDesc_cases c d r) as [(_ & Hn & -> & Hh)|[[e He] _]].
  - split; simpl; apply lookup_insert_eq.
  - congruence.
Qed.

Lemma registerDesc_unknown (c : Collector) (d : Desc) (r : Registry) :
  unknownDesc d r → (registerDesc c d r).1 = None.
Proof.
  intros (H1 & H2 & H3). unfold registerDesc. rewrite H2, H3.
  by rewrite bool_decide_eq_false_2.
Qed.

Lemma registerDesc_already (c0 c : Collector) (d : Desc) (r : Registry) :
  registeredAs c0 d r → registerDesc c d r = (Some (AlreadyRegisteredError c0 c), r).
Proof.
  intros [H1 H2]. unfold registerDesc. rewrite H1, H2.
  rewrite bool_decide_eq_false_2; [done|]. intros H. by apply H.
Qed.

Lemma unknownDesc_other (c : Collector) (d d' : Desc) (r : Registry) :
  fqName d' ≠ fqName d → unknownDesc d' r → unknownDesc d' (registerDesc c d r).2.
Proof.
  intros Hne (H1 & H2 & H3).
  destruct (registerDesc_cases c d r) as [(_ & _ & -> & _)|[_ ->]]; [|done].
  unfold unknownDesc, descID in *. split_and!; simpl.
  - intros [E%elem_of_singleton|E]%elem_of_union; [by apply Hne | by apply H1].
  - by rewrite lookup_insert_ne.
  - by rewrite lookup_insert_ne.
Qed.

(** *** The default adapter *)

Lemma Describe_sameVecs (c : Collector) (w w' : World) :
  sameVecs w w' → Describe c w' = Describe c w.
Proof. intros [H1 H2]. destruct c; simpl; by rewrite ?H1, ?H2. Qed.

Lemma sameVecs_trans (w1 w2 w3 : World) : sameVecs w1 w2 → sameVecs w2 w3 → sameVecs w1 w3.
Proof. intros [A1 A2] [B1 B2]. split; congruence. Qed.

Lemma defaultImpl_Register_cases (c : Collector) (w : World) :
  match Describe c w with
  | None =>
      defaultImpl_Register c w
      = Panic nilDeref (add_log (LogPrintf "Attempting to register metric: %s" [ACollector c]) w)
  | Some d =>
      defaultImpl_Register c w
      = Ret (registerDesc c d (DefaultRegisterer w)).1
            (defaultRegistered c (registerDesc c d (DefaultRegisterer w)).1
               (registerDesc c d (DefaultRegisterer w)).2 w)
  end.
Proof.
  unfold defaultImpl_Register, bind, logPrintf, modify, prometheus_Register. simpl.
  assert (E : Describe c (add_log (LogPrintf "Attempting to register metric: %s" [ACollector c]) w)
              = Describe c w) by by destruct c.
  rewrite E. destruct (Describe c w) as [d|]; [|done]. simpl.
  destruct (registerDesc c d (DefaultRegisterer w)) as [[e|] r]; done.
Qed.

(** A call of the default adapter leaves the vectors alone and loses
    nothing from the registry. *)
Lemma defaultImpl_Register_frame (c : Collector) (w : World) :
  sameVecs w (outcome_world (defaultImpl_Register c w))
  ∧ registry_le (DefaultRegisterer w)
      (DefaultRegisterer (outcome_world (defaultImpl_Register c w)))
  ∧ DefaultServeMux (outcome_world (defaultImpl_Register c w)) = DefaultServeMux w.
Proof.
  pose proof (defaultImpl_Register_cases c w) as H.
  destruct (Describe c w) as [d|]; rewrite H; simpl.
  - split_and!; [done | apply registerDesc_le | done].
  - split_and!; [done | apply registry_le_refl | done].
Qed.

Lemma defaultImpl_Register_None (c : Collector) (w w' : World) :
  defaultImpl_Register c w = Ret None w' →
  ∃ d, Describe c w = Some d
       ∧ collectorsByID (DefaultRegisterer w) !! descID d = None
       ∧ registeredAs c d (DefaultRegisterer w').
Proof.
  intros Hr. pose proof (defaultImpl_Register_cases c w) as H.
  destruct (Describe c w) as [d|]; rewrite H in Hr; [|discriminate].
  injection Hr as Hn <-. exists d. split; [done|]. simpl.
  split; [|by apply registerDesc_success].
  destruct (registerDesc_cases c d (DefaultRegisterer w)) as [(_ & Hnone & _)|[[e He] _]];
    [done | congruence].
Qed.

Lemma defaultImpl_Register_Some (c : Collector) (w w' : World) (e : error) :
  defaultImpl_Register c w = Ret (Some e) w' →
  DefaultRegisterer w' = DefaultRegisterer w.
Proof.
  intros Hr. pose proof (defaultImpl_Register_cases c w) as H.
  destruct (Describe c w) as [d|]; rewrite H in Hr; [|discriminate].
  injection Hr as Hn <-. simpl.
  destruct (registerDesc_cases c d (DefaultRegisterer w)) as [(Hs & _)|[_ ->]]; [|done].
  congruence.
Qed.

(** *** The loop over the default adapter *)

(** [Register] over the default adapter never touches a vector or the
    mux, and never removes anything from the registry. *)
Lemma Register_range_frame (m : Metrics) (entries : list (string * Collector)) :
  m_impl m = defaultImpl →
  ∀ w, sameVecs w (outcome_world (Register_range m entries w))
       ∧ registry_le (DefaultRegisterer w)
           (DefaultRegisterer (outcome_world (Register_range m entries w)))
       ∧ DefaultServeMux (outcome_world (Register_range m entries w)) = DefaultServeMux w.
Proof.
  intros Hi. induction entries as [|[name c] rest IH]; intros w.
  - simpl. split_and!; [done | apply registry_le_refl | done].
  - rewrite Register_range_cons, Hi. simpl.
    destruct (defaultImpl_Register_frame c (attemptLogged m name c w)) as (F1 & F2 & F3).
    destruct (defaultImpl_Register c (attemptLogged m name c w)) as [[e|] w1|]; simpl in *.
    + done.
    + destruct (IH (successLogged m name w1)) as (G1 & G2 & G3).
      split_and!.
      * eapply sameVecs_trans; [exact F1|exact G1].
      * eapply registry_le_trans; [exact F2|exact G2].
      * by rewrite G3.
    + done.
Qed.

Lemma registeredAll_default (m : Metrics) (entries : list (string * Collector))
    (w w' : World) :
  m_impl m = defaultImpl →
  registeredAll m entries w w' →
  sameVecs w w'
  ∧ registry_le (DefaultRegisterer w) (DefaultRegisterer w')
  ∧ ∀ name c, (name, c) ∈ entries →
      ∃ d, Describe c w = Some d
           ∧ collectorsByID (DefaultRegisterer w) !! descID d = None
           ∧ registeredAs c d (DefaultRegisterer w').
Proof.
  intros Hi. induction 1 as [w|name c rest w w1 w2 Hc Hr IH].
  - split_and!; [done | apply registry_le_refl |]. intros ? ? H. by apply elem_of_nil in H.
  - rewrite Hi in Hc. simpl in Hc.
    destruct (defaultImpl_Register_frame c (attemptLogged m name c w)) as (F1 & F2 & _).
    rewrite Hc in F1, F2. simpl in F1, F2.
    destruct IH as (G1 & G2 & G3).
    assert (S1 : sameVecs w w2) by (eapply sameVecs_trans; [exact F1|exact G1]).
    split_and!.
    + exact S1.
    + eapply registry_le_trans; [exact F2|exact G2].
    + intros n c' [[= -> ->]|Hin]%elem_of_cons.
      * destruct (defaultImpl_Register_None _ _ _ Hc) as (d & Hd & Hnone & [R1 R2]).
        exists d. split_and!; [exact Hd | exact Hnone |].
        destruct G2 as (L1 & L2 & _). split; [by apply L1 | by apply L2].
      * destruct (G3 n c' Hin) as (d & Hd & Hnone & Hreg). exists d. split_and!; [| |done].
        -- rewrite <- Hd. symmetry. apply Describe_sameVecs. exact F1.
        -- simpl in Hnone. destruct F2 as (L1 & _).
           destruct (collectorsByID (DefaultRegisterer w) !! descID d) as [c0|] eqn:E;
             [|done].
           apply L1 in E. simpl in E. congruence.
Qed.

(** In a registry that knows none of the descriptors of the entries, each
    under its own name, the loop registers every entry. *)
Lemma Register_range_unknown (m : Metrics) :
  m_impl m = defaultImpl →
  ∀ (entries : list (string * Collector)) (ds : list Desc) (w : World),
    NoDup (fqName <$> ds) →
    Forall2 (λ nc d, Describe nc.2 w = Some d) entries ds →
    Forall (λ d, unknownDesc d (DefaultRegisterer w)) ds →
    ∃ w', Register_range m entries w = Ret None w'.
Proof.
  intros Hi entries. induction entries as [|[name c] rest IH]; intros ds w Hnd HF Hu.
  - eexists. reflexivity.
  - apply Forall2_cons_inv_l in HF as (d & ds' & Hd & HF & ->). simpl in Hd.
    rewrite Register_range_cons, Hi. simpl.
    pose proof (defaultImpl_Register_cases c (attemptLogged m name c w)) as Hc.
    change (Describe c (attemptLogged m name c w)) with (Describe c w) in Hc.
    rewrite Hd in Hc. rewrite Hc. clear Hc.
    change (DefaultRegisterer (attemptLogged m name c w)) with (DefaultRegisterer w).
    apply Forall_cons in Hu as [Hu1 Hu2].
    rewrite fmap_cons in Hnd. apply NoDup_cons in Hnd as [Hn1 Hn2].
    rewrite (registerDesc_unknown c d _ Hu1).
    apply (IH ds'); [done| |].
    + eapply Forall2_impl; [exact HF|]. intros [n c'] d' H. exact H.
    + simpl. apply Forall_forall. intros d' Hin.
      apply unknownDesc_other.
      * intros E. apply Hn1. rewrite <- E. by apply list_elem_of_fmap_2.
      * rewrite Forall_forall in Hu2. by apply Hu2.
Qed.

(** *** Reporters and the registry *)

Lemma valid_collectors (m : Metrics) (w : World) :
  valid m w →
  Forall2 (λ nc nd, nc.1 = nd.1 ∧ Describe nc.2 w = Some nd.2) (collectors m) namedDescs.
Proof.
  intros [H1 H2 H3 H4]. unfold collectors, namedDescs.
  repeat (constructor; [split; [reflexivity | simpl; assumption]|]). constructor.
Qed.

Lemma valid_Describe (m : Metrics) (w : World) :
  valid m w →
  Forall2 (λ nc d, Describe nc.2 w = Some d) (collectors m) reporterDescs.
Proof.
  intros [H1 H2 H3 H4]. unfold collectors, reporterDescs.
  repeat (constructor; [simpl; assumption|]). constructor.
Qed.

Lemma valid_named (m : Metrics) (w : World) (name : string) (c : Collector) :
  valid m w → (name, c) ∈ collectors m →
  ∃ d, (name, d) ∈ namedDescs ∧ Describe c w = Some d.
Proof.
  intros Hv Hin. pose proof (valid_collectors m w Hv) as HF.
  apply list_elem_of_lookup in Hin as [i Hi].
  destruct (Forall2_lookup_l _ _ _ _ _ HF Hi) as ([n d] & Hj & Hn & Hd). simpl in *.
  subst n. exists d. split; [|done]. apply list_elem_of_lookup. eauto.
Qed.

Lemma valid_sameVecs (m : Metrics) (w w' : World) :
  sameVecs w w' → valid m w → valid m w'.
Proof. intros [E1 E2] [H1 H2 H3 H4]. split; by rewrite ?E1, ?E2. Qed.

Lemma New_preserves_valid (m m' : Metrics) (w w' : World) :
  valid m w → New w = Ret m' w' → valid m w'.
Proof.
  intros [H1 H2 H3 H4] HN.
  destruct (New_returns w) as (w1 & HN1 & Hc & Hg & _ & _).
  rewrite HN1 in HN. injection HN as _ <-.
  assert (L1 : ∀ p d, cv_desc <$> counterVecs w !! p = Some d →
                      cv_desc <$> counterVecs w1 !! p = Some d).
  { intros p d Hp. rewrite Hc.
    destruct (counterVecs w !! p) as [v|] eqn:E; [|done].
    by rewrite (lookup_app_l_Some _ _ _ _ E). }
  assert (L2 : ∀ p d, gv_desc <$> gaugeVecs w !! p = Some d →
                      gv_desc <$> gaugeVecs w1 !! p = Some d).
  { intros p d Hp. rewrite Hg.
    destruct (gaugeVecs w !! p) as [v|] eqn:E; [|done].
    by rewrite (lookup_app_l_Some _ _ _ _ E). }
  split; auto.
Qed.

Lemma reporterDescs_NoDup : NoDup (fqName <$> reporterDescs).
Proof.
  apply (bool_decide_unpack (NoDup (fqName <$> reporterDescs))). vm_compute. exact I.
Qed.

(** On a registry that knows none of the four descriptors, [Register]
    succeeds in every order and registers the four collectors. *)
Lemma Register_succeeds (m : Metrics) (order : list (string * Collector)) (w : World) :
  m_impl m = defaultImpl → valid m w → range_order m order → registryKnowsNone w →
  ∃ w', Register m order w = Ret None w' ∧ sameVecs w w' ∧ reporterRegistered m w'.
Proof.
  intros Hi Hv Hp Hu.
  destruct (Permutation_Forall2 (symmetry Hp) (valid_Describe m w Hv))
    as (ds & Hds & HF).
  destruct (Register_range_unknown m Hi order ds w) as [w' Hr].
  - rewrite <- Hds. apply reporterDescs_NoDup.
  - exact HF.
  - unfold registryKnowsNone in Hu. by rewrite <- Hds.
  - exists w'. split; [exact Hr|].
    apply Register_range_None in Hr.
    destruct (registeredAll_default m order w w' Hi Hr) as (S1 & _ & Hreg).
    split; [exact S1|].
    intros name c Hin.
    destruct (valid_named m w name c Hv Hin) as (d & Hnd & Hd).
    destruct (Hreg name c) as (d' & Hd' & _ & Hr'); [by rewrite Hp|].
    exists d. split_and!; [done| |congruence].
    rewrite <- Hd. by apply Describe_sameVecs.
Qed.

(** Where another reporter's collectors are registered, [Register] fails
    at the first instrument it visits, with the registry's duplicate
    error, and changes nothing in the registry. *)
Lemma Register_duplicate (m1 m2 : Metrics) (order : list (string * Collector)) (w : World) :
  m_impl m2 = defaultImpl → valid m2 w → reporterRegistered m1 w → range_order m2 order →
  ∃ name c1 c2 w',
    Register m2 order w
    = Ret (Some (withStack (withMessage (AlreadyRegisteredError c1 c2)
                              (registerWrapMsg name)))) w'
    ∧ (name, c1) ∈ collectors m1 ∧ (name, c2) ∈ collectors m2
    ∧ DefaultRegisterer w' = DefaultRegisterer w.
Proof.
  intros Hi Hv Hreg Hp.
  destruct order as [|[name c2] rest].
  { apply Permutation_length in Hp. simpl in Hp. discriminate. }
  assert (Hin2 : (name, c2) ∈ collectors m2) by (rewrite <- Hp; left).
  destruct (valid_named m2 w name c2 Hv Hin2) as (d & Hnd & Hd2).
  assert (∃ c1, (name, c1) ∈ collectors m1 ∧ registeredAs c1 d (DefaultRegisterer w))
    as (c1 & Hin1 & Hr1).
  { unfold namedDescs in Hnd. unfold reporterRegistered, collectors, namedDescs in Hreg.
    set_unfold in Hnd.
    destruct Hnd as [[= -> ->]|[[= -> ->]|[[= -> ->]|[[= -> ->]|[]]]]].
    - destruct (Hreg _ _ (list_elem_of_here _ _)) as (d' & Hd' & _ & Hr).
      eexists. split; [left|].
      set_unfold in Hd'. destruct Hd' as [[= <-]|[[= ? ?]|[[= ? ?]|[[= ? ?]|[]]]]]; done.
    - destruct (Hreg _ _ (list_elem_of_further _ _ _ (list_elem_of_here _ _)))
        as (d' & Hd' & _ & Hr).
      eexists. split; [right; left|].
      set_unfold in Hd'. destruct Hd' as [[= ? ?]|[[= <-]|[[= ? ?]|[[= ? ?]|[]]]]]; done.
    - destruct (Hreg _ _ (list_elem_of_further _ _ _
                            (list_elem_of_further _ _ _ (list_elem_of_here _ _))))
        as (d' & Hd' & _ & Hr).
      eexists. split; [right; right; left|].
      set_unfold in Hd'. destruct Hd' as [[= ? ?]|[[= ? ?]|[[= <-]|[[= ? ?]|[]]]]]; done.
    - destruct (Hreg _ _ (list_elem_of_further _ _ _
                            (list_elem_of_further _ _ _
                               (list_elem_of_further _ _ _ (list_elem_of_here _ _)))))
        as (d' & Hd' & _ & Hr).
      eexists. split; [right; right; right; left|].
      set_unfold in Hd'. destruct Hd' as [[= ? ?]|[[= ? ?]|[[= ? ?]|[[= <-]|[]]]]]; done. }
  exists name, c1, c2. unfold Register. rewrite Register_range_cons, Hi. simpl.
  pose proof (defaultImpl_Register_cases c2 (attemptLogged m2 name c2 w)) as Hc.
  change (Describe c2 (attemptLogged m2 name c2 w)) with (Describe c2 w) in Hc.
  rewrite Hd2 in Hc. rewrite Hc. clear Hc.
  change (DefaultRegisterer (attemptLogged m2 name c2 w)) with (DefaultRegisterer w).
  rewrite (registerDesc_already c1 c2 d _ Hr1). simpl.
  eexists. split_and!; done.
Qed.

(** *** Scrapes *)

Lemma Gather_elem (w : World) (id : string) (c : Collector) (s : Sample) :
  collectorsByID (DefaultRegisterer w) !! id = Some c →
  s ∈ Collect c w → s ∈ Gather w.
Proof.
  intros Hc Hs. unfold Gather. apply list_elem_of_bind.
  exists (id, c). split; [exact Hs|]. by apply elem_of_map_to_list.
Qed.

Lemma samplesOf_name {V} (toZ : V → Z) (d : Desc) (children : gmap (list string) V)
    (s : Sample) :
  s ∈ samplesOf toZ d children → s_name s = fqName d.
Proof. unfold samplesOf. intros ([k v] & -> & _)%list_elem_of_fmap. done. Qed.

Lemma samplesOf_child {V} (toZ : V → Z) (d : Desc) (children : gmap (list string) V)
    (key : list string) :
  is_Some (children !! key) → ∃ s, s ∈ samplesOf toZ d children.
Proof.
  intros [v Hv]. eexists. unfold samplesOf. apply list_elem_of_fmap.
  exists (key, v). split; [reflexivity|]. by apply elem_of_map_to_list.
Qed.

Lemma samplesOf_no_child {V} (toZ : V → Z) (d : Desc) (children : gmap (list string) V) :
  (∀ key, children !! key = None) → samplesOf toZ d children = [].
Proof.
  intros Hn. unfold samplesOf.
  destruct (map_to_list children) as [|[k v] l] eqn:E; [done|].
  assert (H : (k, v) ∈ map_to_list children) by (rewrite E; left).
  apply elem_of_map_to_list in H. by rewrite Hn in H.
Qed.

(** A collector with an observed tuple puts a line under its name into a
    scrape; a collector without one puts nothing. *)
Lemma Collect_observed (c : Collector) (w : World) (d : Desc) :
  Describe c w = Some d → observed c w → ∃ s, s ∈ Collect c w ∧ s_name s = fqName d.
Proof.
  destruct c as [p|p]; simpl; intros Hd (v & key & Hv & Hk); rewrite Hv in Hd |- *;
    injection Hd as <-.
  - destruct (samplesOf_child Z.of_N (cv_desc v) _ key Hk) as [s Hs].
    exists s. split; [done|]. by eapply samplesOf_name.
  - destruct (samplesOf_child id (gv_desc v) _ key Hk) as [s Hs].
    exists s. split; [done|]. by eapply samplesOf_name.
Qed.

Lemma Collect_unobserved (c : Collector) (w : World) :
  ¬ observed c w → Collect c w = [].
Proof.
  destruct c as [p|p]; simpl; intros Hn.
  - destruct (counterVecs w !! p) as [v|]; [|done].
    apply samplesOf_no_child. intros key.
    destruct (cv_children v !! key) eqn:E; [|done]. destruct Hn. eauto.
  - destruct (gaugeVecs w !! p) as [v|]; [|done].
    apply samplesOf_no_child. intros key.
    destruct (gv_children v !! key) eqn:E; [|done]. destruct Hn. eauto.
Qed.

Lemma effect_frame (m : Metrics) (c : Call) (w : World) :
  DefaultRegisterer (effect m c w) = DefaultRegisterer w
  ∧ DefaultServeMux (effect m c w) = DefaultServeMux w.
Proof. destruct c; simpl; [case_decide|..]; done. Qed.

Lemma calls_frame (m : Metrics) (cs : list Call) :
  ∀ w w', valid m w → calls m cs w = Ret tt w' →
          DefaultRegisterer w' = DefaultRegisterer w
          ∧ DefaultServeMux w' = DefaultServeMux w.
Proof.
  induction cs as [|c cs IH]; intros w w' Hv Hr.
  - by injection Hr as <-.
  - rewrite calls_cons in Hr by done.
    destruct (IH _ _ (valid_effect m c w Hv) Hr) as [E1 E2].
    destruct (effect_frame m c w) as [F1 F2]. split; congruence.
Qed.

Lemma Describe_effect (m : Metrics) (k : Call) (c : Collector) (w : World) :
  Describe c (effect m k w) = Describe c w.
Proof.
  assert (B : ∀ p key w0, Describe c (bump p key w0) = Describe c w0).
  { intros. destruct c; simpl; [apply desc_bump | done]. }
  assert (G : ∀ p key v w0, Describe c (setGauge p key v w0) = Describe c w0).
  { intros. destruct c; simpl; [done | apply desc_setGauge]. }
  destruct k; simpl; [case_decide|..]; by rewrite ?B, ?G.
Qed.

Lemma calls_Describe (m : Metrics) (cs : list Call) (c : Collector) :
  ∀ w w', valid m w → calls m cs w = Ret tt w' → Describe c w' = Describe c w.
Proof.
  induction cs as [|k cs IH]; intros w w' Hv Hr.
  - by injection Hr as <-.
  - rewrite calls_cons in Hr by done.
    rewrite (IH _ _ (valid_effect m k w Hv) Hr). apply Describe_effect.
Qed.

Lemma New_frame (w0 : World) (m : Metrics) (w : World) :
  New w0 = Ret m w →
  DefaultRegisterer w = DefaultRegisterer w0 ∧ DefaultServeMux w = DefaultServeMux w0.
Proof.
  intros HN. destruct (New_returns w0) as (w1 & HN1 & _ & _ & Hr & Hm).
  rewrite HN1 in HN. by injection HN as _ <-.
Qed.

Lemma namedDescs_functional (name : string) (d d' : Desc) :
  (name, d) ∈ namedDescs → (name, d') ∈ namedDescs → d = d'.
Proof.
  unfold namedDescs. intros H1 H2. set_unfold in H1. set_unfold in H2.
  destruct H1 as [H1|[H1|[H1|[H1|[]]]]]; destruct H2 as [H2|[H2|[H2|[H2|[]]]]];
    apply pair_equal_spec in H1 as [-> ->]; apply pair_equal_spec in H2 as [E ->];
    first [done | by vm_compute in E].
Qed.

(** C6, as the code has it.  Two reporters built independently in one
    process share the default registry, and the registry knows none of
    their four descriptors at first.  Then [Register] on the first
    succeeds, in every iteration order, and the registry holds its four
    collectors; [Register] on the second fails at the first instrument it
    visits with the registry's [AlreadyRegisteredError], wrapped with that
    instrument's name, and the adapter's [Register] fails in the same way
    for any collector with an identity already registered.  A registered
    instrument puts its name into a scrape as soon as one of its label
    tuples has been observed; an instrument without observed tuples puts
    nothing into a scrape. *)
Theorem Register_twice_is_duplicate (w0 : World) (m1 : Metrics) (w1 : World)
    (m2 : Metrics) (w2 : World) (o1 o2 : list (string * Collector)) :
  New w0 = Ret m1 w1 → New w1 = Ret m2 w2 → registryKnowsNone w0 →
  range_order m1 o1 → range_order m2 o2 →
  ∃ w3, Register m1 o1 w2 = Ret None w3
    ∧ reporterRegistered m1 w3
    ∧ (∃ name c1 c2 w4,
         Register m2 o2 w3
         = Ret (Some (withStack (withMessage (AlreadyRegisteredError c1 c2)
                                   ("register collector for " +:+ name +:+ " metric")))) w4
         ∧ (name, c1) ∈ collectors m1 ∧ (name, c2) ∈ collectors m2
         ∧ DefaultRegisterer w4 = DefaultRegisterer w3)
    ∧ (∀ name c1 c2,
         (name, c1) ∈ collectors m1 →
         (name, c2) ∈ collectors m1 ∨ (name, c2) ∈ collectors m2 →
         ∃ w4, impl_Register defaultImpl c2 w3 = Ret (Some (AlreadyRegisteredError c1 c2)) w4
               ∧ DefaultRegisterer w4 = DefaultRegisterer w3)
    ∧ (∀ cs, ∃ w4, calls m1 cs w3 = Ret tt w4
         ∧ ∀ name c, (name, c) ∈ collectors m1 →
             ∃ d, (name, d) ∈ namedDescs
                  ∧ (observed c w4 → fqName d ∈ scrapeNames w4)
                  ∧ (¬ observed c w4 → Collect c w4 = [])).
Proof.
  intros HN1 HN2 Hu Hp1 Hp2.
  destruct (New_valid w0 m1 w1 HN1) as (Hv1 & Hi1 & _).
  destruct (New_valid w1 m2 w2 HN2) as (Hv2 & Hi2 & _).
  pose proof (New_preserves_valid m1 m2 w1 w2 Hv1 HN2) as Hv12.
  destruct (New_frame w0 m1 w1 HN1) as [R1 _].
  destruct (New_frame w1 m2 w2 HN2) as [R2 _].
  assert (Hu2 : registryKnowsNone w2).
  { unfold registryKnowsNone in *. by rewrite R2, R1. }
  destruct (Register_succeeds m1 o1 w2 Hi1 Hv12 Hp1 Hu2) as (w3 & Hr & Hs & Hreg).
  pose proof (valid_sameVecs m1 w2 w3 Hs Hv12) as Hv13.
  pose proof (valid_sameVecs m2 w2 w3 Hs Hv2) as Hv23.
  exists w3. split_and!.
  - exact Hr.
  - exact Hreg.
  - apply (Register_duplicate m1 m2 o2 w3 Hi2 Hv23 Hreg Hp2).
  - intros name c1 c2 Hin1 Hin2.
    destruct (Hreg name c1 Hin1) as (d & Hnd & Hd1 & Hra).
    assert (Hd2 : Describe c2 w3 = Some d).
    { destruct Hin2 as [Hin2|Hin2].
      - destruct (valid_named m1 w3 name c2 Hv13 Hin2) as (d' & Hnd' & Hd').
        by rewrite (namedDescs_functional name d d').
      - destruct (valid_named m2 w3 name c2 Hv23 Hin2) as (d' & Hnd' & Hd').
        by rewrite (namedDescs_functional name d d'). }
    simpl. pose proof (defaultImpl_Register_cases c2 w3) as Hc.
    rewrite Hd2 in Hc. rewrite Hc. rewrite (registerDesc_already c1 c2 d _ Hra). simpl.
    eexists. split; [reflexivity | done].
  - intros cs. destruct (calls_spec m1 cs w3 Hv13) as (w4 & Hc & Hv4 & _).
    exists w4. split; [exact Hc|]. intros name c Hin.
    destruct (Hreg name c Hin) as (d & Hnd & Hd & [Hra _]).
    destruct (calls_frame m1 cs w3 w4 Hv13 Hc) as [F1 _].
    exists d. split_and!; [done| |apply Collect_unobserved].
    intros Hobs.
    destruct (Collect_observed c w4 d) as (s & Hs1 & Hs2); [|done|].
    { rewrite (calls_Describe m1 cs c w3 w4 Hv13 Hc). exact Hd. }
    unfold scrapeNames. rewrite <- Hs2. apply list_elem_of_fmap_2.
    eapply Gather_elem; [|exact Hs1]. rewrite F1. exact Hra.
Qed.

Lemma Register_twice_is_duplicate_witness :
  New emptyWorld = Ret freshMetrics freshWorld
  ∧ New freshWorld = Ret secondMetrics twoReporters
  ∧ registryKnowsNone emptyWorld
  ∧ ∃ w3, Register freshMetrics (collectors freshMetrics) twoReporters = Ret None w3
      ∧ ∃ name c1 c2 w4,
          Register secondMetrics (rev (collectors secondMetrics)) w3
          = Ret (Some (withStack (withMessage (AlreadyRegisteredError c1 c2)
                                    ("register collector for " +:+ name +:+ " metric")))) w4.
Proof.
  assert (Hu : registryKnowsNone emptyWorld).
  { unfold registryKnowsNone, reporterDescs.
    repeat (constructor; [split_and!; [apply not_elem_of_empty | reflexivity | reflexivity]|]).
    constructor. }
  assert (Hp1 : range_order freshMetrics (collectors freshMetrics))
    by (unfold range_order; reflexivity).
  assert (Hp2 : range_order secondMetrics (rev (collectors secondMetrics)))
    by (unfold range_order; symmetry; apply Permutation_rev).
  split_and!; [reflexivity | reflexivity | exact Hu |].
  destruct (Register_twice_is_duplicate emptyWorld freshMetrics freshWorld
              secondMetrics twoReporters (collectors freshMetrics)
              (rev (collectors secondMetrics)) eq_refl eq_refl Hu Hp1 Hp2)
    as (w3 & H1 & _ & (name & c1 & c2 & w4 & H2 & _) & _).
  exists w3. split; [exact H1|]. exists name, c1, c2, w4. exact H2.
Defined.

(** C6 as stated fails in its last part: after one [New()] and one
    successful [Register()] a scrape shows none of the four instrument
    names, because no label tuple has been observed yet. *)
Lemma Register_scrape_counterexample :
  let w := outcome_world (Register freshMetrics (collectors freshMetrics) freshWorld) in
  Register freshMetrics (collectors freshMetrics) freshWorld = Ret None w
  ∧ scrapeNames w = []
  ∧ ¬ (∀ d, d ∈ reporterDescs → fqName d ∈ scrapeNames w).
Proof.
  intros w.
  assert (H1 : Register freshMetrics (collectors freshMetrics) freshWorld = Ret None w)
    by (vm_compute; reflexivity).
  assert (H2 : scrapeNames w = []) by (vm_compute; reflexivity).
  split_and!; [exact H1 | exact H2 |].
  intros H. specialize (H (NewDesc scanStatusOpts scanStatusLabels)).
  rewrite H2 in H. eapply elem_of_nil, H. unfold reporterDescs. right. left.
Qed.

Lemma Register_range_app (m : Metrics) (pre rest : list (string * Collector))
    (w w1 : World) :
  registeredAll m pre w w1 →
  Register_range m (pre ++ rest) w = Register_range m rest w1.
Proof.
  induction 1 as [w|name c pre w w1 w2 Hc Hr IH]; [done|].
  rewrite <- app_comm_cons, Register_range_cons, Hc. exact IH.
Qed.

Lemma registeredAll_keeps_unknown (m : Metrics) (pre : list (string * Collector))
    (w w1 : World) (d' : Desc) :
  m_impl m = defaultImpl →
  registeredAll m pre w w1 →
  (∀ n c d, (n, c) ∈ pre → Describe c w = Some d → fqName d' ≠ fqName d) →
  unknownDesc d' (DefaultRegisterer w) → unknownDesc d' (DefaultRegisterer w1).
Proof.
  intros Hi. induction 1 as [w|name c pre w w1 w2 Hc Hr IH]; intros Hne Hu; [done|].
  rewrite Hi in Hc. simpl in Hc.
  pose proof (defaultImpl_Register_cases c (attemptLogged m name c w)) as Hcase.
  change (Describe c (attemptLogged m name c w)) with (Describe c w) in Hcase.
  destruct (Describe c w) as [d|] eqn:Ed; rewrite Hcase in Hc; [|discriminate].
  injection Hc as Hnil <-. apply IH.
  - intros n c' dd Hin Hd. apply (Hne n c' dd); [by right | exact Hd].
  - simpl. apply unknownDesc_other; [|exact Hu]. apply (Hne name c d); [left | exact Ed].
Qed.

Lemma valid_entry (m : Metrics) (w : World) (n : string) (c : Collector) (d : Desc) :
  valid m w → (n, c) ∈ collectors m → Describe c w = Some d → (n, d) ∈ namedDescs.
Proof.
  intros Hv Hin Hd. destruct (valid_named m w n c Hv Hin) as (d' & Hnd & Hd').
  congruence.
Qed.

Lemma namedDescs_injective (n1 n2 : string) (d1 d2 : Desc) :
  (n1, d1) ∈ namedDescs → (n2, d2) ∈ namedDescs → fqName d1 = fqName d2 → n1 = n2.
Proof.
  unfold namedDescs. intros H1 H2 E. set_unfold in H1. set_unfold in H2.
  destruct H1 as [H1|[H1|[H1|[H1|[]]]]]; destruct H2 as [H2|[H2|[H2|[H2|[]]]]];
    apply pair_equal_spec in H1 as [-> ->]; apply pair_equal_spec in H2 as [-> ->];
    first [done | by vm_compute in E].
Qed.

Lemma collectors_names_NoDup (m : Metrics) : NoDup ((collectors m).*1).
Proof.
  unfold collectors. simpl.
  apply (bool_decide_unpack
           (NoDup [metricNameComplianceScanError; metricNameComplianceScanStatus;
                   metricNameComplianceRemediationStatus;
                   metricNameComplianceStateGauge])).
  vm_compute. exact I.
Qed.

(** Where exactly one descriptor of a reporter is taken by a registered
    collector and the others are unknown, [Register] registers the
    instruments it visits before the taken one, fails there with the
    duplicate error and leaves the instruments after it unknown. *)
Lemma Register_fails_at_taken (m : Metrics) (w : World)
    (pre post : list (string * Collector)) (name : string) (c c0 : Collector) (d : Desc) :
  m_impl m = defaultImpl → valid m w →
  range_order m (pre ++ (name, c) :: post) →
  (name, d) ∈ namedDescs →
  registeredAs c0 d (DefaultRegisterer w) →
  (∀ n d', (n, d') ∈ namedDescs → n ≠ name → unknownDesc d' (DefaultRegisterer w)) →
  ∃ w',
    Register m (pre ++ (name, c) :: post) w
    = Ret (Some (withStack (withMessage (AlreadyRegisteredError c0 c)
                              (registerWrapMsg name)))) w'
    ∧ (∀ n c', (n, c') ∈ pre →
         ∃ d', (n, d') ∈ namedDescs
               ∧ collectorsByID (DefaultRegisterer w) !! descID d' = None
               ∧ registeredAs c' d' (DefaultRegisterer w'))
    ∧ (∀ n d', (n, d') ∈ namedDescs → n ∈ post.*1 →
         unknownDesc d' (DefaultRegisterer w')).
Proof.
  intros Hi Hv Hp Hnd Htaken Hothers.
  pose proof (collectors_names_NoDup m) as Hnames.
  rewrite <- Hp in Hnames. rewrite fmap_app, fmap_cons in Hnames. simpl in Hnames.
  apply NoDup_app in Hnames as (Hnpre & Hdisj & Hnrest).
  apply NoDup_cons in Hnrest as [Hnot_post Hnpost].
  assert (Hinall : ∀ n c', (n, c') ∈ (pre ++ (name, c) :: post)%list → (n, c') ∈ collectors m)
    by (intros n c' H; by rewrite <- Hp).
  assert (Hpre_in : ∀ n c', (n, c') ∈ pre → (n, c') ∈ collectors m).
  { intros n c' H. apply Hinall. apply elem_of_app. by left. }
  assert (Hpre_name : ∀ n c', (n, c') ∈ pre → n ≠ name).
  { intros n c' H ->. apply (Hdisj name); [|left].
    apply list_elem_of_fmap. exists (name, c'). done. }
  assert (Hc_in : (name, c) ∈ collectors m).
  { apply Hinall. apply elem_of_app. right. left. }
  (* the prefix registers *)
  assert (∃ ds, Forall2 (λ nc d', Describe nc.2 w = Some d') pre ds
                ∧ Forall2 (λ nc d', (nc.1, d') ∈ namedDescs) pre ds) as (ds & HF & HN).
  { clear -Hv Hpre_in. induction pre as [|[n c'] pre IH].
    - exists []. split; constructor.
    - destruct IH as (ds & HF & HN).
      { intros n0 c0 H. apply Hpre_in. by right. }
      destruct (valid_named m w n c' Hv) as (d' & Hnd' & Hd'); [apply Hpre_in; left|].
      exists (d' :: ds). split; constructor; done. }
  assert (Hds_nodup : NoDup (fqName <$> ds)).
  { clear -HN Hnpre. induction HN as [|[n c'] d' pre ds Hx HN IH]; [constructor|].
    rewrite fmap_cons in Hnpre. apply NoDup_cons in Hnpre as [Hn1 Hn2].
    rewrite fmap_cons. apply NoDup_cons. split; [|by apply IH].
    intros Hin. apply list_elem_of_fmap in Hin as (d2 & E & Hd2).
    apply list_elem_of_lookup in Hd2 as [i Hi].
    destruct (Forall2_lookup_r _ _ _ _ _ HN Hi) as ([n2 c2] & Hj & Hx2). simpl in *.
    apply Hn1. rewrite (namedDescs_injective n n2 d' d2 Hx Hx2 E).
    apply list_elem_of_fmap. exists (n2, c2). split; [done|].
    apply list_elem_of_lookup. eauto. }
  assert (Hds_unknown : Forall (λ d', unknownDesc d' (DefaultRegisterer w)) ds).
  { apply Forall_forall. intros d' Hin. apply list_elem_of_lookup in Hin as [i Hi'].
    destruct (Forall2_lookup_r _ _ _ _ _ HN Hi') as ([n2 c2] & Hj & Hx2). simpl in *.
    apply (Hothers n2 d' Hx2). apply (Hpre_name n2 c2). apply list_elem_of_lookup. eauto. }
  destruct (Register_range_unknown m Hi pre ds w Hds_nodup HF Hds_unknown) as [w1 Hr1].
  apply Register_range_None in Hr1.
  destruct (registeredAll_default m pre w w1 Hi Hr1) as (Hs & Hle & Hreg).
  (* the taken one fails *)
  assert (Hd : Describe c w1 = Some d).
  { rewrite (Describe_sameVecs c w w1 Hs).
    destruct (valid_named m w name c Hv Hc_in) as (d' & Hnd' & Hd').
    by rewrite (namedDescs_functional name d d'). }
  assert (Htaken1 : registeredAs c0 d (DefaultRegisterer w1)).
  { destruct Htaken as [T1 T2]. destruct Hle as (L1 & L2 & _).
    split; [by apply L1 | by apply L2]. }
  eexists. split_and!.
  - unfold Register. rewrite (Register_range_app m pre _ w w1 Hr1).
    rewrite Register_range_cons, Hi. simpl.
    pose proof (defaultImpl_Register_cases c (attemptLogged m name c w1)) as Hcase.
    change (Describe c (attemptLogged m name c w1)) with (Describe c w1) in Hcase.
    rewrite Hd in Hcase. rewrite Hcase. clear Hcase.
    change (DefaultRegisterer (attemptLogged m name c w1)) with (DefaultRegisterer w1).
    rewrite (registerDesc_already c0 c d _ Htaken1). simpl. reflexivity.
  - intros n c' Hin. destruct (Hreg n c' Hin) as (d' & Hd' & Hnone & Hra).
    exists d'. split_and!; [|done|done].
    apply (valid_entry m w n c' d' Hv); [by apply Hpre_in | done].
  - intros n d' Hnd' Hin. simpl.
    apply (registeredAll_keeps_unknown m pre w w1 d' Hi Hr1).
    + intros n2 c2 d2 Hin2 Hd2 E.
      pose proof (valid_entry m w n2 c2 d2 Hv (Hpre_in n2 c2 Hin2) Hd2) as Hnd2.
      pose proof (namedDescs_injective n n2 d' d2 Hnd' Hnd2 E) as ->.
      apply (Hdisj n2); [|by right].
      apply list_elem_of_fmap. exists (n2, c2). done.
    + apply (Hothers n d' Hnd'). intros ->. done.
Qed.

(** C9: [Register] is not atomic.  Whenever [Register] over the default
    adapter returns an error, the instruments it visited before the one
    that failed (all of which the adapter accepted, and none of which the
    registry held when [Register] began) are in the registry when
    [Register] returns: the registry at the return is the registry as it
    was right after the last successful registration, nothing is undone
    and nothing older is taken out.  Which instruments these are is
    decided by the order in which the run sees the map: where one of the
    four descriptors is taken and the others are unknown, every order
    registers exactly the instruments it puts before the taken one and
    none of those after it, so two orders leave different collectors
    registered in one and the same state. *)
Theorem Register_failure_keeps_earlier (m : Metrics) (order : list (string * Collector))
    (w : World) :
  m_impl m = defaultImpl → range_order m order →
  (∀ e w',
     Register m order w = Ret (Some e) w' →
     ∃ pre name c post w1 e0 w2,
       order = (pre ++ (name, c) :: post)%list
       ∧ registeredAll m pre w w1
       ∧ impl_Register (m_impl m) c (attemptLogged m name c w1) = Ret (Some e0) w2
       ∧ e = withStack (withMessage e0 ("register collector for " +:+ name +:+ " metric"))
       ∧ (∀ n c', (n, c') ∈ pre →
            ∃ d, Describe c' w = Some d
                 ∧ collectorsByID (DefaultRegisterer w) !! descID d = None
                 ∧ registeredAs c' d (DefaultRegisterer w'))
       ∧ DefaultRegisterer w' = DefaultRegisterer w1
       ∧ registry_le (DefaultRegisterer w) (DefaultRegisterer w'))
  ∧ (valid m w →
     ∀ pre name c post c0 d,
       order = (pre ++ (name, c) :: post)%list →
       (name, d) ∈ namedDescs →
       registeredAs c0 d (DefaultRegisterer w) →
       (∀ n d', (n, d') ∈ namedDescs → n ≠ name → unknownDesc d' (DefaultRegisterer w)) →
       ∃ w',
         Register m order w
         = Ret (Some (withStack (withMessage (AlreadyRegisteredError c0 c)
                                   ("register collector for " +:+ name +:+ " metric")))) w'
         ∧ (∀ n c', (n, c') ∈ pre →
              ∃ d', (n, d') ∈ namedDescs
                    ∧ collectorsByID (DefaultRegisterer w) !! descID d' = None
                    ∧ registeredAs c' d' (DefaultRegisterer w'))
         ∧ (∀ n d', (n, d') ∈ namedDescs → n ∈ post.*1 →
              unknownDesc d' (DefaultRegisterer w')))
  ∧ (∃ o1 o2 e1 e2 w1 w2 c,
       range_order freshMetrics o1 ∧ range_order freshMetrics o2
       ∧ Register freshMetrics o1 takenWorld = Ret (Some e1) w1
       ∧ Register freshMetrics o2 takenWorld = Ret (Some e2) w2
       ∧ registered c w1 ∧ ¬ registered c w2).
Proof.
  intros Hi Hp. split_and!.
  - intros e w' Hr.
    apply Register_range_Some in Hr
      as (pre & name & c & post & w1 & e0 & w2 & -> & Hpre & Hf & -> & ->).
    exists pre, name, c, post, w1, e0, w2.
    destruct (registeredAll_default m pre w w1 Hi Hpre) as (_ & Hle & Hreg).
    pose proof Hf as Hf'. rewrite Hi in Hf'. simpl in Hf'.
    apply defaultImpl_Register_Some in Hf'. simpl in Hf'.
    split_and!; try done.
    + intros n c' Hin. destruct (Hreg n c' Hin) as (d & Hd & Hn & Hra).
      exists d. simpl. by rewrite Hf'.
    + simpl. by rewrite Hf'.
  - intros Hv pre name c post c0 d -> Hnd Htaken Hothers.
    by apply (Register_fails_at_taken m w pre post name c c0 d).
  - exists (collectors freshMetrics).
    exists [ (metricNameComplianceScanStatus, CounterVecPtr 1);
             (metricNameComplianceScanError, CounterVecPtr 0);
             (metricNameComplianceRemediationStatus, CounterVecPtr 2);
             (metricNameComplianceStateGauge, GaugeVecPtr 0) ].
    do 2 eexists.
    exists (outcome_world (Register freshMetrics (collectors freshMetrics) takenWorld)).
    exists (outcome_world
              (Register freshMetrics
                 [ (metricNameComplianceScanStatus, CounterVecPtr 1);
                   (metricNameComplianceScanError, CounterVecPtr 0);
                   (metricNameComplianceRemediationStatus, CounterVecPtr 2);
                   (metricNameComplianceStateGauge, GaugeVecPtr 0) ] takenWorld)).
    exists (CounterVecPtr 0). split_and!.
    + unfold range_order. reflexivity.
    + unfold range_order. apply perm_swap.
    + vm_compute. reflexivity.
    + vm_compute. reflexivity.
    + exists "compliance_operator_compliance_scan_error_total". vm_compute. reflexivity.
    + intros [i H].
      assert (E : collectorsByID
                    (DefaultRegisterer
                       (outcome_world
                          (Register freshMetrics
                             [ (metricNameComplianceScanStatus, CounterVecPtr 1);
                               (metricNameComplianceScanError, CounterVecPtr 0);
                               (metricNameComplianceRemediationStatus, CounterVecPtr 2);
                               (metricNameComplianceStateGauge, GaugeVecPtr 0) ]
                             takenWorld)))
                  = {[ "compliance_operator_compliance_scan_status_total"
                       := CounterVecPtr 4 ]}) by (vm_compute; reflexivity).
      rewrite E in H. apply lookup_singleton_Some in H as [_ H]. discriminate H.
Qed.

Lemma Register_failure_keeps_earlier_witness :
  m_impl freshMetrics = defaultImpl
  ∧ range_order freshMetrics (collectors freshMetrics)
  ∧ valid freshMetrics takenWorld
  ∧ ∃ w',
      Register freshMetrics (collectors freshMetrics) takenWorld
      = Ret (Some (withStack
                     (withMessage (AlreadyRegisteredError (CounterVecPtr 4) (CounterVecPtr 1))
                        "register collector for compliance_scan_status_total metric"))) w'
      ∧ ∃ d', (metricNameComplianceScanError, d') ∈ namedDescs
              ∧ collectorsByID (DefaultRegisterer takenWorld) !! descID d' = None
              ∧ registeredAs (CounterVecPtr 0) d' (DefaultRegisterer w').
Proof.
  assert (Hp : range_order freshMetrics (collectors freshMetrics))
    by (unfold range_order; reflexivity).
  assert (Hv : valid freshMetrics takenWorld) by (split; reflexivity).
  split_and!; [reflexivity | exact Hp | exact Hv |].
  destruct (Register_failure_keeps_earlier freshMetrics (collectors freshMetrics)
              takenWorld eq_refl Hp) as (_ & HB & _).
  destruct (HB Hv [(metricNameComplianceScanError, CounterVecPtr 0)]
              metricNameComplianceScanStatus (CounterVecPtr 1)
              [(metricNameComplianceRemediationStatus, CounterVecPtr 2);
               (metricNameComplianceStateGauge, GaugeVecPtr 0)]
              (CounterVecPtr 4) (NewDesc scanStatusOpts scanStatusLabels))
    as (w' & Hr & Hpre & _).
  - reflexivity.
  - unfold namedDescs. right. left.
  - split; vm_compute; reflexivity.
  - intros n d' Hnd Hne. unfold namedDescs in Hnd.
    apply list_elem_of_In in Hnd. simpl in Hnd.
    destruct Hnd as [H|[H|[H|[H|[]]]]]; injection H as <- <-;
      first [by destruct Hne
            | split_and!;
              [refine (bool_decide_unpack _ _); vm_compute; exact I
              | vm_compute; reflexivity | vm_compute; reflexivity]].
  - exists w'. split; [exact Hr|].
    apply (Hpre metricNameComplianceScanError (CounterVecPtr 0)). left.
Defined.

Lemma counterValue_sameVecs (w w' : World) (q : nat) (k : list string) :
  counterVecs w' = counterVecs w → counterValue w' q k = counterValue w q k.
Proof. intros E. unfold counterValue. by rewrite E. Qed.

(** C5: on a reporter made by [New], after any sequence of calls the
    scan-status counter of (name, phase, result) reads the number of
    [IncComplianceScanStatus] calls for that tuple in the sequence,
    whatever other calls are interleaved.  No counter of the process ever
    goes down: not along the sequence, and not through [Register],
    [Start] or another [New], which leave every existing counter as it
    is. *)
Theorem scanStatus_counts_calls (w0 : World) (m : Metrics) (w : World) (cs : list Call)
    (name phase result : string) :
  New w0 = Ret m w →
  ∃ w', calls m cs w = Ret tt w'
    ∧ scanStatusCounter m w' name phase result
      = N.of_nat (countIncScan name phase result cs)
    ∧ (∀ pre post, cs = (pre ++ post)%list →
         ∃ w1, calls m pre w = Ret tt w1 ∧ calls m post w1 = Ret tt w'
               ∧ ∀ q k, (counterValue w1 q k ≤ counterValue w' q k)%N)
    ∧ (∀ order q k,
         counterValue (outcome_world (Register m order w')) q k = counterValue w' q k)
    ∧ (∀ DefaultTLSVersion DefaultCiphers ctx evs q k,
         counterValue
           (state_world (Start DefaultTLSVersion DefaultCiphers m ctx evs w')) q k
         = counterValue w' q k)
    ∧ (∀ q k, q < length (counterVecs w') →
         counterValue (outcome_world (New w')) q k = counterValue w' q k).
Proof.
  intros HN. destruct (New_valid w0 m w HN) as (Hv & Hi & _ & _ & Hz & _).
  destruct (calls_spec m cs w Hv) as (w' & Hr & Hv' & Hc & _ & _).
  exists w'. split_and!.
  - exact Hr.
  - rewrite Hc. unfold scanStatusCounter at 1. rewrite Hz. lia.
  - intros pre post ->.
    destruct (calls_spec m pre w Hv) as (w1 & Hr1 & Hv1 & _).
    destruct (calls_spec m post w1 Hv1) as (w2 & Hr2 & _ & _ & _ & Hm).
    rewrite calls_app in Hr. erewrite bind_Ret in Hr by exact Hr1.
    rewrite Hr2 in Hr. injection Hr as <-. eauto.
  - intros order q k.
    destruct (Register_range_frame m order Hi w') as ([E _] & _).
    by apply counterValue_sameVecs.
  - intros tlsv ciphers ctx evs q k.
    destruct (Start_binds tlsv ciphers m ctx evs w') as (E & _).
    by apply counterValue_sameVecs.
  - intros q k Hq. destruct (New_returns w') as (w2 & HN2 & _).
    destruct (New_valid w' _ w2 HN2) as (_ & _ & Hold & _).
    rewrite HN2. simpl. by apply Hold.
Qed.

Lemma scanStatus_counts_calls_witness :
  New emptyWorld = Ret freshMetrics freshWorld
  ∧ ∃ w', calls freshMetrics
            [IncScan "scan-a" (mkScanStatus "RUNNING" "NOT-AVAILABLE" "");
             IncScan "scan-b" (mkScanStatus "DONE" "COMPLIANT" "");
             SetState StateInCompliance "suite";
             IncScan "scan-a" (mkScanStatus "DONE" "COMPLIANT" "");
             IncRemediation "rem-a" (mkRemediationStatus "Applied");
             IncScan "scan-a" (mkScanStatus "DONE" "COMPLIANT" "late error")]
            freshWorld = Ret tt w'
          ∧ scanStatusCounter freshMetrics w' "scan-a" "DONE" "COMPLIANT" = 2%N.
Proof.
  split; [reflexivity|].
  destruct (scanStatus_counts_calls emptyWorld freshMetrics freshWorld
              [IncScan "scan-a" (mkScanStatus "RUNNING" "NOT-AVAILABLE" "");
               IncScan "scan-b" (mkScanStatus "DONE" "COMPLIANT" "");
               SetState StateInCompliance "suite";
               IncScan "scan-a" (mkScanStatus "DONE" "COMPLIANT" "");
               IncRemediation "rem-a" (mkRemediationStatus "Applied");
               IncScan "scan-a" (mkScanStatus "DONE" "COMPLIANT" "late error")]
              "scan-a" "DONE" "COMPLIANT" eq_refl)
    as (w' & Hr & Hc & _).
  exists w'. split; [exact Hr | exact Hc].
Defined.

(** * Further properties of the package *)

(** ** The remediation counter and the scan-error counter *)

Lemma effect_remediation (m : Metrics) (c : Call) (w : World) (n s : string) :
  valid m w →
  remediationStatusCounter m (effect m c w) n s
  = (remediationStatusCounter m w n s
     + N.of_nat (if isIncRemediation n s c then 1 else 0))%N.
Proof.
  intros Hv. pose proof Hv as [H1 H2 H3 H4].
  destruct (valid_distinct m w Hv) as (D1 & D2 & D3).
  unfold remediationStatusCounter. destruct c as [name st|name st|st name]; simpl.
  - destruct (decide (0 < String.length (ErrorMessage st))).
    + rewrite counterValue_bump.
      2:{ unfold bump, set_counterVecs; simpl. rewrite list_lookup_alter_ne by done.
          by eapply valid_is_Some_counter. }
      rewrite decide_False by (intros [? ?]; done).
      rewrite counterValue_bump by by eapply valid_is_Some_counter.
      rewrite decide_False by (intros [? ?]; done). lia.
    + rewrite counterValue_bump by by eapply valid_is_Some_counter.
      rewrite decide_False by (intros [? ?]; done). lia.
  - rewrite counterValue_bump by by eapply valid_is_Some_counter.
    case_decide as Hd; case_bool_decide as Hb; simpl; try lia.
    + destruct Hd as [_ Hd]. injection Hd as ? ?. by destruct Hb.
    + destruct Hb as (? & ?). subst. by destruct Hd.
  - rewrite counterValue_setGauge. lia.
Qed.

Lemma effect_scanError (m : Metrics) (c : Call) (w : World) (n : string) :
  valid m w →
  scanErrorCounter m (effect m c w) n
  = (scanErrorCounter m w n + N.of_nat (if isScanError n c then 1 else 0))%N.
Proof.
  intros Hv. pose proof Hv as [H1 H2 H3 H4].
  destruct (valid_distinct m w Hv) as (D1 & D2 & D3).
  unfold scanErrorCounter. destruct c as [name st|name st|st name]; simpl.
  - destruct (decide (0 < String.length (ErrorMessage st))) as [Hl|Hl].
    + rewrite counterValue_bump.
      2:{ unfold bump, set_counterVecs; simpl. rewrite list_lookup_alter_ne by done.
          by eapply valid_is_Some_counter. }
      rewrite counterValue_bump by by eapply valid_is_Some_counter.
      rewrite (decide_False (P := _ ∧ [name; _; _] = [n])) by (intros [? ?]; done).
      apply length_pos_nonempty in Hl.
      case_decide as Hd; case_bool_decide as Hb; simpl; try lia.
      * destruct Hd as [_ Hd]. injection Hd as ?. by destruct Hb.
      * destruct Hb as (? & ?). subst. by destruct Hd.
    + rewrite counterValue_bump by by eapply valid_is_Some_counter.
      rewrite decide_False by (intros [? ?]; done).
      rewrite bool_decide_eq_false_2; [simpl; lia|].
      intros [_ E]. apply Hl. by apply length_pos_nonempty.
  - rewrite counterValue_bump by by eapply valid_is_Some_counter.
    rewrite decide_False by (intros [? ?]; done). lia.
  - rewrite counterValue_setGauge. lia.
Qed.

(** A reading that every call moves by 0 or 1 counts the calls that move
    it. *)
Lemma calls_count (m : Metrics) (read : World → N) (f : Call → bool) :
  (∀ c w, valid m w →
     read (effect m c w) = (read w + N.of_nat (if f c then 1 else 0))%N) →
  ∀ cs w, valid m w →
    ∃ w', calls m cs w = Ret tt w' ∧ valid m w'
          ∧ read w' = (read w + N.of_nat (countCalls f cs))%N.
Proof.
  intros Hstep. induction cs as [|c cs IH]; intros w Hv.
  - exists w. split_and!; [done..|simpl; lia].
  - destruct (IH (effect m c w) (valid_effect m c w Hv)) as (w' & Hr & Hv' & Hc).
    exists w'. rewrite calls_cons by done. split_and!; [done..|].
    rewrite Hc, Hstep by done. simpl. destruct (f c); lia.
Qed.

Lemma countCalls_app (f : Call → bool) (cs1 cs2 : list Call) :
  countCalls f (cs1 ++ cs2) = countCalls f cs1 + countCalls f cs2.
Proof. induction cs1 as [|c cs1 IH]; simpl; [done|]. rewrite IH. lia. Qed.

(** X1: on a valid reporter one call of [IncComplianceRemediationStatus]
    returns normally and adds exactly 1 to the remediation-status counter
    of (name, application state); every other remediation tuple, every
    scan-status and scan-error counter and every gauge keeps its value,
    and the registry and the mux are untouched. *)
Theorem IncComplianceRemediationStatus_increments (m : Metrics) (w : World)
    (name : string) (status : ComplianceRemediationStatus) :
  valid m w →
  ∃ w', IncComplianceRemediationStatus m name status w = Ret tt w'
    ∧ remediationStatusCounter m w' name (ApplicationState status)
      = (remediationStatusCounter m w name (ApplicationState status) + 1)%N
    ∧ (∀ n s, (n, s) ≠ (name, ApplicationState status) →
         remediationStatusCounter m w' n s = remediationStatusCounter m w n s)
    ∧ (∀ n p r, scanStatusCounter m w' n p r = scanStatusCounter m w n p r)
    ∧ (∀ n, scanErrorCounter m w' n = scanErrorCounter m w n)
    ∧ (∀ n, complianceStateGauge m w' n = complianceStateGauge m w n)
    ∧ DefaultRegisterer w' = DefaultRegisterer w
    ∧ DefaultServeMux w' = DefaultServeMux w.
Proof.
  intros Hv. exists (effect m (IncRemediation name status) w).
  split; [exact (call_effect m (IncRemediation name status) w Hv)|].
  split_and!.
  - rewrite effect_remediation by done. simpl.
    rewrite bool_decide_eq_true_2 by done. simpl. lia.
  - intros n s Hne. rewrite effect_remediation by done. simpl.
    rewrite bool_decide_eq_false_2; [simpl; lia|]. intros [? ?]. subst. done.
  - intros n p r. rewrite effect_scanStatus by done. simpl. lia.
  - intros n. rewrite effect_scanError by done. simpl. lia.
  - intros n. by rewrite effect_gauge.
  - done.
  - done.
Qed.

Lemma IncComplianceRemediationStatus_increments_witness :
  valid freshMetrics freshWorld
  ∧ ∃ w', IncComplianceRemediationStatus freshMetrics "rem-a"
            (mkRemediationStatus "Applied") freshWorld = Ret tt w'
          ∧ remediationStatusCounter freshMetrics w' "rem-a" "Applied" = 1%N.
Proof.
  assert (Hv : valid freshMetrics freshWorld) by (split; reflexivity).
  split; [exact Hv|].
  destruct (IncComplianceRemediationStatus_increments freshMetrics freshWorld "rem-a"
              (mkRemediationStatus "Applied") Hv) as (w' & Hr & Hc & _).
  exists w'. split; [exact Hr | exact Hc].
Defined.

(** X2: on a reporter made by [New], after any sequence of calls the
    remediation-status counter of (name, state) reads the number of
    [IncComplianceRemediationStatus] calls for that pair in the sequence,
    whatever else is interleaved. *)
Theorem remediationStatus_counts_calls (w0 : World) (m : Metrics) (w : World)
    (cs : list Call) (name state : string) :
  New w0 = Ret m w →
  ∃ w', calls m cs w = Ret tt w'
    ∧ remediationStatusCounter m w' name state
      = N.of_nat (countCalls (isIncRemediation name state) cs).
Proof.
  intros HN. destruct (New_valid w0 m w HN) as (Hv & _ & _ & _ & _ & Hz & _).
  destruct (calls_count m (λ w, remediationStatusCounter m w name state)
              (isIncRemediation name state)
              (λ c w Hw, effect_remediation m c w name state Hw) cs w Hv)
    as (w' & Hr & _ & Hc).
  exists w'. split; [exact Hr|]. rewrite Hc.
  unfold remediationStatusCounter. rewrite Hz. lia.
Qed.

Lemma remediationStatus_counts_calls_witness :
  New emptyWorld = Ret freshMetrics freshWorld
  ∧ ∃ w', calls freshMetrics
            [IncRemediation "rem-a" (mkRemediationStatus "applied");
             IncRemediation "rem-a" (mkRemediationStatus "error");
             IncScan "scan-a" (mkScanStatus "DONE" "COMPLIANT" "");
             IncRemediation "rem-a" (mkRemediationStatus "applied")]
            freshWorld = Ret tt w'
          ∧ remediationStatusCounter freshMetrics w' "rem-a" "applied" = 2%N.
Proof.
  split; [reflexivity|].
  destruct (remediationStatus_counts_calls emptyWorld freshMetrics freshWorld
              [IncRemediation "rem-a" (mkRemediationStatus "applied");
               IncRemediation "rem-a" (mkRemediationStatus "error");
               IncScan "scan-a" (mkScanStatus "DONE" "COMPLIANT" "");
               IncRemediation "rem-a" (mkRemediationStatus "applied")]
              "rem-a" "applied" eq_refl) as (w' & Hr & Hc).
  exists w'. split; [exact Hr | exact Hc].
Defined.

(** X3: on a reporter made by [New], after any sequence of calls the
    scan-error counter of a scan reads the number of
    [IncComplianceScanStatus] calls for that scan that carried a non-empty
    error message, whatever their phase and result. *)
Theorem scanError_counts_calls (w0 : World) (m : Metrics) (w : World)
    (cs : list Call) (name : string) :
  New w0 = Ret m w →
  ∃ w', calls m cs w = Ret tt w'
    ∧ scanErrorCounter m w' name = N.of_nat (countCalls (isScanError name) cs).
Proof.
  intros HN. destruct (New_valid w0 m w HN) as (Hv & _ & _ & Hz & _).
  destruct (calls_count m (λ w, scanErrorCounter m w name) (isScanError name)
              (λ c w Hw, effect_scanError m c w name Hw) cs w Hv)
    as (w' & Hr & _ & Hc).
  exists w'. split; [exact Hr|]. rewrite Hc.
  unfold scanErrorCounter. rewrite Hz. lia.
Qed.

Lemma scanError_counts_calls_witness :
  New emptyWorld = Ret freshMetrics freshWorld
  ∧ ∃ w', calls freshMetrics
            [IncScan "scan-a" (mkScanStatus "RUNNING" "NOT-AVAILABLE" "");
             IncScan "scan-a" (mkScanStatus "DONE" "ERROR" "timeout");
             IncScan "scan-b" (mkScanStatus "DONE" "ERROR" "timeout");
             IncScan "scan-a" (mkScanStatus "AGGREGATING" "ERROR" "no results")]
            freshWorld = Ret tt w'
          ∧ scanErrorCounter freshMetrics w' "scan-a" = 2%N.
Proof.
  split; [reflexivity|].
  destruct (scanError_counts_calls emptyWorld freshMetrics freshWorld
              [IncScan "scan-a" (mkScanStatus "RUNNING" "NOT-AVAILABLE" "");
               IncScan "scan-a" (mkScanStatus "DONE" "ERROR" "timeout");
               IncScan "scan-b" (mkScanStatus "DONE" "ERROR" "timeout");
               IncScan "scan-a" (mkScanStatus "AGGREGATING" "ERROR" "no results")]
              "scan-a" eq_refl) as (w' & Hr & Hc).
  exists w'. split; [exact Hr | exact Hc].
Defined.

(** ** Setters, construction and independent reporters *)

Lemma counterValue_bump_ne (p : nat) (key : list string) (w : World) (q : nat)
    (k : list string) :
  p ≠ q → counterValue (bump p key w) q k = counterValue w q k.
Proof.
  intros Hne. unfold counterValue, bump, set_counterVecs. simpl.
  by rewrite list_lookup_alter_ne.
Qed.

Lemma gaugeValue_setGauge_ne (p : nat) (key : list string) (val : Z) (w : World)
    (q : nat) (k : list string) :
  p ≠ q → gaugeValue (setGauge p key val w) q k = gaugeValue w q k.
Proof.
  intros Hne. unfold gaugeValue, setGauge, set_gaugeVecs. simpl.
  by rewrite list_lookup_alter_ne.
Qed.

Lemma effect_other_counter (m : Metrics) (c : Call) (w : World) (q : nat)
    (k : list string) :
  ¬ ownsCounter m q → counterValue (effect m c w) q k = counterValue w q k.
Proof.
  unfold ownsCounter. intros Hn. destruct c as [n st|n st|s n]; simpl.
  - case_decide; rewrite !counterValue_bump_ne; try done;
      intros E; subst q; apply Hn; auto.
  - rewrite counterValue_bump_ne; [done|]. intros E. subst q. apply Hn. auto.
  - done.
Qed.

Lemma effect_other_gauge (m : Metrics) (c : Call) (w : World) (q : nat)
    (k : list string) :
  q ≠ metricComplianceStateGauge (m_metrics m) →
  gaugeValue (effect m c w) q k = gaugeValue w q k.
Proof.
  intros Hn. destruct c as [n st|n st|s n]; simpl.
  - by case_decide.
  - done.
  - by rewrite gaugeValue_setGauge_ne.
Qed.

Lemma calls_other (m : Metrics) (cs : list Call) :
  ∀ w, valid m w →
    ∃ w', calls m cs w = Ret tt w' ∧ valid m w'
          ∧ (∀ q k, ¬ ownsCounter m q → counterValue w' q k = counterValue w q k)
          ∧ (∀ q k, q ≠ metricComplianceStateGauge (m_metrics m) →
               gaugeValue w' q k = gaugeValue w q k).
Proof.
  induction cs as [|c cs IH]; intros w Hv.
  - exists w. by split_and!.
  - destruct (IH (effect m c w) (valid_effect m c w Hv)) as (w' & Hr & Hv' & Hc & Hg).
    exists w'. rewrite calls_cons by done. split_and!; [done..| |].
    + intros q k Hq. by rewrite Hc, effect_other_counter.
    + intros q k Hq. by rewrite Hg, effect_other_gauge.
Qed.

(** X4: on a valid reporter each of the four compliance-state setters
    returns normally, sets the gauge of the named suite to its ordinal,
    and changes nothing else: the gauge of every other suite, every
    counter of the process, the registry and the mux stay as they are. *)
Theorem setComplianceState_frame (m : Metrics) (w : World) (s : Setter) (name : string) :
  valid m w →
  ∃ w', setComplianceState s m name w = Ret tt w'
    ∧ complianceStateGauge m w' name = Some (ordinal s)
    ∧ (∀ n, n ≠ name → complianceStateGauge m w' n = complianceStateGauge m w n)
    ∧ (∀ q k, counterValue w' q k = counterValue w q k)
    ∧ DefaultRegisterer w' = DefaultRegisterer w
    ∧ DefaultServeMux w' = DefaultServeMux w.
Proof.
  intros Hv. exists (effect m (SetState s name) w).
  split; [exact (call_effect m (SetState s name) w Hv)|].
  split_and!; try done.
  - rewrite effect_gauge by done. by rewrite decide_True.
  - intros n Hn. rewrite effect_gauge by done. by rewrite decide_False.
Qed.

Lemma setComplianceState_frame_witness :
  valid freshMetrics freshWorld
  ∧ ∃ w', SetComplianceStateInconsistent freshMetrics "suite-a" freshWorld = Ret tt w'
          ∧ complianceStateGauge freshMetrics w' "suite-a" = Some 2%Z
          ∧ complianceStateGauge freshMetrics w' "suite-b" = None.
Proof.
  assert (Hv : valid freshMetrics freshWorld) by (split; reflexivity).
  split; [exact Hv|].
  destruct (setComplianceState_frame freshMetrics freshWorld StateInconsistent
              "suite-a" Hv) as (w' & Hr & Hg & Ho & _).
  exists w'. split; [exact Hr|]. split; [exact Hg|].
  rewrite (Ho "suite-b"); [reflexivity | discriminate].
Defined.

Lemma New_gauges_kept (w0 : World) (m : Metrics) (w : World) (q : nat)
    (k : list string) :
  New w0 = Ret m w → q < length (gaugeVecs w0) → gaugeValue w q k = gaugeValue w0 q k.
Proof.
  intros HN Hq. destruct (New_returns w0) as (w1 & HN1 & _ & Hg & _).
  rewrite HN1 in HN. injection HN as _ <-.
  unfold gaugeValue. rewrite Hg. by rewrite lookup_app_l.
Qed.

(** X5: [New] (through [NewMetrics] and [DefaultControllerMetrics]) always
    returns a reporter over the default adapter whose four instruments are
    new and empty: every counter of the new reporter reads 0 and its gauge
    has no value.  Every vector that existed before keeps its readings,
    and the registry and the mux are untouched: construction registers
    nothing. *)
Theorem New_is_fresh (w0 : World) :
  ∃ m w, New w0 = Ret m w
    ∧ m_impl m = defaultImpl
    ∧ valid m w
    ∧ (∀ n p r, scanStatusCounter m w n p r = 0%N)
    ∧ (∀ n, scanErrorCounter m w n = 0%N)
    ∧ (∀ n s, remediationStatusCounter m w n s = 0%N)
    ∧ (∀ n, complianceStateGauge m w n = None)
    ∧ (∀ q k, q < length (counterVecs w0) → counterValue w q k = counterValue w0 q k)
    ∧ (∀ q k, q < length (gaugeVecs w0) → gaugeValue w q k = gaugeValue w0 q k)
    ∧ DefaultRegisterer w = DefaultRegisterer w0
    ∧ DefaultServeMux w = DefaultServeMux w0.
Proof.
  destruct (New_returns w0) as (w & HN & _).
  exists (newMetricsAt w0), w. split; [exact HN|].
  destruct (New_valid w0 _ w HN) as (Hv & Hi & Hold & Z1 & Z2 & Z3 & Z4).
  destruct (New_frame w0 _ w HN) as [R M].
  split_and!; try done.
  - intros n p r. apply Z2.
  - intros n. apply Z1.
  - intros n s. apply Z3.
  - intros n. apply Z4.
  - intros q k Hq. by eapply New_gauges_kept.
Qed.

Lemma New_pointers (w0 : World) (m : Metrics) (w : World) :
  New w0 = Ret m w →
  m = newMetricsAt w0
  ∧ length (counterVecs w) = length (counterVecs w0) + 3
  ∧ length (gaugeVecs w) = length (gaugeVecs w0) + 1.
Proof.
  intros HN. destruct (New_returns w0) as (w1 & HN1 & Hc & Hg & _).
  rewrite HN1 in HN. injection HN as <- <-.
  split; [done|]. rewrite Hc, Hg, !length_app. simpl. lia.
Qed.

(** X6: two reporters built one after the other share no instrument.
    Any sequence of calls on one of them returns normally and leaves
    every counter and the gauge of the other exactly as they were. *)
Theorem reporters_are_independent (w0 : World) (m1 : Metrics) (w1 : World)
    (m2 : Metrics) (w2 : World) (cs : list Call) :
  New w0 = Ret m1 w1 → New w1 = Ret m2 w2 →
  (∃ w', calls m2 cs w2 = Ret tt w'
     ∧ (∀ n p r, scanStatusCounter m1 w' n p r = scanStatusCounter m1 w2 n p r)
     ∧ (∀ n, scanErrorCounter m1 w' n = scanErrorCounter m1 w2 n)
     ∧ (∀ n s, remediationStatusCounter m1 w' n s = remediationStatusCounter m1 w2 n s)
     ∧ (∀ n, complianceStateGauge m1 w' n = complianceStateGauge m1 w2 n))
  ∧ (∃ w', calls m1 cs w2 = Ret tt w'
     ∧ (∀ n p r, scanStatusCounter m2 w' n p r = scanStatusCounter m2 w2 n p r)
     ∧ (∀ n, scanErrorCounter m2 w' n = scanErrorCounter m2 w2 n)
     ∧ (∀ n s, remediationStatusCounter m2 w' n s = remediationStatusCounter m2 w2 n s)
     ∧ (∀ n, complianceStateGauge m2 w' n = complianceStateGauge m2 w2 n)).
Proof.
  intros HN1 HN2.
  destruct (New_valid w0 m1 w1 HN1) as (Hv1 & _).
  destruct (New_valid w1 m2 w2 HN2) as (Hv2 & _).
  pose proof (New_preserves_valid m1 m2 w1 w2 Hv1 HN2) as Hv12.
  destruct (New_pointers w0 m1 w1 HN1) as (-> & L1 & G1).
  destruct (New_pointers w1 m2 w2 HN2) as (-> & L2 & G2).
  split.
  - destruct (calls_other (newMetricsAt w1) cs w2 Hv2) as (w' & Hr & _ & Hc & Hg).
    exists w'. split; [exact Hr|].
    unfold scanStatusCounter, scanErrorCounter, remediationStatusCounter,
      complianceStateGauge.
    split_and!; intros; first [apply Hc | apply Hg];
      unfold ownsCounter, newMetricsAt; simpl; lia.
  - destruct (calls_other (newMetricsAt w0) cs w2 Hv12) as (w' & Hr & _ & Hc & Hg).
    exists w'. split; [exact Hr|].
    unfold scanStatusCounter, scanErrorCounter, remediationStatusCounter,
      complianceStateGauge.
    split_and!; intros; first [apply Hc | apply Hg];
      unfold ownsCounter, newMetricsAt; simpl; lia.
Qed.

Lemma reporters_are_independent_witness :
  New emptyWorld = Ret freshMetrics freshWorld
  ∧ New freshWorld = Ret secondMetrics twoReporters
  ∧ ∃ w', calls secondMetrics
            [IncScan "scan-a" (mkScanStatus "DONE" "COMPLIANT" "");
             SetState StateError "suite-a"] twoReporters = Ret tt w'
          ∧ scanStatusCounter freshMetrics w' "scan-a" "DONE" "COMPLIANT"
            = scanStatusCounter freshMetrics twoReporters "scan-a" "DONE" "COMPLIANT"
          ∧ complianceStateGauge freshMetrics w' "suite-a"
            = complianceStateGauge freshMetrics twoReporters "suite-a".
Proof.
  split; [reflexivity|]. split; [reflexivity|].
  destruct (reporters_are_independent emptyWorld freshMetrics freshWorld
              secondMetrics twoReporters
              [IncScan "scan-a" (mkScanStatus "DONE" "COMPLIANT" "");
               SetState StateError "suite-a"] eq_refl eq_refl)
    as [(w' & Hr & Hs & _ & _ & Hg) _].
  exists w'. split; [exact Hr|]. split; [apply Hs | apply Hg].
Defined.

(** ** Registration, serving and scrapes together *)

Lemma collectors_functional (m : Metrics) (name : string) (c c' : Collector) :
  (name, c) ∈ collectors m → (name, c') ∈ collectors m → c = c'.
Proof.
  unfold collectors. intros H1 H2. set_unfold in H1. set_unfold in H2.
  destruct H1 as [H1|[H1|[H1|[H1|[]]]]]; destruct H2 as [H2|[H2|[H2|[H2|[]]]]];
    apply pair_equal_spec in H1 as [-> ->]; apply pair_equal_spec in H2 as [E ->];
    first [done | by vm_compute in E].
Qed.

(** X7: [Register] is not idempotent on one reporter.  After a first
    [Register] that succeeded (default adapter, registry without the four
    descriptors), a second [Register] on the same reporter fails, in every
    iteration order, with the registry's [AlreadyRegisteredError] naming
    the same collector as existing and as new, wrapped with the name of
    that instrument; the registry stays as the first call left it. *)
Theorem Register_again_fails (m : Metrics) (o1 o2 : list (string * Collector))
    (w : World) :
  m_impl m = defaultImpl → valid m w → registryKnowsNone w →
  range_order m o1 → range_order m o2 →
  ∃ w1, Register m o1 w = Ret None w1
    ∧ ∃ name c w2,
        Register m o2 w1
        = Ret (Some (withStack (withMessage (AlreadyRegisteredError c c)
                                  ("register collector for " +:+ name +:+ " metric")))) w2
        ∧ (name, c) ∈ collectors m
        ∧ DefaultRegisterer w2 = DefaultRegisterer w1.
Proof.
  intros Hi Hv Hu Hp1 Hp2.
  destruct (Register_succeeds m o1 w Hi Hv Hp1 Hu) as (w1 & Hr & Hs & Hreg).
  exists w1. split; [exact Hr|].
  pose proof (valid_sameVecs m w w1 Hs Hv) as Hv1.
  destruct (Register_duplicate m m o2 w1 Hi Hv1 Hreg Hp2)
    as (name & c1 & c2 & w2 & H2 & Hin1 & Hin2 & Hsame).
  rewrite (collectors_functional m name c1 c2 Hin1 Hin2) in H2.
  exists name, c2, w2. by split_and!.
Qed.

Lemma Register_again_fails_witness :
  m_impl freshMetrics = defaultImpl
  ∧ valid freshMetrics freshWorld
  ∧ registryKnowsNone freshWorld
  ∧ ∃ w1, Register freshMetrics (collectors freshMetrics) freshWorld = Ret None w1
      ∧ ∃ name c w2,
          Register freshMetrics (rev (collectors freshMetrics)) w1
          = Ret (Some (withStack (withMessage (AlreadyRegisteredError c c)
                                    ("register collector for " +:+ name +:+ " metric")))) w2.
Proof.
  assert (Hv : valid freshMetrics freshWorld) by (split; reflexivity).
  assert (Hu : registryKnowsNone freshWorld).
  { unfold registryKnowsNone, reporterDescs.
    repeat (constructor; [split_and!; [apply not_elem_of_empty | reflexivity | reflexivity]|]).
    constructor. }
  assert (Hp1 : range_order freshMetrics (collectors freshMetrics))
    by (unfold range_order; reflexivity).
  assert (Hp2 : range_order freshMetrics (rev (collectors freshMetrics)))
    by (unfold range_order; symmetry; apply Permutation_rev).
  split_and!; [reflexivity | exact Hv | exact Hu |].
  destruct (Register_again_fails freshMetrics (collectors freshMetrics)
              (rev (collectors freshMetrics)) freshWorld eq_refl Hv Hu Hp1 Hp2)
    as (w1 & H1 & name & c & w2 & H2 & _).
  exists w1. split; [exact H1|]. exists name, c, w2. exact H2.
Defined.

(** X8: over the default adapter [Register] only ever adds to the
    registry.  However it ends (nil, an error, or a panic) and whatever
    list it ranges over, every counter and gauge vector and the mux are
    as they were, and every collector, dimension entry and descriptor id
    the registry held is still there. *)
Theorem Register_only_adds (m : Metrics) (order : list (string * Collector)) (w : World) :
  m_impl m = defaultImpl →
  counterVecs (outcome_world (Register m order w)) = counterVecs w
  ∧ gaugeVecs (outcome_world (Register m order w)) = gaugeVecs w
  ∧ DefaultServeMux (outcome_world (Register m order w)) = DefaultServeMux w
  ∧ (∀ id c, collectorsByID (DefaultRegisterer w) !! id = Some c →
       collectorsByID (DefaultRegisterer (outcome_world (Register m order w))) !! id
       = Some c)
  ∧ (∀ n h, dimHashesByName (DefaultRegisterer w) !! n = Some h →
       dimHashesByName (DefaultRegisterer (outcome_world (Register m order w))) !! n
       = Some h)
  ∧ descIDs (DefaultRegisterer w)
    ⊆ descIDs (DefaultRegisterer (outcome_world (Register m order w))).
Proof.
  intros Hi. destruct (Register_range_frame m order Hi w) as ([E1 E2] & (L1 & L2 & L3) & M).
  by split_and!.
Qed.

Lemma Register_only_adds_witness :
  m_impl freshMetrics = defaultImpl
  ∧ counterVecs (outcome_world (Register freshMetrics (collectors freshMetrics) conflictWorld))
    = counterVecs conflictWorld
  ∧ descIDs (DefaultRegisterer conflictWorld)
    ⊆ descIDs (DefaultRegisterer
                 (outcome_world
                    (Register freshMetrics (collectors freshMetrics) conflictWorld))).
Proof.
  split; [reflexivity|].
  destruct (Register_only_adds freshMetrics (collectors freshMetrics) conflictWorld eq_refl)
    as (H1 & _ & _ & _ & _ & H2).
  split; [exact H1 | exact H2].
Defined.

Lemma Start_step_mux (m : Metrics) (ctx : Context) (st : StartState) (ev : Event) :
  DefaultServeMux (state_world (Start_step m ctx st ev)) = DefaultServeMux (state_world st).
Proof.
  destruct st as [call w|o]; destruct ev as [c|err]; simpl; try done.
  rewrite Start_served_eq. simpl. by destruct err.
Qed.

Lemma fold_Start_step_mux (m : Metrics) (ctx : Context) (evs : list Event)
    (st : StartState) :
  DefaultServeMux (state_world (fold_left (Start_step m ctx) evs st))
  = DefaultServeMux (state_world st).
Proof.
  revert st. induction evs as [|ev evs IH]; intros st; simpl; [done|].
  by rewrite IH, Start_step_mux.
Qed.

(** X9: whatever happens to a call of [Start] (it serves, returns or
    panics), every counter and every gauge of the process reads what it
    read before, and on the mux [Start] binds [/metrics-co] and nothing
    else: every other pattern keeps its binding, and a handler already
    bound at [/metrics-co] stays bound. *)
Theorem Start_only_binds_its_path (DefaultTLSVersion : Z) (DefaultCiphers : list Z)
    (m : Metrics) (ctx : Context) (evs : list Event) (w : World) :
  (∀ q k,
     counterValue (state_world (Start DefaultTLSVersion DefaultCiphers m ctx evs w)) q k
     = counterValue w q k)
  ∧ (∀ q k,
       gaugeValue (state_world (Start DefaultTLSVersion DefaultCiphers m ctx evs w)) q k
       = gaugeValue w q k)
  ∧ (∀ pattern, pattern ≠ "/metrics-co" →
       DefaultServeMux (state_world (Start DefaultTLSVersion DefaultCiphers m ctx evs w))
         !! pattern
       = DefaultServeMux w !! pattern)
  ∧ DefaultServeMux (state_world (Start DefaultTLSVersion DefaultCiphers m ctx evs w))
      !! "/metrics-co"
    = Some (default promhttpHandler (DefaultServeMux w !! "/metrics-co")).
Proof.
  destruct (Start_binds DefaultTLSVersion DefaultCiphers m ctx evs w) as (E1 & E2 & _ & _).
  split_and!.
  - intros q k. unfold counterValue. by rewrite E1.
  - intros q k. unfold gaugeValue. by rewrite E2.
  - unfold Start; rewrite fold_Start_step_mux; unfold Start_begin.
    intros pattern Hne.
    destruct (DefaultServeMux w !! HandlerPath) as [h|] eqn:E.
    + by rewrite (Start_listen_bound _ _ m ctx w h E).
    + destruct (Start_listen_free DefaultTLSVersion DefaultCiphers m ctx w E)
        as (call & -> & _).
      simpl. by rewrite lookup_insert_ne.
  - unfold Start; rewrite fold_Start_step_mux; unfold Start_begin.
    destruct (DefaultServeMux w !! HandlerPath) as [h|] eqn:E.
    + rewrite (Start_listen_bound _ _ m ctx w h E). simpl.
      unfold HandlerPath in E. by rewrite E.
    + destruct (Start_listen_free DefaultTLSVersion DefaultCiphers m ctx w E)
        as (call & -> & _).
      simpl. unfold HandlerPath in E. rewrite E. simpl. apply lookup_insert_eq.
Qed.

Lemma samplesOf_elem {V} (toZ : V → Z) (d : Desc) (children : gmap (list string) V)
    (key : list string) (v : V) :
  children !! key = Some v →
  {| s_name := fqName d; s_labels := zip (variableLabels d) key; s_value := toZ v |}
  ∈ samplesOf toZ d children.
Proof.
  intros Hv. unfold samplesOf. apply list_elem_of_fmap.
  exists (key, v). split; [reflexivity|]. by apply elem_of_map_to_list.
Qed.

Lemma counter_sample_in_scrape (w : World) (p : nat) (d : Desc) (key : list string)
    (n : N) :
  registered (CounterVecPtr p) w →
  cv_desc <$> counterVecs w !! p = Some d →
  counterValue w p key = n → (0 < n)%N →
  {| s_name := fqName d; s_labels := zip (variableLabels d) key; s_value := Z.of_N n |}
  ∈ Gather w.
Proof.
  intros [id Hid] Hd Hn Hpos. eapply Gather_elem; [exact Hid|]. simpl.
  unfold counterValue in Hn. destruct (counterVecs w !! p) as [v|]; [|done].
  simpl in Hd. injection Hd as <-. apply samplesOf_elem.
  destruct (cv_children v !! key) as [n'|]; simpl in Hn; [by subst | lia].
Qed.

Lemma gauge_sample_in_scrape (w : World) (p : nat) (d : Desc) (key : list string)
    (val : Z) :
  registered (GaugeVecPtr p) w →
  gv_desc <$> gaugeVecs w !! p = Some d →
  gaugeValue w p key = Some val →
  {| s_name := fqName d; s_labels := zip (variableLabels d) key; s_value := val |}
  ∈ Gather w.
Proof.
  intros [i Hi] Hd Hn. eapply Gather_elem; [exact Hi|]. simpl.
  unfold gaugeValue in Hn. destruct (gaugeVecs w !! p) as [v|]; [|done].
  simpl in Hd. injection Hd as <-. by apply (samplesOf_elem id).
Qed.

Lemma countIncScan_countCalls (n p r : string) (cs : list Call) :
  countIncScan n p r cs = countCalls (isIncScan n p r) cs.
Proof. induction cs as [|c cs IH]; simpl; [done|]. by rewrite IH. Qed.

Lemma lastSetter_app (name : string) (cs1 cs2 : list Call) :
  lastSetter name (cs1 ++ cs2)
  = match lastSetter name cs2 with
    | Some s => Some s
    | None => lastSetter name cs1
    end.
Proof.
  induction cs1 as [|c cs1 IH]; simpl.
  - by destruct (lastSetter name cs2).
  - rewrite IH. by destruct (lastSetter name cs2).
Qed.

(** A reporter from [New] that is used, registered in a registry without
    its descriptors, and used again: the three runs succeed, the reporter
    stays valid and its four collectors are in the registry at the end. *)
Lemma use_register_use (w0 : World) (m : Metrics) (w : World) (cs1 : list Call)
    (order : list (string * Collector)) (cs2 : list Call) :
  New w0 = Ret m w → registryKnowsNone w0 → range_order m order →
  ∃ w1 w2 w3,
    calls m cs1 w = Ret tt w1 ∧ Register m order w1 = Ret None w2
    ∧ calls m cs2 w2 = Ret tt w3
    ∧ valid m w ∧ valid m w2 ∧ valid m w3
    ∧ sameVecs w1 w2
    ∧ (∀ name c, (name, c) ∈ collectors m → registered c w3).
Proof.
  intros HN Hu Hp.
  destruct (New_valid w0 m w HN) as (Hv & Hi & _).
  destruct (New_frame w0 m w HN) as [R0 _].
  destruct (calls_spec m cs1 w Hv) as (w1 & Hr1 & Hv1 & _).
  destruct (calls_frame m cs1 w w1 Hv Hr1) as [R1 _].
  assert (Hu1 : registryKnowsNone w1).
  { unfold registryKnowsNone in *. by rewrite R1, R0. }
  destruct (Register_succeeds m order w1 Hi Hv1 Hp Hu1) as (w2 & Hr2 & Hs & Hreg).
  pose proof (valid_sameVecs m w1 w2 Hs Hv1) as Hv2.
  destruct (calls_spec m cs2 w2 Hv2) as (w3 & Hr3 & Hv3 & _).
  destruct (calls_frame m cs2 w2 w3 Hv2 Hr3) as [R3 _].
  exists w1, w2, w3. split_and!; try done.
  intros name c Hin. destruct (Hreg name c Hin) as (d & _ & _ & [Hc _]).
  exists (descID d). by rewrite R3.
Qed.

Lemma use_register_use_count (m : Metrics) (w w1 w2 w3 : World) (cs1 cs2 : list Call)
    (read : World → N) (f : Call → bool) :
  (∀ c w, valid m w →
     read (effect m c w) = (read w + N.of_nat (if f c then 1 else 0))%N) →
  (∀ w w', sameVecs w w' → read w' = read w) →
  valid m w → valid m w2 → sameVecs w1 w2 →
  calls m cs1 w = Ret tt w1 → calls m cs2 w2 = Ret tt w3 →
  read w = 0%N →
  read w3 = N.of_nat (countCalls f (cs1 ++ cs2)).
Proof.
  intros Hstep Hsame Hv Hv2 Hs Hr1 Hr3 Hz.
  destruct (calls_count m read f Hstep cs1 w Hv) as (w1' & Hr1' & _ & Hc1).
  rewrite Hr1 in Hr1'. injection Hr1' as <-.
  destruct (calls_count m read f Hstep cs2 w2 Hv2) as (w3' & Hr3' & _ & Hc3).
  rewrite Hr3 in Hr3'. injection Hr3' as <-.
  rewrite Hc3, (Hsame w1 w2 Hs), Hc1, Hz, countCalls_app. lia.
Qed.

(** X10: end to end for the counters.  Build a reporter with [New], call
    it, [Register] it in a registry without its descriptors, call it
    again: all three runs succeed, and the scrape then holds, for every
    counter tuple observed at least once before or after the
    registration, one line with the fully-qualified instrument name, the
    label pairs in descriptor order and the total number of matching
    calls. *)
Theorem scrape_shows_counters (w0 : World) (m : Metrics) (w : World) (cs1 : list Call)
    (order : list (string * Collector)) (cs2 : list Call) :
  New w0 = Ret m w → registryKnowsNone w0 → range_order m order →
  ∃ w1 w2 w3,
    calls m cs1 w = Ret tt w1 ∧ Register m order w1 = Ret None w2
    ∧ calls m cs2 w2 = Ret tt w3
    ∧ (∀ n p r, 0 < countIncScan n p r (cs1 ++ cs2) →
         {| s_name := "compliance_operator_compliance_scan_status_total";
            s_labels := [("name", n); ("phase", p); ("result", r)];
            s_value := Z.of_nat (countIncScan n p r (cs1 ++ cs2)) |} ∈ Gather w3)
    ∧ (∀ n, 0 < countCalls (isScanError n) (cs1 ++ cs2) →
         {| s_name := "compliance_operator_compliance_scan_error_total";
            s_labels := [("name", n)];
            s_value := Z.of_nat (countCalls (isScanError n) (cs1 ++ cs2)) |} ∈ Gather w3)
    ∧ (∀ n s, 0 < countCalls (isIncRemediation n s) (cs1 ++ cs2) →
         {| s_name := "compliance_operator_compliance_remediation_status_total";
            s_labels := [("name", n); ("state", s)];
            s_value := Z.of_nat (countCalls (isIncRemediation n s) (cs1 ++ cs2)) |}
         ∈ Gather w3).
Proof.
  intros HN Hu Hp.
  destruct (use_register_use w0 m w cs1 order cs2 HN Hu Hp)
    as (w1 & w2 & w3 & Hr1 & Hr2 & Hr3 & Hv & Hv2 & Hv3 & Hs & Hreg).
  destruct (New_valid w0 m w HN) as (_ & _ & _ & Z1 & Z2 & Z3 & _).
  pose proof Hv3 as [D1 D2 D3 D4].
  assert (Hsame : ∀ q k (wa wb : World), sameVecs wa wb →
                    counterValue wb q k = counterValue wa q k).
  { intros q k wa wb [E _]. by apply counterValue_sameVecs. }
  exists w1, w2, w3. split_and!; [done..| | |].
  - intros n p r Hpos. rewrite countIncScan_countCalls in *.
    rewrite <- nat_N_Z.
    apply (counter_sample_in_scrape w3 (metricComplianceScanStatus (m_metrics m))
             (NewDesc scanStatusOpts scanStatusLabels) [n; p; r]).
    + apply (Hreg metricNameComplianceScanStatus). unfold collectors. set_solver.
    + exact D2.
    + apply (use_register_use_count m w w1 w2 w3 cs1 cs2
               (λ w, scanStatusCounter m w n p r) (isIncScan n p r)); try done.
      * intros c wa Ha. by apply effect_scanStatus.
      * intros wa wb Hab. by apply Hsame.
      * apply Z2.
    + lia.
  - intros n Hpos. rewrite <- nat_N_Z.
    apply (counter_sample_in_scrape w3 (metricComplianceScanError (m_metrics m))
             (NewDesc scanErrorOpts scanErrorLabels) [n]).
    + apply (Hreg metricNameComplianceScanError). unfold collectors. set_solver.
    + exact D1.
    + apply (use_register_use_count m w w1 w2 w3 cs1 cs2
               (λ w, scanErrorCounter m w n) (isScanError n)); try done.
      * intros c wa Ha. by apply effect_scanError.
      * intros wa wb Hab. by apply Hsame.
      * apply Z1.
    + lia.
  - intros n s Hpos. rewrite <- nat_N_Z.
    apply (counter_sample_in_scrape w3 (metricComplianceRemediationStatus (m_metrics m))
             (NewDesc remediationStatusOpts remediationStatusLabels) [n; s]).
    + apply (Hreg metricNameComplianceRemediationStatus). unfold collectors. set_solver.
    + exact D3.
    + apply (use_register_use_count m w w1 w2 w3 cs1 cs2
               (λ w, remediationStatusCounter m w n s) (isIncRemediation n s)); try done.
      * intros c wa Ha. by apply effect_remediation.
      * intros wa wb Hab. by apply Hsame.
      * apply Z3.
    + lia.
Qed.

Lemma scrape_shows_counters_witness :
  New emptyWorld = Ret freshMetrics freshWorld
  ∧ registryKnowsNone emptyWorld
  ∧ range_order freshMetrics (collectors freshMetrics)
  ∧ ∃ w1 w2 w3,
      calls freshMetrics [IncRemediation "rem-a" (mkRemediationStatus "applied")]
        freshWorld = Ret tt w1
      ∧ Register freshMetrics (collectors freshMetrics) w1 = Ret None w2
      ∧ calls freshMetrics
          [IncRemediation "rem-a" (mkRemediationStatus "applied");
           IncRemediation "rem-a" (mkRemediationStatus "error")] w2 = Ret tt w3
      ∧ {| s_name := "compliance_operator_compliance_remediation_status_total";
           s_labels := [("name", "rem-a"); ("state", "applied")];
           s_value := 2 |} ∈ Gather w3.
Proof.
  assert (Hu : registryKnowsNone emptyWorld).
  { unfold registryKnowsNone, reporterDescs.
    repeat (constructor; [split_and!; [apply not_elem_of_empty | reflexivity | reflexivity]|]).
    constructor. }
  assert (Hp : range_order freshMetrics (collectors freshMetrics))
    by (unfold range_order; reflexivity).
  split_and!; [reflexivity | exact Hu | exact Hp |].
  destruct (scrape_shows_counters emptyWorld freshMetrics freshWorld
              [IncRemediation "rem-a" (mkRemediationStatus "applied")]
              (collectors freshMetrics)
              [IncRemediation "rem-a" (mkRemediationStatus "applied");
               IncRemediation "rem-a" (mkRemediationStatus "error")]
              eq_refl Hu Hp)
    as (w1 & w2 & w3 & H1 & H2 & H3 & _ & _ & H4).
  exists w1, w2, w3. split_and!; [exact H1 | exact H2 | exact H3 |].
  apply (H4 "rem-a" "applied"). vm_compute. lia.
Defined.

(** X11: end to end for the gauge.  In the same run (use, register, use)
    the scrape at the end holds, for every suite for which a setter was
    called before or after the registration, one [compliance_state] line
    with the suite as its [name] label and the ordinal of the last setter
    called for it. *)
Theorem scrape_shows_compliance_state (w0 : World) (m : Metrics) (w : World)
    (cs1 : list Call) (order : list (string * Collector)) (cs2 : list Call) :
  New w0 = Ret m w → registryKnowsNone w0 → range_order m order →
  ∃ w1 w2 w3,
    calls m cs1 w = Ret tt w1 ∧ Register m order w1 = Ret None w2
    ∧ calls m cs2 w2 = Ret tt w3
    ∧ ∀ suite s, lastSetter suite (cs1 ++ cs2) = Some s →
        {| s_name := "compliance_operator_compliance_state";
           s_labels := [("name", suite)];
           s_value := ordinal s |} ∈ Gather w3.
Proof.
  intros HN Hu Hp.
  destruct (use_register_use w0 m w cs1 order cs2 HN Hu Hp)
    as (w1 & w2 & w3 & Hr1 & Hr2 & Hr3 & Hv & Hv2 & Hv3 & Hs & Hreg).
  destruct (New_valid w0 m w HN) as (_ & _ & _ & _ & _ & _ & Z4).
  pose proof Hv3 as [D1 D2 D3 D4].
  exists w1, w2, w3. split_and!; [done..|].
  intros suite s Hlast.
  apply (gauge_sample_in_scrape w3 (metricComplianceStateGauge (m_metrics m))
           (NewDesc stateGaugeOpts stateGaugeLabels) [suite]).
  - apply (Hreg metricNameComplianceStateGauge). unfold collectors. set_solver.
  - exact D4.
  - destruct (calls_spec m cs1 w Hv) as (w1' & Hr1' & _ & _ & Hg1 & _).
    rewrite Hr1 in Hr1'. injection Hr1' as <-.
    destruct (calls_spec m cs2 w2 Hv2) as (w3' & Hr3' & _ & _ & Hg3 & _).
    rewrite Hr3 in Hr3'. injection Hr3' as <-.
    specialize (Hg1 suite). specialize (Hg3 suite).
    unfold complianceStateGauge in *.
    rewrite lastSetter_app in Hlast. rewrite Hg3.
    destruct (lastSetter suite cs2) as [s2|]; [by injection Hlast as ->|].
    destruct Hs as [_ Eg]. unfold gaugeValue. rewrite Eg.
    unfold gaugeValue in Hg1. rewrite Hg1, Hlast. done.
Qed.

Lemma scrape_shows_compliance_state_witness :
  New emptyWorld = Ret freshMetrics freshWorld
  ∧ registryKnowsNone emptyWorld
  ∧ range_order freshMetrics (collectors freshMetrics)
  ∧ ∃ w1 w2 w3,
      calls freshMetrics [SetState StateError "suite-a"] freshWorld = Ret tt w1
      ∧ Register freshMetrics (collectors freshMetrics) w1 = Ret None w2
      ∧ calls freshMetrics [SetState StateInCompliance "suite-b"] w2 = Ret tt w3
      ∧ {| s_name := "compliance_operator_compliance_state";
           s_labels := [("name", "suite-a")];
           s_value := 3 |} ∈ Gather w3.
Proof.
  assert (Hu : registryKnowsNone emptyWorld).
  { unfold registryKnowsNone, reporterDescs.
    repeat (constructor; [split_and!; [apply not_elem_of_empty | reflexivity | reflexivity]|]).
    constructor. }
  assert (Hp : range_order freshMetrics (collectors freshMetrics))
    by (unfold range_order; reflexivity).
  split_and!; [reflexivity | exact Hu | exact Hp |].
  destruct (scrape_shows_compliance_state emptyWorld freshMetrics freshWorld
              [SetState StateError "suite-a"] (collectors freshMetrics)
              [SetState StateInCompliance "suite-b"] eq_refl Hu Hp)
    as (w1 & w2 & w3 & H1 & H2 & H3 & H4).
  exists w1, w2, w3. split_and!; [exact H1 | exact H2 | exact H3 |].
  apply (H4 "suite-a" StateError). reflexivity.
Defined.

Lemma Collect_bump_ne (p : nat) (key : list string) (c : Collector) (w : World) :
  c ≠ CounterVecPtr p → Collect c (bump p key w) = Collect c w.
Proof.
  intros Hne. destruct c as [q|q]; simpl; [|done].
  rewrite list_lookup_alter_ne; [done|]. intros ->. done.
Qed.

Lemma Collect_setGauge_ne (p : nat) (key : list string) (val : Z) (c : Collector)
    (w : World) :
  c ≠ GaugeVecPtr p → Collect c (setGauge p key val w) = Collect c w.
Proof.
  intros Hne. destruct c as [q|q]; simpl; [done|].
  rewrite list_lookup_alter_ne; [done|]. intros ->. done.
Qed.

Lemma Collect_effect_other (m : Metrics) (k : Call) (c : Collector) (w : World) :
  (∀ name, (name, c) ∉ collectors m) → Collect c (effect m k w) = Collect c w.
Proof.
  intros Hn.
  assert (N1 : c ≠ CounterVecPtr (metricComplianceScanError (m_metrics m))).
  { intros ->. apply (Hn metricNameComplianceScanError). unfold collectors. set_solver. }
  assert (N2 : c ≠ CounterVecPtr (metricComplianceScanStatus (m_metrics m))).
  { intros ->. apply (Hn metricNameComplianceScanStatus). unfold collectors. set_solver. }
  assert (N3 : c ≠ CounterVecPtr (metricComplianceRemediationStatus (m_metrics m))).
  { intros ->. apply (Hn metricNameComplianceRemediationStatus).
    unfold collectors. set_solver. }
  assert (N4 : c ≠ GaugeVecPtr (metricComplianceStateGauge (m_metrics m))).
  { intros ->. apply (Hn metricNameComplianceStateGauge). unfold collectors. set_solver. }
  destruct k as [n st|n st|s n]; simpl.
  - case_decide; by rewrite ?Collect_bump_ne.
  - by rewrite Collect_bump_ne.
  - by rewrite Collect_setGauge_ne.
Qed.

Lemma bind_ext_elem {A B} (f g : A → list B) (l : list A) :
  (∀ x, x ∈ l → f x = g x) → l ≫= f = l ≫= g.
Proof.
  induction l as [|a l IH]; intros H; [done|].
  rewrite !bind_cons. rewrite (H a) by left. f_equal. apply IH.
  intros x Hx. apply H. by right.
Qed.

(** X12: calls on a reporter none of whose collectors is registered do
    not change what a scrape shows.  The calls succeed and the values are
    kept (see X10), but the scrape is the same list of lines before and
    after: registration alone decides visibility. *)
Theorem unregistered_reporter_is_invisible (m : Metrics) (w : World) (cs : list Call) :
  valid m w →
  (∀ name c, (name, c) ∈ collectors m → ¬ registered c w) →
  ∃ w', calls m cs w = Ret tt w' ∧ Gather w' = Gather w.
Proof.
  revert w. induction cs as [|k cs IH]; intros w Hv Hn.
  - exists w. done.
  - destruct (effect_frame m k w) as [R _].
    destruct (IH (effect m k w) (valid_effect m k w Hv)) as (w' & Hr & Hg).
    { intros name c Hin [i Hi]. apply (Hn name c Hin). exists i. by rewrite <- R. }
    exists w'. rewrite calls_cons by done. split; [exact Hr|].
    rewrite Hg. unfold Gather. rewrite R. apply bind_ext_elem.
    intros [i c] Hic. simpl. apply Collect_effect_other.
    intros name Hin. apply (Hn name c Hin). exists i.
    by apply elem_of_map_to_list in Hic.
Qed.

Lemma unregistered_reporter_is_invisible_witness :
  valid freshMetrics freshWorld
  ∧ (∀ name c, (name, c) ∈ collectors freshMetrics → ¬ registered c freshWorld)
  ∧ ∃ w', calls freshMetrics
            [IncScan "scan-a" (mkScanStatus "DONE" "COMPLIANT" "");
             SetState StateError "suite-a"] freshWorld = Ret tt w'
          ∧ Gather w' = Gather freshWorld.
Proof.
  assert (Hv : valid freshMetrics freshWorld) by (split; reflexivity).
  assert (Hn : ∀ name c, (name, c) ∈ collectors freshMetrics → ¬ registered c freshWorld).
  { intros name c _ [i Hi]. vm_compute in Hi. discriminate Hi. }
  split_and!; [exact Hv | exact Hn |].
  exact (unregistered_reporter_is_invisible freshMetrics freshWorld
           [IncScan "scan-a" (mkScanStatus "DONE" "COMPLIANT" "");
            SetState StateError "suite-a"] Hv Hn).
Defined.

(** ** Package controller: [AddToManager] *)

Section ControllerFacts.

Variables Manager CtlplaneSchedulingInfo Clientset : Type.
Variable Manager_Add : Manager → Metrics → Go (option error * Manager).
Variable sink : SetupLogLine Manager CtlplaneSchedulingInfo Clientset → list LogEntry.
Variable met : Metrics.
Variable si : CtlplaneSchedulingInfo.
Variable kubeClient : Clientset.

Lemma AddToManager_range_cons (f : AddFunc Manager CtlplaneSchedulingInfo Clientset)
    (rest : list (AddFunc Manager CtlplaneSchedulingInfo Clientset)) (m : Manager)
    (w : World) :
  AddToManager_range sink (f :: rest) m met si kubeClient w
  = match f m met si kubeClient (invokeLogged sink f w) with
    | Ret (None, m1) w1 =>
        AddToManager_range sink rest m1 met si kubeClient (addedLogged sink f w1)
    | Ret (Some e, m1) w1 => Ret (Some e, m1) (addFailedLogged sink f e w1)
    | Panic msg w1 => Panic msg w1
    end.
Proof.
  simpl. unfold bind, setupLog, modify. simpl. fold (invokeLogged sink f w).
  destruct (f m met si kubeClient (invokeLogged sink f w)) as [[[e|] m1] w1|]; done.
Qed.

Lemma AddToManager_range_None
    (fs : list (AddFunc Manager CtlplaneSchedulingInfo Clientset)) :
  ∀ m w m' w',
    AddToManager_range sink fs m met si kubeClient w = Ret (None, m') w'
    ↔ addedAll sink met si kubeClient fs m w m' w'.
Proof.
  induction fs as [|f rest IH]; intros m w m' w'.
  - simpl. unfold ret. split.
    + intros [= <- <-]. constructor.
    + inversion 1. done.
  - rewrite AddToManager_range_cons. split.
    + destruct (f m met si kubeClient _) as [[[e|] m1] w1|] eqn:E; try discriminate.
      intros H. econstructor; [exact E|]. by apply IH.
    + inversion 1 as [|? ? ? ? m1 w1 ? ? E Hr]; subst. rewrite E. by apply IH.
Qed.

Lemma AddToManager_range_Some
    (fs : list (AddFunc Manager CtlplaneSchedulingInfo Clientset)) :
  ∀ m w e m' w',
    AddToManager_range sink fs m met si kubeClient w = Ret (Some e, m') w'
    ↔ ∃ pre f post m1 w1 w2,
        fs = (pre ++ f :: post)%list
        ∧ addedAll sink met si kubeClient pre m w m1 w1
        ∧ f m1 met si kubeClient (invokeLogged sink f w1) = Ret (Some e, m') w2
        ∧ w' = addFailedLogged sink f e w2.
Proof.
  induction fs as [|f rest IH]; intros m w e m' w'.
  - simpl. unfold ret. split; [discriminate|].
    intros (pre & ? & ? & ? & ? & ? & E & _). by destruct pre.
  - rewrite AddToManager_range_cons. split.
    + destruct (f m met si kubeClient _) as [[[e0|] m1] w1|] eqn:E; try discriminate.
      * intros [= <- <- <-]. exists [], f, rest, m, w, w1.
        split_and!; try done. constructor.
      * intros H. apply IH in H as (pre & g & post & m2 & w2 & w3 & -> & Hp & Hf & ->).
        exists (f :: pre), g, post, m2, w2, w3.
        split_and!; try done. econstructor; [exact E | exact Hp].
    + intros (pre & g & post & m1 & w1 & w2 & Heq & Hp & Hf & ->).
      destruct pre as [|f0 pre]; simpl in Heq.
      * injection Heq as <- <-. inversion Hp; subst. by rewrite Hf.
      * injection Heq as <- ->. inversion Hp as [|? ? ? ? m3 w3 ? ? E Hr]; subst.
        rewrite E. apply IH. exists pre, g, post, m1, w1, w2. done.
Qed.

Lemma AddToManager_unfold
    (fs : list (AddFunc Manager CtlplaneSchedulingInfo Clientset)) (m : Manager)
    (w : World) :
  AddToManager Manager_Add sink fs m met si kubeClient w
  = match Manager_Add m met
            (setupLogged sink (SetupInfo setupLogNames "Adding metrics to manager" []) w)
    with
    | Ret (None, m1) w1 =>
        AddToManager_range sink fs m1 met si kubeClient
          (setupLogged sink (SetupInfo setupLogNames "Adding controllers to manager" [])
             (setupLogged sink
                (SetupInfo setupLogNames "Metrics added to manager successfully" []) w1))
    | Ret (Some e, m1) w1 =>
        Ret (Some e, m1)
          (setupLogged sink
             (SetupError setupLogNames e "Failed to add metrics to manager" []) w1)
    | Panic msg w1 => Panic msg w1
    end.
Proof.
  unfold AddToManager, bind, setupLog, modify. simpl.
  destruct (Manager_Add m met _) as [[[e|] m1] w1|]; done.
Qed.

(** X13: when [m.Add(met)] fails, [AddToManager] returns that very error
    (not wrapped) and calls none of the functions of
    [AddToManagerFuncs]: the result is the same for every list of
    functions, and the state is the one [Add] left plus the line "Failed
    to add metrics to manager". *)
Theorem AddToManager_metrics_first
    (fs : list (AddFunc Manager CtlplaneSchedulingInfo Clientset)) (m : Manager)
    (w : World) (e : error) (m1 : Manager) (w1 : World) :
  Manager_Add m met
    (setupLogged sink (SetupInfo setupLogNames "Adding metrics to manager" []) w)
  = Ret (Some e, m1) w1 →
  AddToManager Manager_Add sink fs m met si kubeClient w
  = Ret (Some e, m1)
      (setupLogged sink
         (SetupError setupLogNames e "Failed to add metrics to manager" []) w1)
  ∧ AddToManager Manager_Add sink fs m met si kubeClient w
    = AddToManager Manager_Add sink [] m met si kubeClient w.
Proof.
  intros HA. rewrite !AddToManager_unfold, HA. done.
Qed.

(** X14: [AddToManager] adds the metrics first and then calls the
    functions of [AddToManagerFuncs] in order, each on the manager the
    previous call left, and stops at the first one that fails.  It
    returns nil exactly when [Add] and every function returned nil; it
    returns an error exactly when [Add] failed, or [Add] and all functions
    before some function succeeded and that function failed; the error is
    the failing call's own error and the state is the one that call left
    plus its error line, so no later function was called. *)
Theorem AddToManager_stops_at_first_failure
    (fs : list (AddFunc Manager CtlplaneSchedulingInfo Clientset)) (m : Manager)
    (w : World) :
  (∀ m' w',
     AddToManager Manager_Add sink fs m met si kubeClient w = Ret (None, m') w'
     ↔ ∃ m1 w1,
         Manager_Add m met
           (setupLogged sink (SetupInfo setupLogNames "Adding metrics to manager" []) w)
         = Ret (None, m1) w1
         ∧ addedAll sink met si kubeClient fs m1
             (setupLogged sink (SetupInfo setupLogNames "Adding controllers to manager" [])
                (setupLogged sink
                   (SetupInfo setupLogNames "Metrics added to manager successfully" [])
                   w1))
             m' w')
  ∧ (∀ e m' w',
       AddToManager Manager_Add sink fs m met si kubeClient w = Ret (Some e, m') w'
       ↔ (∃ w1,
            Manager_Add m met
              (setupLogged sink (SetupInfo setupLogNames "Adding metrics to manager" []) w)
            = Ret (Some e, m') w1
            ∧ w' = setupLogged sink
                     (SetupError setupLogNames e "Failed to add metrics to manager" []) w1)
         ∨ (∃ m1 w1 pre f post m2 w2 w3,
              Manager_Add m met
                (setupLogged sink (SetupInfo setupLogNames "Adding metrics to manager" [])
                   w)
              = Ret (None, m1) w1
              ∧ fs = (pre ++ f :: post)%list
              ∧ addedAll sink met si kubeClient pre m1
                  (setupLogged sink
                     (SetupInfo setupLogNames "Adding controllers to manager" [])
                     (setupLogged sink
                        (SetupInfo setupLogNames "Metrics added to manager successfully" [])
                        w1))
                  m2 w2
              ∧ f m2 met si kubeClient (invokeLogged sink f w2) = Ret (Some e, m') w3
              ∧ w' = addFailedLogged sink f e w3)).
Proof.
  split.
  - intros m' w'. rewrite AddToManager_unfold.
    destruct (Manager_Add m met _) as [[[e|] m1] w1|] eqn:E.
    + split; [discriminate|]. intros (? & ? & [= ] & _).
    + rewrite AddToManager_range_None. split.
      * intros H. eauto.
      * intros (m2 & w2 & [= <- <-] & H). done.
    + split; [discriminate|]. intros (? & ? & [= ] & _).
  - intros e m' w'. rewrite AddToManager_unfold.
    destruct (Manager_Add m met _) as [[[e0|] m1] w1|] eqn:E.
    + split.
      * intros [= <- <- <-]. left. eauto.
      * intros [(w2 & [= <- <- <-] & ->)|(? & ? & ? & ? & ? & ? & ? & ? & [= ] & _)]. done.
    + rewrite AddToManager_range_Some. split.
      * intros (pre & f & post & m2 & w2 & w3 & -> & Hp & Hf & ->).
        right. exists m1, w1, pre, f, post, m2, w2, w3. done.
      * intros [(? & [= ] & _)
               |(m1' & w1' & pre & f & post & m2 & w2 & w3 & [= <- <-] & -> & Hp & Hf & ->)].
        exists pre, f, post, m2, w2, w3. done.
    + split; [discriminate|].
      intros [(? & [= ] & _)|(? & ? & ? & ? & ? & ? & ? & ? & [= ] & _)].
Qed.

End ControllerFacts.

(** ** Package v1: deep copies of machine configs *)

Section MachineConfigV1Facts.

Variable E : V1Env.

(** The loop over the items, after the first [k] rounds. *)
Lemma copyItem_rounds (items : list (MachineConfig E)) (k : nat) :
  (k ≤ length items)%nat →
  fold_left (copyItem E items) (seq 0 k)
    (replicate (length items) (zeroMachineConfig E))
  = (((λ x, MachineConfig_DeepCopyInto E x (zeroMachineConfig E)) <$> take k items)
     ++ replicate (length items - k) (zeroMachineConfig E))%list.
Proof.
  induction k as [|k IH]; intros Hk.
  - simpl. by rewrite Nat.sub_0_r.
  - rewrite seq_S, fold_left_app, IH by lia. simpl.
    destruct (lookup_lt_is_Some_2 items k) as [x Hx]; [lia|].
    unfold copyItem. rewrite Hx.
    assert (Hlen : length ((λ x, MachineConfig_DeepCopyInto E x (zeroMachineConfig E))
                             <$> take k items) = k).
    { rewrite length_fmap, length_take. lia. }
    rewrite lookup_app_r by lia. rewrite Hlen, Nat.sub_diag.
    replace (length items - k) with (S (length items - S k)) by lia. simpl.
    rewrite (take_S_r items k x Hx), fmap_app. simpl.
    rewrite <- app_assoc. simpl.
    rewrite insert_app_r_alt by lia. rewrite Hlen, Nat.sub_diag. done.
Qed.

Lemma MachineConfigList_DeepCopyInto_map (in_ out : MachineConfigList E) :
  Items (MachineConfigList_DeepCopyInto E in_ out)
  = fmap (M := list) (λ x, MachineConfig_DeepCopyInto E x (zeroMachineConfig E))
    <$> Items in_.
Proof.
  unfold MachineConfigList_DeepCopyInto. destruct (Items in_) as [items|] eqn:EI; simpl.
  - f_equal. rewrite copyItem_rounds by done.
    rewrite Nat.sub_diag, firstn_all. simpl. apply app_nil_r.
  - done.
Qed.

(** X15: [MachineConfigList.DeepCopyInto] gives the destination a slice
    of its own that mirrors the source: nil stays nil, and otherwise the
    new slice has the same length and holds at every index the deep copy
    of the item at that index (an empty slice stays empty, not nil).
    Whatever the destination held before is gone. *)
Theorem MachineConfigList_DeepCopyInto_items (in_ out : MachineConfigList E) :
  (Items (MachineConfigList_DeepCopyInto E in_ out) = None ↔ Items in_ = None)
  ∧ (∀ items, Items in_ = Some items →
       ∃ copied, Items (MachineConfigList_DeepCopyInto E in_ out) = Some copied
                 ∧ length copied = length items
                 ∧ ∀ i x, items !! i = Some x →
                     Some <$> copied !! i = Some (MachineConfig_DeepCopy E (Some x)))
  ∧ Items (MachineConfigList_DeepCopyInto E in_ out)
    = Items (MachineConfigList_DeepCopyInto E in_ (zeroMachineConfigList E)).
Proof.
  pose proof (MachineConfigList_DeepCopyInto_map in_ out) as H.
  split_and!.
  - rewrite H. by destruct (Items in_).
  - intros items Hi. rewrite H, Hi. simpl. eexists. split; [reflexivity|].
    split; [by rewrite length_fmap|].
    intros i x Hx. rewrite list_lookup_fmap, Hx. done.
  - by rewrite H, MachineConfigList_DeepCopyInto_map.
Qed.

(** X16: the three [DeepCopy] methods return nil exactly for a nil
    receiver.  [MachineConfigList.DeepCopyObject] returns the nil
    interface exactly for a nil receiver, while
    [MachineConfig.DeepCopyObject] never returns the nil interface: for a
    nil receiver it returns an interface that holds a nil pointer. *)
Theorem DeepCopyObject_nil (mc : option (MachineConfig E))
    (spec : option (MachineConfigSpec E)) (l : option (MachineConfigList E)) :
  (MachineConfig_DeepCopy E mc = None ↔ mc = None)
  ∧ (MachineConfigSpec_DeepCopy E spec = None ↔ spec = None)
  ∧ (MachineConfigList_DeepCopy E l = None ↔ l = None)
  ∧ (MachineConfigList_DeepCopyObject E l = nilObject ↔ l = None)
  ∧ MachineConfig_DeepCopyObject E mc ≠ nilObject
  ∧ MachineConfig_DeepCopyObject E None = MachineConfigObject None.
Proof.
  split_and!; try done; try (destruct mc; done); try (destruct spec; done);
    destruct l; done.
Qed.

(** X17: when the collaborators' copies keep the value (the metadata
    deep copies yield the value of their source, and appending a
    configuration to the empty configuration of the same version yields
    that configuration), [DeepCopy] of a machine config, of its spec and
    of a list of machine configs returns a value equal to the receiver's. *)
Theorem DeepCopy_keeps_value :
  (∀ x y, ObjectMeta_DeepCopyInto E x y = x) →
  (∀ x y, ListMeta_DeepCopyInto E x y = x) →
  (∀ c, ign_Append E (c.1, zeroIgnitionRest E) c = c) →
  (∀ spec, MachineConfigSpec_DeepCopy E (Some spec) = Some spec)
  ∧ (∀ mc, MachineConfig_DeepCopy E (Some mc) = Some mc)
  ∧ (∀ l, MachineConfigList_DeepCopy E (Some l) = Some l).
Proof.
  intros HO HL HA.
  assert (HS : ∀ spec out, MachineConfigSpec_DeepCopyInto E spec out = spec).
  { intros [c r] out. unfold MachineConfigSpec_DeepCopyInto, deepCopyIgnConfig. simpl.
    unfold Ignition_Version. by rewrite HA. }
  assert (HM : ∀ mc out, MachineConfig_DeepCopyInto E mc out = mc).
  { intros [t o s] out. unfold MachineConfig_DeepCopyInto. simpl. by rewrite HO, HS. }
  split_and!.
  - intros spec. simpl. by rewrite HS.
  - intros mc. simpl. by rewrite HM.
  - intros [t lm items]. simpl. f_equal.
    assert (HI : Items (MachineConfigList_DeepCopyInto E
                          {| mcl_TypeMeta := t; mcl_ListMeta := lm; Items := items |}
                          (zeroMachineConfigList E)) = items).
    { rewrite MachineConfigList_DeepCopyInto_map. simpl.
      destruct items as [its|]; simpl; [|done]. f_equal.
      induction its as [|x its IH]; [done|]. by rewrite fmap_cons, HM, IH. }
    unfold MachineConfigList_DeepCopyInto in *. simpl in *.
    destruct items as [its|]; simpl in *; rewrite HL; f_equal; done.
Qed.

End MachineConfigV1Facts.

Lemma DeepCopy_keeps_value_witness :
  (∀ x y, ObjectMeta_DeepCopyInto listEnv x y = x)
  ∧ (∀ x y, ListMeta_DeepCopyInto listEnv x y = x)
  ∧ (∀ c, ign_Append listEnv (c.1, zeroIgnitionRest listEnv) c = c)
  ∧ MachineConfigList_DeepCopy listEnv
      (Some (mkMachineConfigList listEnv tt tt
               (Some [mkMachineConfig listEnv tt tt
                        (mkMachineConfigSpec listEnv ("2.2.0", [1; 2]) tt)])))
    = Some (mkMachineConfigList listEnv tt tt
              (Some [mkMachineConfig listEnv tt tt
                       (mkMachineConfigSpec listEnv ("2.2.0", [1; 2]) tt)])).
Proof.
  assert (H1 : ∀ x y, ObjectMeta_DeepCopyInto listEnv x y = x) by reflexivity.
  assert (H2 : ∀ x y, ListMeta_DeepCopyInto listEnv x y = x) by reflexivity.
  assert (H3 : ∀ c, ign_Append listEnv (c.1, zeroIgnitionRest listEnv) c = c)
    by (intros [v r]; reflexivity).
  split_and!; [exact H1 | exact H2 | exact H3 |].
  destruct (DeepCopy_keeps_value listEnv H1 H2 H3) as (_ & _ & H).
  apply H.
Defined.

Lemma AddToManager_metrics_first_witness :
  let Add : nat → Metrics → Go (option error * nat) :=
    λ m _, ret (Some (errorString "runnable rejected"), m) in
  let sink : SetupLogLine nat unit unit → list LogEntry := λ _, [] in
  let never : AddFunc nat unit unit := λ _ _ _ _, panic "called" in
  Add 0 freshMetrics
    (setupLogged sink (SetupInfo setupLogNames "Adding metrics to manager" []) freshWorld)
  = Ret (Some (errorString "runnable rejected"), 0) freshWorld
  ∧ AddToManager Add sink [never] 0 freshMetrics tt tt freshWorld
    = Ret (Some (errorString "runnable rejected"), 0) freshWorld.
Proof.
  intros Add sink never.
  assert (H : Add 0 freshMetrics
                (setupLogged sink (SetupInfo setupLogNames "Adding metrics to manager" [])
                   freshWorld)
              = Ret (Some (errorString "runnable rejected"), 0) freshWorld)
    by reflexivity.
  split; [exact H|].
  destruct (AddToManager_metrics_first nat unit unit Add sink freshMetrics tt tt
              [never] 0 freshWorld _ _ _ H) as [H1 _].
  exact H1.
Defined.
